(** * FileUtilOperationTask: locate, copy, move and archive files of a tree

    A shallow embedding of [src/FileUtilOperationTask.c].  The program walks
    a directory tree with [nftw] and either reports the path of a named
    file, copies or moves it into a storage directory, or writes the files
    whose name contains a given pattern to [storageDir/a1.tar] through zlib.

    The C functions ([directory_exists], [search_and_process],
    [search_and_create_tar], [add_file_to_tar], [copy_or_move_file], [main])
    are transcribed as programs of a state monad over a model of the file
    system; the library calls they make ([stat], [fopen], [fread], [fwrite],
    [fclose], [rename], [gzopen], [gzwrite], [nftw], ...) are modelled in
    the section "Operating system" from their manual pages and from the
    GNU C library, whose behaviour is followed where POSIX leaves a choice
    (the spelling of the paths [nftw] hands over, the buffering of
    [stdio]).

    Path names are the strings of the program: they are resolved against
    the working directory or the root directory, through [.], [..] and
    symbolic links.  Regular files are links to inodes, so two paths can
    name one file.  [stdio] streams are buffered, and nothing checks the
    result of [fclose].

    Outside the model: permissions (the process may search, read and write
    everything), special files, the deflate coding, memory
    exhaustion, and names or paths beyond [NAME_MAX] and [PATH_MAX], so
    that [snprintf] never truncates. *)

From stdpp Require Import gmap strings list fin_maps sorting.
From Stdlib Require Import ZArith.
From Stdlib.Strings Require Import Ascii Byte.

Open Scope string_scope.
Open Scope list_scope.
Open Scope Z_scope.
Open Scope nat_scope.

(** ** Data model *)

(** The place of an entry in the file system: the names that lead to it
    from the root directory [[]], none of them [.], [..] or a link. *)
Abbreviation path := (list string).

Abbreviation ino := nat.

(** What a directory entry is: a link to the inode of a regular file, a
    directory, or a symbolic link with its target. *)
Inductive node :=
  | File (i : ino)
  | Dir
  | Symlink (target : string).

#[global] Instance node_eq_dec : EqDecision node.
Proof. solve_decision. Defined.

(** The entries and the contents of the inodes. *)
Record disk := Disk {
  tree : gmap path node;
  blobs : gmap ino (list byte);
}.

(** The [typeflag] argument of an [nftw] callback, as in [<ftw.h>]. *)
Inductive ftw_flag := FTW_F | FTW_D | FTW_DNR | FTW_NS | FTW_SL.

#[global] Instance ftw_flag_eq_dec : EqDecision ftw_flag.
Proof. solve_decision. Defined.

(** [struct FTW]: [base] is the offset of the final component in [fpath],
    [level] the depth below the root of the walk. *)
Record FTW := mkFTW { base : nat; level : nat }.

Inductive errno := ENOENT | ENOTDIR | ELOOP.

#[global] Instance errno_eq_dec : EqDecision errno.
Proof. solve_decision. Defined.

Inductive res (A : Type) :=
  | Ok (a : A)
  | Fail (e : errno).
Arguments Ok {A} a.
Arguments Fail {A} e.

(** A [stdio] stream: the inode it is open on ([None] for a directory,
    which [fopen] opens for reading), the read offset, and the bytes
    written to the stream that have not reached the file yet. *)
Record FILE := mkFILE {
  f_ino : option ino;
  f_pos : nat;
  f_buf : list byte;
}.

(** Lines written to the two output streams; [perror] writes to [stderr]. *)
Inductive output :=
  | Stdout (line : string)
  | Stderr (line : string).

(** History of a run, kept beside the program state to state properties
    about it: the entries [nftw] hands to the callback, the assignments to
    [found_file], and the calls of [copy_or_move_file].  No program reads
    the history. *)
Inductive step :=
  | Visit (fpath : string) (flag : ftw_flag)
  | Found (fpath : string)
  | Transfer (src dest : string).

(** What the program cannot change: the working directory, the device each
    place is on, the size of a [stdio] buffer, the order in which a
    directory lists its entries (by [rank], then by name), and the
    directories that [opendir] fails on, for another reason than a
    missing permission. *)
Record env := Env {
  cwd : path;
  dev : path → nat;
  bufsiz : nat;
  rank : path → nat;
  faulty : path → bool;
}.

(** The machine: the file system, the [free] bytes left on the device the
    run writes to (a run writes to one file, the copy or the archive), the
    environment, the global [found_file], the output written so far and
    the history. *)
Record state := State {
  fs : disk;
  free : nat;
  sys : env;
  found_file : option string;
  out : list output;
  hist : list step;
}.

(** The globals [main] assigns from [argv] before the walk starts and
    nothing changes afterwards.  [operation] stays [NULL] (here [None]) in
    the modes that take no operation flag; the other globals a mode leaves
    [NULL] are not read in that mode. *)
Record globals := Globals {
  enteredFileName : string;
  rootDir : string;
  storageDir : string;
  operation : option string;
  extension : string;
}.

Definition with_fs (f : disk) (s : state) : state :=
  State f (free s) (sys s) (found_file s) (out s) (hist s).
Definition with_free (n : nat) (s : state) : state :=
  State (fs s) n (sys s) (found_file s) (out s) (hist s).
Definition with_found (p : option string) (s : state) : state :=
  State (fs s) (free s) (sys s) p (out s) (hist s).
Definition with_out (o : list output) (s : state) : state :=
  State (fs s) (free s) (sys s) (found_file s) o (hist s).
Definition with_hist (h : list step) (s : state) : state :=
  State (fs s) (free s) (sys s) (found_file s) (out s) h.

(** The state a process starts in: [found_file] is [NULL], nothing written. *)
Definition boot (f : disk) (space : nat) (e : env) : state :=
  State f space e None [] [].

(** ** Programs *)

(** A program returns a value and a new state, or [None] when the fuel
    given to its loops ran out before it finished. *)
Definition M (A : Type) : Type := state → option (A * state).

Definition ret {A} (a : A) : M A := λ s, Some (a, s).
Definition bind {A B} (m : M A) (k : A → M B) : M B :=
  λ s, match m s with
       | Some (a, s') => k a s'
       | None => None
       end.
Definition out_of_fuel {A} : M A := λ _, None.
Definition gets {A} (f : state → A) : M A := λ s, Some (f s, s).
Definition modify (f : state → state) : M unit := λ s, Some (tt, f s).

Declare Scope prog_scope.
Delimit Scope prog_scope with prog.
Notation "'do' x <- m ; k" := (bind m (λ x, k))
  (at level 10, x name, m at level 100, k at level 200,
   format "'[v' 'do'  x  <-  m ; '/' k ']'") : prog_scope.
Notation "'do' ' p <- m ; k" := (bind m (λ x, match x with p => k end))
  (at level 10, p pattern, m at level 100, k at level 200,
   format "'[v' 'do'  ' p  <-  m ; '/' k ']'") : prog_scope.
Notation "'run' m ; k" := (bind m (λ _, k))
  (at level 10, m at level 100, k at level 200,
   format "'[v' 'run'  m ; '/' k ']'") : prog_scope.
Open Scope prog_scope.

Definition printf (line : string) : M unit :=
  modify (λ s, with_out (out s ++ [Stdout line]) s).
Definition eprintf (line : string) : M unit :=
  modify (λ s, with_out (out s ++ [Stderr line]) s).
(** [perror(tag)] writes [tag] and the text of [errno]; the text is left out. *)
Definition perror (tag : string) : M unit := eprintf tag.
Definition note (e : step) : M unit :=
  modify (λ s, with_hist (hist s ++ [e]) s).

(** ** Strings *)

(** [strcmp], of which the program only tests the result against 0. *)
Definition strcmp (a b : string) : Z :=
  match String.compare a b with
  | Eq => 0%Z
  | Lt => (-1)%Z
  | Gt => 1%Z
  end.

(** [strstr(haystack, needle)]: the first suffix of [haystack] that starts
    with [needle], or [NULL]. *)
Fixpoint strstr (haystack needle : string) : option string :=
  if String.prefix needle haystack then Some haystack
  else match haystack with
       | EmptyString => None
       | String _ rest => strstr rest needle
       end.

(** [s + n], a pointer into the string [s]. *)
Fixpoint sdrop (n : nat) (s : string) : string :=
  match n, s with
  | S n', String _ rest => sdrop n' rest
  | _, _ => s
  end.

(** [fpath + ftwbuf->base]. *)
Definition from_base (fpath : string) (ftwbuf : FTW) : string :=
  sdrop (base ftwbuf) fpath.

(** [snprintf(buf, PATH_MAX, "%s/%s", a, b)]. *)
Definition slash_join (a b : string) : string := a +:+ "/" +:+ b.

(** The components of a path name, the pieces between its slashes:
    ["/r//a"] has the components [""], ["r"], [""] and ["a"]. *)
Fixpoint split (s : string) : list string :=
  match s with
  | EmptyString => [""]
  | String c rest =>
      if Ascii.eqb c "/" then "" :: split rest
      else match split rest with
           | x :: xs => String c x :: xs
           | [] => [String c ""]
           end
  end.

Definition absolute (s : string) : bool :=
  match s with
  | String c _ => Ascii.eqb c "/"
  | EmptyString => false
  end.

Fixpoint ends_with_slash (s : string) : bool :=
  match s with
  | EmptyString => false
  | String c EmptyString => Ascii.eqb c "/"
  | String _ rest => ends_with_slash rest
  end.

(** [s] without the slashes at its end. *)
Fixpoint rstrip (s : string) : string :=
  match s with
  | EmptyString => ""
  | String c rest =>
      let rest' := rstrip rest in
      if Ascii.eqb c "/" && bool_decide (rest' = "") then ""
      else String c rest'
  end.

(** ** Operating system *)

(** The last component of a place and what precedes it. *)
Fixpoint unsnoc (p : path) : option (path * string) :=
  match p with
  | [] => None
  | n :: rest =>
      match unsnoc rest with
      | None => Some ([], n)
      | Some (d, l) => Some (n :: d, l)
      end
  end.

Definition is_dir (o : option node) : bool :=
  match o with
  | Some Dir => true
  | _ => false
  end.

(** The name of an entry: not empty, not [.] or [..], without a slash. *)
Definition plain (n : string) : Prop :=
  n ≠ "" ∧ n ≠ "." ∧ n ≠ ".." ∧ split n = [n].

#[global] Instance plain_dec n : Decision (plain n).
Proof. unfold plain. apply _. Defined.

Definition dotlike (c : string) : bool := bool_decide (c = "" ∨ c = ".").

(** Path resolution, from the directory [cur] along the components
    [comps].  An empty component and [.] stay where they are, [..] goes to
    the parent, a link is replaced by the components of its target, which
    start from the root directory when the target is absolute.  Every
    component is looked up in a directory; the last one need not exist, so
    that the result is the place of an entry or the place where one can be
    made.  [l] counts the links that may still be followed, and the result
    tells how many are left. *)
Definition namei_gen (next : path → list string → res (path * nat))
    (l : nat) (m : gmap path node)
  : path → list string → res (path * nat) :=
  fix go (cur : path) (comps : list string) : res (path * nat) :=
    match comps with
    | [] => Ok (cur, l)
    | c :: rest =>
        match m !! cur with
        | Some Dir =>
            if dotlike c then go cur rest
            else if decide (c = "..") then go (removelast cur) rest
            else match m !! (cur ++ [c]) with
                 | Some (Symlink t) =>
                     if decide (t = "") then Fail ENOENT
                     else next (if absolute t then [] else cur)
                               (split t ++ rest)
                 | _ => go (cur ++ [c]) rest
                 end
        | Some _ => Fail ENOTDIR
        | None => Fail ENOENT
        end
    end.

Fixpoint namei (l : nat) (m : gmap path node)
  : path → list string → res (path * nat) :=
  namei_gen (match l with
             | O => λ _ _, Fail ELOOP
             | S l' => namei l' m
             end) l m.

(** The most links one resolution follows. *)
Definition MAXSYMLINKS : nat := 40.

Definition origin (e : env) (p : string) : path :=
  if absolute p then [] else cwd e.

(** The place a path name leads to, through a link at its end too. *)
Definition resolve (e : env) (m : gmap path node) (p : string) : res path :=
  if decide (p = "") then Fail ENOENT
  else match namei MAXSYMLINKS m (origin e p) (split p) with
       | Ok (c, _) => Ok c
       | Fail x => Fail x
       end.

(** The place of the entry a path name names: a link at its end is not
    followed. *)
Definition resolve_entry (e : env) (m : gmap path node) (p : string)
  : res path :=
  if decide (p = "") then Fail ENOENT
  else
    let comps := split p in
    match namei MAXSYMLINKS m (origin e p) (removelast comps) with
    | Ok (d, l) =>
        let x := List.last comps "" in
        if dotlike x || bool_decide (x = "..") then
          match namei l m d [x] with
          | Ok (c, _) => Ok c
          | Fail y => Fail y
          end
        else match m !! d with
             | Some Dir => Ok (d ++ [x])
             | Some _ => Fail ENOTDIR
             | None => Fail ENOENT
             end
    | Fail y => Fail y
    end.

Definition entry_at (m : gmap path node) (r : res path) : res node :=
  match r with
  | Ok c => match m !! c with
            | Some n => Ok n
            | None => Fail ENOENT
            end
  | Fail y => Fail y
  end.

(** [stat] follows a link at the end of the path, [lstat] does not. *)
Definition stat_in (e : env) (m : gmap path node) (p : string) : res node :=
  entry_at m (resolve e m p).
Definition lstat_in (e : env) (m : gmap path node) (p : string) : res node :=
  entry_at m (resolve_entry e m p).

Definition stat (p : string) : M (res node) :=
  gets (λ s, stat_in (sys s) (tree (fs s)) p).
Definition lstat (p : string) : M (res node) :=
  gets (λ s, lstat_in (sys s) (tree (fs s)) p).

Definition blob (d : disk) (i : ino) : list byte :=
  default [] (blobs d !! i).

(** The bytes of the regular file at a place. *)
Definition content (d : disk) (c : path) : option (list byte) :=
  match tree d !! c with
  | Some (File i) => Some (blob d i)
  | _ => None
  end.

Definition node_ino (n : node) : option ino :=
  match n with
  | File i => Some i
  | _ => None
  end.

(** An inode number that is not in use. *)
Definition fresh_ino (d : disk) : ino :=
  S (max_list (elements (dom (blobs d))
               ++ omap node_ino (snd <$> map_to_list (tree d)))).

(** [fopen(p, "rb")].  A directory can be opened for reading; reading from
    it fails. *)
Definition fopen_rb (p : string) : M (option FILE) :=
  gets (λ s, match resolve (sys s) (tree (fs s)) p with
             | Ok c =>
                 match tree (fs s) !! c with
                 | Some (File i) => Some (mkFILE (Some i) 0 [])
                 | Some Dir => Some (mkFILE None 0 [])
                 | _ => None
                 end
             | Fail _ => None
             end).

(** [fopen(p, "wb")] and [gzopen(p, "wb")], which open with [O_CREAT] and
    [O_TRUNC]: the regular file the path leads to, through links, is
    emptied and its room given back; when the path leads to a place in a
    directory where nothing is, a file is made there. *)
Definition open_trunc (p : string) : M (option FILE) :=
  λ s, let d := fs s in
       match resolve (sys s) (tree d) p with
       | Ok c =>
           match tree d !! c with
           | Some (File i) =>
               Some (Some (mkFILE (Some i) 0 []),
                     with_free (free s + length (blob d i))
                       (with_fs (Disk (tree d) (<[i := []]> (blobs d))) s))
           | None =>
               let i := fresh_ino d in
               Some (Some (mkFILE (Some i) 0 []),
                     with_fs (Disk (<[c := File i]> (tree d))
                                   (<[i := []]> (blobs d))) s)
           | Some _ => Some (None, s)
           end
       | Fail _ => Some (None, s)
       end.
Definition fopen_wb (p : string) : M (option FILE) := open_trunc p.

(** [fread(buffer, 1, n, stream)]: up to [n] bytes of the file as it is now,
    from the offset of the stream, which advances by what was read; 0 bytes
    are read at the end of the file and from a directory.  The stream does
    not read ahead: the one file that is written while a stream reads from
    it, in a copy onto itself, is emptied before the first read. *)
Definition fread (n : nat) (stream : FILE) : M (list byte * FILE) :=
  gets (λ s,
    let data := match f_ino stream with
                | Some i => blob (fs s) i
                | None => []
                end in
    let buffer := take n (drop (f_pos stream) data) in
    (buffer, mkFILE (f_ino stream) (f_pos stream + length buffer)
               (f_buf stream))).

(** [write], repeated until every byte is in the file or the device is
    full: [true] when all bytes were written. *)
Definition write_all (o : option ino) (bytes : list byte) : M bool :=
  λ s, match o, bytes with
       | Some i, _ :: _ =>
           let n := length bytes `min` free s in
           let d := fs s in
           Some (n =? length bytes,
                 with_free (free s - n)
                   (with_fs (Disk (tree d)
                               (<[i := blob d i ++ take n bytes]> (blobs d)))
                      s))
       | _, _ => Some (true, s)
       end.

(** [fwrite(buffer, 1, n, stream)] on a buffered stream.  Bytes that fit
    into the buffer of the stream stay there.  Otherwise the buffer is
    filled up and written to the file, whole blocks of what remains (all
    of it when the buffer is smaller than 128 bytes) are written directly,
    and the rest is kept in the buffer; when a write falls short the
    result is a count below [n]. *)
Definition fwrite (buffer : list byte) (stream : FILE) : M (nat * FILE) :=
  do size <- gets (λ s, bufsiz (sys s));
  let room := size - length (f_buf stream) in
  if length buffer <=? room then
    ret (length buffer,
         mkFILE (f_ino stream) (f_pos stream) (f_buf stream ++ buffer))
  else
    let emptied := mkFILE (f_ino stream) (f_pos stream) [] in
    do flushed <- write_all (f_ino stream) (f_buf stream ++ take room buffer);
    if flushed then
      let rest := drop room buffer in
      let direct := if size <? 128 then length rest
                    else length rest - length rest `mod` size in
      do done <- write_all (f_ino stream) (take direct rest);
      if done then
        ret (length buffer,
             mkFILE (f_ino stream) (f_pos stream) (drop direct rest))
      else ret (room, emptied)
    else ret (room, emptied).

(** [fclose] writes what the buffer holds; the program does not look at
    its result. *)
Definition fclose (stream : FILE) : M unit :=
  run write_all (f_ino stream) (f_buf stream);
  ret tt.

(** [rename(src, dest)], [true] for the result 0.  Neither name is followed
    when it ends in a link.  It fails when [src] does not exist, when
    [dest] cannot be looked up, across devices ([EXDEV]), and when [dest]
    is a directory; when both name the same entry, or two links to one
    inode, it succeeds and does nothing.  Otherwise the entry moves,
    replacing what [dest] was; the room of a file that loses its last
    link is not given back, and no run writes after a rename.  A
    directory is not renamed by the model, which reports a failure: the
    program renames entries that the walk classified [FTW_F]. *)
Definition rename (src dest : string) : M bool :=
  λ s, let m := tree (fs s) in
       match resolve_entry (sys s) m src, resolve_entry (sys s) m dest with
       | Ok p, Ok q =>
           if negb (dev (sys s) p =? dev (sys s) q) then Some (false, s)
           else
             match m !! p with
             | None | Some Dir => Some (false, s)
             | Some n =>
                 if bool_decide (p = q ∨ (is_Some (node_ino n)
                                          ∧ m !! q = Some n))
                 then Some (true, s)
                 else if is_dir (m !! q) then Some (false, s)
                 else Some (true,
                            with_fs (Disk (<[q := n]> (delete p m))
                                          (blobs (fs s))) s)
             end
       | _, _ => Some (false, s)
       end.

(** [gzFile]: the archive is represented by the bytes handed to [gzwrite]
    (what [gzread] gives back); the deflate coding, with the header and
    the trailer it puts around them, is not modelled. *)
Definition gzopen_wb (p : string) : M (option FILE) := open_trunc p.
Definition gzwrite (tarfile : FILE) (buffer : list byte) : M (nat * FILE) :=
  fwrite buffer tarfile.
Definition gzclose (tarfile : FILE) : M unit := fclose tarfile.

(** [readdir]: the names in the directory at [d], without [.] and [..]; a
    directory lists its entries by [rank], and by name where ranks are
    equal. *)
Definition child_name (d : path) (p : path) : option string :=
  match unsnoc p with
  | Some (d', n) => if decide (d' = d) then Some n else None
  | None => None
  end.

Definition entry_le (e : env) (d : path) (a b : string) : Prop :=
  rank e (d ++ [a]) < rank e (d ++ [b])
  ∨ (rank e (d ++ [a]) = rank e (d ++ [b]) ∧ String.leb a b = true).

#[global] Instance entry_le_dec e d a b : Decision (entry_le e d a b).
Proof. unfold entry_le. apply _. Defined.

Definition readdir (e : env) (m : gmap path node) (d : path) : list string :=
  merge_sort (entry_le e d)
    (filter plain (omap (child_name d) (elements (dom m)))).

(** [opendir] with the entries the stream will give; it fails on a
    directory that cannot be read. *)
Definition opendir (p : string) : M (option (list string)) :=
  gets (λ s, let m := tree (fs s) in
             match resolve (sys s) m p with
             | Ok c =>
                 if is_dir (m !! c) && negb (faulty (sys s) c)
                 then Some (readdir (sys s) m c)
                 else None
             | Fail _ => None
             end).

(** [nftw(root, fn, 20, FTW_PHYS)], a physical pre-order walk, as the GNU
    C library does it.  The slashes at the end of [root] are dropped.  Each
    entry is classified by [lstat] when it is reached: an entry that is
    not there is handed over as [FTW_NS], another failure ends the walk
    with [-1], as does a directory that cannot be opened ([FTW_DNR], for
    a directory without read permission, does not arise: permissions are
    outside the model).  The path of an
    entry is the path of its directory, a slash unless that path ends in
    one, and its name.  A non-zero result of [fn] ends the walk and is the
    result of [nftw].  The entries of a directory are those it has when it
    is opened.  The bound of 20 open descriptors changes nothing that is
    observed here.  [fuel] bounds the depth. *)
Definition callback := string → ftw_flag → FTW → M Z.

Definition classify (n : node) : ftw_flag :=
  match n with
  | File _ => FTW_F
  | Dir => FTW_D
  | Symlink _ => FTW_SL
  end.

Definition strip_slashes (s : string) : string :=
  match s with
  | EmptyString => ""
  | String c rest => String c (rstrip rest)
  end.

Definition child_path (dir n : string) : string :=
  if ends_with_slash dir then dir +:+ n else dir +:+ "/" +:+ n.

Definition child_base (dir : string) : nat :=
  if ends_with_slash dir then String.length dir else S (String.length dir).

Definition root_base (dir : string) : nat :=
  String.length dir - String.length (List.last (split dir) "").

Definition visit (fn : callback) (fpath : string) (flag : ftw_flag)
    (ftwbuf : FTW) : M Z :=
  run note (Visit fpath flag);
  fn fpath flag ftwbuf.

(** The loop over the names of a directory; [enter] walks one entry. *)
Fixpoint each_child (enter : string → M Z) (names : list string) : M Z :=
  match names with
  | [] => ret 0%Z
  | n :: names' =>
      do r <- enter n;
      if (r =? 0)%Z then each_child enter names' else ret r
  end.

Fixpoint walk (fuel : nat) (fn : callback) (fpath : string) (ftwbuf : FTW)
  : M Z :=
  match fuel with
  | O => out_of_fuel
  | S fuel' =>
      do st <- lstat fpath;
      match st with
      | Ok Dir =>
          do dir <- opendir fpath;
          match dir with
          | None => ret (-1)%Z
          | Some names =>
              do r <- visit fn fpath FTW_D ftwbuf;
              if (r =? 0)%Z then
                each_child
                  (λ n, walk fuel' fn (child_path fpath n)
                          (mkFTW (child_base fpath) (S (level ftwbuf))))
                  names
              else ret r
          end
      | Ok n => visit fn fpath (classify n) ftwbuf
      | Fail ENOENT => visit fn fpath FTW_NS ftwbuf
      | Fail _ => ret (-1)%Z
      end
  end.

Definition nftw (fuel : nat) (root : string) (fn : callback) : M Z :=
  let dirbuf := strip_slashes root in
  do st <- lstat dirbuf;
  match st with
  | Fail _ => ret (-1)%Z
  | Ok _ => walk fuel fn dirbuf (mkFTW (root_base dirbuf) 0)
  end.

(** ** The program *)

(** [directory_exists]: 1 when [stat] succeeds on a directory, else 0. *)
Definition directory_exists (p : string) : M Z :=
  do st <- stat p;
  match st with
  | Ok Dir => ret 1%Z
  | _ => ret 0%Z
  end.

(** The read/write loop of the copy branch: [true] when the source was
    exhausted and [false] after a short write, with the destination
    stream as the loop left it. *)
Fixpoint copy_loop (fuel : nat) (src_file dest_file : FILE)
  : M (bool * FILE) :=
  match fuel with
  | O => out_of_fuel
  | S fuel' =>
      do '(buffer, src_file') <- fread 1024 src_file;
      let bytes_read := length buffer in
      if 0 <? bytes_read then
        do '(written, dest_file') <- fwrite buffer dest_file;
        if negb (written =? bytes_read) then
          run perror "fwrite";
          run fclose src_file';
          run fclose dest_file';
          ret (false, dest_file')
        else copy_loop fuel' src_file' dest_file'
      else ret (true, dest_file)
  end.

(** [copy_or_move_file].  [operation] is not [NULL] where it is called. *)
Definition copy_or_move_file (fuel : nat) (g : globals)
    (src_path dest_path : string) : M unit :=
  run note (Transfer src_path dest_path);
  match operation g with
  | None => ret tt
  | Some op =>
      if (strcmp op "-cp" =? 0)%Z then
        do src_file <- fopen_rb src_path;
        match src_file with
        | None => perror "fopen source file"
        | Some src_file =>
            do dest_file <- fopen_wb dest_path;
            match dest_file with
            | None =>
                run perror "fopen destination file";
                fclose src_file
            | Some dest_file =>
                do '(done, dest_file') <- copy_loop fuel src_file dest_file;
                if done then
                  run fclose src_file;
                  run fclose dest_file';
                  run printf "Search Successful";
                  printf "File copied to the storageDir"
                else ret tt
            end
        end
      else if (strcmp op "-mv" =? 0)%Z then
        do renamed <- rename src_path dest_path;
        if negb renamed then perror "rename"
        else
          run printf "Search Successful";
          printf "File moved to the storageDir"
      else ret tt
  end.

(** [search_and_process], the callback of the two locate modes. *)
Definition search_and_process (fuel : nat) (g : globals) : callback :=
  λ fpath typeflag ftwbuf,
  if bool_decide (typeflag = FTW_F)
     && (strcmp (from_base fpath ftwbuf) (enteredFileName g) =? 0)%Z
  then
    run modify (with_found (Some fpath));
    run note (Found fpath);
    match operation g with
    | Some _ =>
        let dest_path := slash_join (storageDir g) (enteredFileName g) in
        do exists_ <- directory_exists (storageDir g);
        if (exists_ =? 0)%Z then
          run printf "Search Successful: Invalid storageDir";
          ret 1%Z
        else
          run copy_or_move_file fuel g fpath dest_path;
          ret 0%Z
    | None =>
        run printf fpath;
        ret 0%Z
    end
  else ret 0%Z.

(** The read/write loop of [add_file_to_tar]. *)
Fixpoint tar_loop (fuel : nat) (file tarfile : FILE) : M (bool * FILE) :=
  match fuel with
  | O => out_of_fuel
  | S fuel' =>
      do '(buffer, file') <- fread 1024 file;
      let bytes_read := length buffer in
      if 0 <? bytes_read then
        do '(written, tarfile') <- gzwrite tarfile buffer;
        if negb (written =? bytes_read) then
          run eprintf "Error writing to tar file";
          run fclose file';
          ret (false, tarfile')
        else tar_loop fuel' file' tarfile'
      else ret (true, tarfile)
  end.

(** [add_file_to_tar]: opens [dir_path/filename]; both branches taken when
    the open fails return without a message.  The result is the archive
    stream as the function left it. *)
Definition add_file_to_tar (fuel : nat) (dir_path filename : string)
    (tarfile : FILE) : M FILE :=
  let filepath := slash_join dir_path filename in
  do file <- fopen_rb filepath;
  match file with
  | None => ret tarfile
  | Some file =>
      do '(done, tarfile') <- tar_loop fuel file tarfile;
      if done then
        run fclose file;
        ret tarfile'
      else ret tarfile'
  end.

(** [search_and_create_tar], the callback of the archive mode. *)
Definition search_and_create_tar (fuel : nat) (g : globals) : callback :=
  λ fpath typeflag ftwbuf,
  if bool_decide (typeflag = FTW_F)
     && bool_decide (strstr (from_base fpath ftwbuf) (extension g) ≠ None)
  then
    run printf fpath;
    let tarfilename := slash_join (storageDir g) "a1.tar" in
    do tarfile <- gzopen_wb tarfilename;
    match tarfile with
    | None =>
        run perror "gzopen";
        ret 1%Z
    | Some tarfile =>
        do tarfile' <- add_file_to_tar fuel fpath (from_base fpath ftwbuf)
                         tarfile;
        run gzclose tarfile';
        ret 0%Z
    end
  else ret 0%Z.

(** What follows the walk in the two locate modes. *)
Definition report_unless_found : M unit :=
  do found <- gets found_file;
  match found with
  | None => printf "Search Unsuccessful"
  | Some _ => ret tt
  end.

(** [main]; [argv] includes the program name, so [argc] is its length.
    [directory_exists] changes nothing, so the archive mode, which calls it
    again to choose its messages, is given the two results once. *)
Definition main (fuel : nat) (argv : list string) : M Z :=
  match argv with
  | [_; a1; a2] =>
      let g := Globals a2 a1 "" None "" in
      do root_ok <- directory_exists (rootDir g);
      if (root_ok =? 0)%Z then
        run eprintf "Invalid rootDir";
        ret 1%Z
      else
        do r <- nftw fuel (rootDir g) (search_and_process fuel g);
        if (r =? -1)%Z then
          run perror "nftw";
          ret 1%Z
        else
          run report_unless_found;
          ret 0%Z
  | [_; a1; a2; a3; a4] =>
      let g := Globals a4 a1 a2 (Some a3) "" in
      do root_ok <- directory_exists (rootDir g);
      if (root_ok =? 0)%Z then
        run eprintf "Invalid rootDir";
        ret 1%Z
      else if negb (strcmp a3 "-cp" =? 0)%Z && negb (strcmp a3 "-mv" =? 0)%Z
      then
        run eprintf "Invalid operation";
        ret 1%Z
      else
        do r <- nftw fuel (rootDir g) (search_and_process fuel g);
        if (r =? -1)%Z then
          run perror "nftw";
          ret 1%Z
        else
          run report_unless_found;
          ret 0%Z
  | [_; a1; a2; a3] =>
      let g := Globals "" a1 a2 None a3 in
      do root_ok <- directory_exists (rootDir g);
      do storage_ok <- directory_exists (storageDir g);
      if (root_ok =? 0)%Z || (storage_ok =? 0)%Z then
        run (if (root_ok =? 0)%Z then eprintf "Invalid rootDir" else ret tt);
        run (if (storage_ok =? 0)%Z
             then printf "Search Successful: Invalid storageDir" else ret tt);
        ret 1%Z
      else
        do r <- nftw fuel (rootDir g) (search_and_create_tar fuel g);
        if (r =? -1)%Z then
          run perror "nftw";
          ret 1%Z
        else ret 0%Z
  | _ =>
      run eprintf "Invalid number of arguments";
      ret 1%Z
  end.

(** ** Sample runs *)

Definition bytes_of (s : string) : list byte := String.list_byte_of_string s.

(** Making a file system entry by entry. *)
Definition root_disk : disk := Disk {[ [] := Dir ]} ∅.
Definition mkdir (p : path) (d : disk) : disk :=
  Disk (<[p := Dir]> (tree d)) (blobs d).
Definition mkfile (p : path) (data : string) (d : disk) : disk :=
  let i := fresh_ino d in
  Disk (<[p := File i]> (tree d)) (<[i := bytes_of data]> (blobs d)).
Definition symlink (p : path) (target : string) (d : disk) : disk :=
  Disk (<[p := Symlink target]> (tree d)) (blobs d).
(** A second link to the inode of [p]. *)
Definition link (p q : path) (d : disk) : disk :=
  match tree d !! p with
  | Some (File i) => Disk (<[q := File i]> (tree d)) (blobs d)
  | _ => d
  end.

(** The working directory is the root directory, there is one device,
    buffers hold 4096 bytes, directories list their entries by name and
    can all be read. *)
Definition plain_env : env :=
  Env [] (λ _, 0) 4096 (λ _, 0) (λ _, false).

(** [r/a.log], [r/b.log], [r/c.txt] and an empty directory [store]. *)
Definition logs_tree : disk :=
  mkfile ["r"; "c.txt"] "CCC"
    (mkfile ["r"; "b.log"] "BBB"
       (mkfile ["r"; "a.log"] "AAA"
          (mkdir ["store"] (mkdir ["r"] root_disk)))).

(** [r/d1/a.txt] and [r/d2/a.txt], two files of one name, and [store]. *)
Definition twins_tree : disk :=
  mkfile ["r"; "d2"; "a.txt"] "two"
    (mkfile ["r"; "d1"; "a.txt"] "one"
       (mkdir ["r"; "d2"] (mkdir ["r"; "d1"]
          (mkdir ["store"] (mkdir ["r"] root_disk))))).

(** [r/readme.logfile], whose name holds [.log] in the middle. *)
Definition readme_tree : disk :=
  mkfile ["r"; "readme.logfile"] "read me"
    (mkdir ["store"] (mkdir ["r"] root_disk)).

Definition run_main (argv : list string) (f : disk) :=
  main 8 argv (boot f 4096 plain_env).

(** [store] mounted from a second device. *)
Definition store_mounted : env :=
  Env [] (λ p, if bool_decide (["store"] `prefix_of` p) then 1 else 0)
      4096 (λ _, 0) (λ _, false).

(** [logs_tree] with a file [store/b.log] already there. *)
Definition logs_tree_stored : disk :=
  mkfile ["store"; "b.log"] "old bytes" logs_tree.

(** ** Vocabulary of the properties *)

(** The base name of a path name: its final component. *)
Definition basename (p : string) : string := List.last (split p) "".

(** The name of the entry at a place. *)
Definition leaf (p : path) : string := default "" (last p).

(** [pattern] occurs somewhere in [name]. *)
Definition contains (pattern name : string) : Prop :=
  ∃ u v, name = u +:+ pattern +:+ v.

(** The length of the longest place of a file system, which bounds the
    depth of every walk over it. *)
Definition deep (m : gmap path node) : nat :=
  max_list (length <$> elements (dom m)).

(** No regular file at or below [root] has a name with property [φ]. *)
Definition no_file_below (m : gmap path node) (root : path)
    (φ : string → Prop) : Prop :=
  map_Forall (λ p n, root `prefix_of` p → classify n = FTW_F →
                     ¬ φ (leaf p)) m.

(** [s'] comes after [s]: output and history were only added to, and the
    environment is the same. *)
Definition extends (s s' : state) : Prop :=
  (∃ o, out s' = out s ++ o) ∧ (∃ h, hist s' = hist s ++ h)
  ∧ sys s' = sys s.

Definition append_only {A} (m : M A) : Prop :=
  ∀ s a s', m s = Some (a, s') → extends s s'.

(** The line printed when the storage directory is found missing. *)
Definition invalid_storage : output :=
  Stdout "Search Successful: Invalid storageDir".

(** The lines [copy_or_move_file] prints when it succeeded. *)
Definition copied : list output :=
  [Stdout "Search Successful"; Stdout "File copied to the storageDir"].
Definition moved : list output :=
  [Stdout "Search Successful"; Stdout "File moved to the storageDir"].

Definition is_found (e : step) : bool :=
  match e with Found _ => true | _ => false end.
Definition is_transfer (e : step) : bool :=
  match e with Transfer _ _ => true | _ => false end.

(** The path name [nftw] hands over for the entry that is reached from
    the start of the walk, spelled [top], by the names [rel]. *)
Definition spell (top : string) (rel : list string) : string :=
  fold_left child_path rel top.

(** The components of [top] that the paths below it start with. *)
Definition top_comps (top : string) : list string :=
  if ends_with_slash top then removelast (split top) else split top.

(** Two trees with the same directories and the same links: they differ in
    regular files only, and path names lead to the same places in both. *)
Definition same_skeleton (m m' : gmap path node) : Prop :=
  ∀ p, (m !! p = Some Dir ↔ m' !! p = Some Dir)
       ∧ (∀ t, m !! p = Some (Symlink t) ↔ m' !! p = Some (Symlink t)).

(** [p] is the only regular file at or below [root] named [name]. *)
Definition only_match (m : gmap path node) (root : path) (name : string)
    (p : path) : Prop :=
  map_Forall (λ q n, root `prefix_of` q → classify n = FTW_F →
                     leaf q = name → q = p) m.

(** The bytes [fopen(p, "rb")] would read in state [s]. *)
Definition file_data (s : state) (p : string) : list byte :=
  match resolve (sys s) (tree (fs s)) p with
  | Ok c => default [] (content (fs s) c)
  | Fail _ => []
  end.

(** Whether [directory_exists] finds a directory at a path name. *)
Definition dir_at (e : env) (m : gmap path node) (p : string) : bool :=
  match stat_in e m p with
  | Ok Dir => true
  | _ => false
  end.

(** The [typeflag] of the entry at a place. *)
Definition flag_at (m : gmap path node) (c : path) : ftw_flag :=
  match m !! c with
  | Some n => classify n
  | None => FTW_NS
  end.

(** The names [rel] lead from the directory at [root] through directories. *)
Definition leads (m : gmap path node) (root : path) (rel : list string)
  : Prop :=
  Forall plain rel
  ∧ ∀ k, k < length rel → m !! (root ++ take k rel) = Some Dir.

(** The walk has handed the path name [fpath] to the callback. *)
Definition visited (fpath : string) (s : state) : Prop :=
  ∃ flag, Visit fpath flag ∈ hist s.

(** Nothing at or below the entry that [rel] leads to from [top] has been
    handed to the callback. *)
Definition unvisited (top : string) (rel : list string) (s : state) : Prop :=
  ∀ rel' flag, Forall plain rel' → rel `prefix_of` rel' →
               Visit (spell top rel') flag ∉ hist s.

(** What was handed to the callback between [s] and [s'] is at or below
    the entry that [rel] leads to from [top]. *)
Definition visits_within (top : string) (rel : list string) (s s' : state)
  : Prop :=
  ∀ q flag, Visit q flag ∈ hist s' →
            Visit q flag ∈ hist s
            ∨ ∃ rel', Forall plain rel' ∧ rel `prefix_of` rel'
                      ∧ q = spell top rel'.

(** Between [s] and [s'] only the file system and the room on the device
    changed. *)
Definition disk_only (s s' : state) : Prop :=
  sys s' = sys s ∧ found_file s' = found_file s
  ∧ out s' = out s ∧ hist s' = hist s.

(** Between [s] and [s'] no entry changed, and no bytes of a file other
    than the one a stream on [o] writes to. *)
Definition touched (o : option ino) (s s' : state) : Prop :=
  disk_only s s' ∧ tree (fs s') = tree (fs s)
  ∧ ∀ k, o ≠ Some k → blob (fs s') k = blob (fs s) k.

(** Between [s] and [s'] the bytes [bytes] were added to the file with
    inode [j], and nothing else happened. *)
Definition wrote (j : ino) (bytes : list byte) (s s' : state) : Prop :=
  touched (Some j) s s'
  ∧ blob (fs s') j = blob (fs s) j ++ bytes
  ∧ free s' + length bytes = free s.

(** The bytes a stream reads from. *)
Definition stream_data (s : state) (stream : FILE) : list byte :=
  match f_ino stream with
  | Some i => blob (fs s) i
  | None => []
  end.

(** Whether [fopen(p, "rb")] gives a stream: [p] leads to a regular file
    or to a directory. *)
Definition can_read (e : env) (m : gmap path node) (p : string) : bool :=
  match resolve e m p with
  | Ok c => match m !! c with
            | Some (File _) | Some Dir => true
            | _ => false
            end
  | Fail _ => false
  end.

(** Whether [fopen(p, "wb")] gives a stream: [p] leads to a regular file,
    or to a place in a directory where nothing is. *)
Definition can_write (e : env) (m : gmap path node) (p : string) : bool :=
  match resolve e m p with
  | Ok c => match m !! c with
            | Some (File _) | None => true
            | _ => false
            end
  | Fail _ => false
  end.

(** [o] is the line with the path name, as the walk from [top] spells it,
    of a regular file below the directory at [rp] whose name has the
    property [φ]. *)
Definition match_line (m : gmap path node) (top : string) (rp : path)
    (φ : string → Prop) (o : output) : Prop :=
  ∃ rel i, leads m rp rel ∧ m !! (rp ++ rel) = Some (File i)
           ∧ φ (leaf rel) ∧ o = Stdout (spell top rel).

(** What the states of an archive run on the disk [f] have in common, when
    the archive is named [tar]: the skeleton of the tree is that of [f],
    only the entry [tar] leads to can have changed, an entry that is new
    is a regular file, and no file has got bytes. *)
Definition archive_state (e : env) (f : disk) (tar : string) (s : state)
  : Prop :=
  sys s = e
  ∧ same_skeleton (tree f) (tree (fs s))
  ∧ (∀ c, resolve e (tree f) tar ≠ Ok c → tree (fs s) !! c = tree f !! c)
  ∧ (∀ c, tree (fs s) !! c = tree f !! c
          ∨ (tree f !! c = None ∧ ∃ j, tree (fs s) !! c = Some (File j)))
  ∧ (∀ k, blob (fs s) k = blob f k ∨ blob (fs s) k = []).

(** * Lemmas *)

(** ** Strings and path names *)

Lemma strcmp_0 a b : (strcmp a b =? 0)%Z = true ↔ a = b.
Proof.
  unfold strcmp. split.
  - intros H. apply String.compare_eq_iff.
    by destruct (String.compare a b).
  - intros <-. pose proof (String.compare_antisym a a) as Ha.
    by destruct (String.compare a a).
Qed.

Lemma strcmp_refl a : (strcmp a a =? 0)%Z = true.
Proof. by apply strcmp_0. Qed.

Lemma append_cons c a b : String c a +:+ b = String c (a +:+ b).
Proof. reflexivity. Qed.

Lemma append_empty a : "" +:+ a = a.
Proof. reflexivity. Qed.

Lemma append_empty_r a : a +:+ "" = a.
Proof. induction a as [|c a IH]; [done|]. by rewrite append_cons, IH. Qed.

Lemma append_assoc a b c : (a +:+ b) +:+ c = a +:+ (b +:+ c).
Proof.
  induction a as [|x a IH]; [done|]. by rewrite !append_cons, IH.
Qed.

Lemma length_append a b :
  String.length (a +:+ b) = String.length a + String.length b.
Proof.
  induction a as [|x a IH]; [done|]. rewrite append_cons. simpl. by rewrite IH.
Qed.

Lemma prefix_spec n h : String.prefix n h = true ↔ ∃ v, h = n +:+ v.
Proof.
  revert h. induction n as [|c n IH]; intros [|c' h]; simpl.
  - split; [intros _; by exists "" | done].
  - split; [intros _; by exists (String c' h) | done].
  - split; [done | intros [v Hv]; discriminate].
  - destruct (ascii_dec c c') as [->|Hne].
    + rewrite IH. split; intros [v Hv]; exists v;
        rewrite append_cons in *; congruence.
    + split; [done | intros [v Hv]; rewrite append_cons in Hv; congruence].
Qed.

Lemma strstr_eq h n :
  strstr h n =
  if String.prefix n h then Some h
  else match h with
       | EmptyString => None
       | String _ rest => strstr rest n
       end.
Proof. by destruct h. Qed.

Lemma strstr_contains h n : strstr h n ≠ None ↔ contains n h.
Proof.
  induction h as [|c h IH]; rewrite strstr_eq;
    destruct (String.prefix n _) eqn:Hp.
  - split; [intros _ | by intros _ [=]].
    apply prefix_spec in Hp as [v Hv]. by exists "", v.
  - split; [done | intros (u & v & Huv)].
    destruct u; [|discriminate]. rewrite append_empty in Huv.
    assert (String.prefix n "" = true) by (apply prefix_spec; eauto).
    congruence.
  - split; [intros _ | by intros _ [=]].
    apply prefix_spec in Hp as [v Hv]. by exists "", v.
  - rewrite IH. split.
    + intros (u & v & ->). by exists (String c u), v.
    + intros (u & v & Huv). destruct u as [|c' u].
      { rewrite append_empty in Huv.
        assert (String.prefix n (String c h) = true)
          by (apply prefix_spec; eauto). congruence. }
      rewrite append_cons in Huv. injection Huv as -> ->. by exists u, v.
Qed.

Lemma sdrop_append a b : sdrop (String.length a) (a +:+ b) = b.
Proof. induction a as [|c a IH]; [by destruct b|]. by rewrite append_cons. Qed.

Lemma split_cons c s :
  split (String c s) =
  if Ascii.eqb c "/" then "" :: split s
  else match split s with
       | x :: xs => String c x :: xs
       | [] => [String c ""]
       end.
Proof. reflexivity. Qed.

Lemma split_not_nil s : split s ≠ [].
Proof.
  induction s as [|c s IH]; [done|]. rewrite split_cons.
  destruct (Ascii.eqb c "/"); [done|]. by destruct (split s).
Qed.

(** The components of [a/b] are those of [a] and those of [b]. *)
Lemma split_slash_join a b : split (slash_join a b) = split a ++ split b.
Proof.
  unfold slash_join. induction a as [|c a IH].
  - by rewrite append_empty.
  - rewrite append_cons, !split_cons, IH.
    destruct (Ascii.eqb c "/"); [done|].
    pose proof (split_not_nil a). by destruct (split a).
Qed.

Lemma ends_with_slash_cons c s :
  s ≠ "" → ends_with_slash (String c s) = ends_with_slash s.
Proof. by destruct s. Qed.

Lemma ends_with_slash_spec s :
  ends_with_slash s = true ↔ ∃ q, s = q +:+ "/".
Proof.
  induction s as [|c s IH].
  - split; [done|]. intros [[|??] ?]; discriminate.
  - destruct s as [|c' s].
    + simpl. split.
      * intros ->%Ascii.eqb_eq. by exists "".
      * intros [q Hq]. destruct q as [|x q]; simpl in Hq.
        { by injection Hq as ->. }
        injection Hq as _ Hq. by destruct q.
    + rewrite ends_with_slash_cons, IH by done. split.
      * intros [q ->]. by exists (String c q).
      * intros [[|x q] Hq]; [discriminate|].
        rewrite append_cons in Hq. injection Hq as -> ->. by exists q.
Qed.

Lemma split_trailing_slash q : split (q +:+ "/") = split q ++ [""].
Proof.
  pose proof (split_slash_join q "") as H. unfold slash_join in H.
  by rewrite append_empty_r in H.
Qed.


(** A path name that ends in a plain name does not end in a slash. *)
Lemma ends_with_slash_last s :
  ends_with_slash s = true → List.last (split s) "" = "".
Proof.
  intros [q ->]%ends_with_slash_spec.
  by rewrite split_trailing_slash, last_last.
Qed.

Lemma plain_split n : plain n → split n = [n].
Proof. by intros (_ & _ & _ & ?). Qed.

Lemma plain_not_dot n : plain n → dotlike n = false ∧ n ≠ "..".
Proof.
  intros (He & Hd & ? & _). split; [|done].
  apply bool_decide_eq_false. by intros [|].
Qed.

Lemma absolute_append a b : a ≠ "" → absolute (a +:+ b) = absolute a.
Proof. by destruct a. Qed.

(** ** The path names of a walk *)

Lemma Forall_snoc_inv {A} (P : A → Prop) (l : list A) (x : A) :
  Forall P (l ++ [x]) → Forall P l ∧ P x.
Proof. rewrite Forall_app, Forall_singleton. tauto. Qed.

Lemma spell_snoc top rel n :
  spell top (rel ++ [n]) = child_path (spell top rel) n.
Proof. unfold spell. by rewrite fold_left_app. Qed.

Lemma child_path_join dir n :
  ends_with_slash dir = false → child_path dir n = slash_join dir n.
Proof. unfold child_path. by intros ->. Qed.

Lemma split_child_path dir n :
  plain n → split (child_path dir n) = top_comps dir ++ [n].
Proof.
  intros Hn. unfold child_path, top_comps.
  destruct (ends_with_slash dir) eqn:Hdir.
  - apply ends_with_slash_spec in Hdir as [q ->].
    rewrite split_trailing_slash, removelast_last, append_assoc.
    pose proof (split_slash_join q n) as H. unfold slash_join in H.
    by rewrite H, (plain_split n).
  - pose proof (split_slash_join dir n) as H. unfold slash_join in H.
    by rewrite H, (plain_split n).
Qed.

Lemma child_path_no_slash dir n :
  plain n → ends_with_slash (child_path dir n) = false.
Proof.
  intros Hn. apply not_true_is_false. intros Hs%ends_with_slash_last.
  rewrite split_child_path, last_last in Hs by done.
  by destruct Hn.
Qed.

Lemma child_path_not_empty dir n : plain n → child_path dir n ≠ "".
Proof.
  intros Hn He. apply (f_equal split) in He.
  rewrite split_child_path in He by done. simpl in He.
  destruct (top_comps dir) as [|? [|??]]; simplify_eq/=. by destruct Hn.
Qed.

Lemma spell_no_slash top rel :
  Forall plain rel → rel ≠ [] → ends_with_slash (spell top rel) = false.
Proof.
  destruct rel as [|n rel _] using rev_ind; [done|].
  intros [_ Hn]%Forall_snoc_inv _.
  rewrite spell_snoc. by apply child_path_no_slash.
Qed.

Lemma top_comps_spell top rel :
  Forall plain rel → rel ≠ [] → top_comps (spell top rel) = split (spell top rel).
Proof. intros. unfold top_comps. by rewrite spell_no_slash. Qed.

(** A path below [top] has the components of [top] and then the names that
    lead to the entry. *)
Lemma split_spell top rel :
  Forall plain rel → rel ≠ [] →
  split (spell top rel) = top_comps top ++ rel.
Proof.
  induction rel as [|n rel IH] using rev_ind; [done|].
  intros [Hrel Hn]%Forall_snoc_inv _.
  rewrite spell_snoc, split_child_path by done.
  destruct (decide (rel = [])) as [->|Hne]; [done|].
  by rewrite top_comps_spell, IH, app_assoc.
Qed.

Lemma spell_not_empty top rel : top ≠ "" → Forall plain rel → spell top rel ≠ "".
Proof.
  intros Htop. destruct rel as [|n rel _] using rev_ind; [done|].
  intros [_ Hn]%Forall_snoc_inv.
  rewrite spell_snoc. by apply child_path_not_empty.
Qed.

Lemma absolute_child_path dir n :
  dir ≠ "" → absolute (child_path dir n) = absolute dir.
Proof.
  intros. unfold child_path.
  destruct (ends_with_slash dir); by rewrite absolute_append.
Qed.

Lemma absolute_spell top rel :
  top ≠ "" → Forall plain rel → absolute (spell top rel) = absolute top.
Proof.
  intros Htop. induction rel as [|n rel IH] using rev_ind; [done|].
  intros [Hrel Hn]%Forall_snoc_inv.
  rewrite spell_snoc, absolute_child_path; [by apply IH|].
  by apply spell_not_empty.
Qed.

(** Different entries have different path names. *)
Lemma spell_inj top rel rel' :
  Forall plain rel → Forall plain rel' →
  spell top rel = spell top rel' → rel = rel'.
Proof.
  intros Hrel Hrel' Heq.
  destruct (decide (rel = [])) as [->|Hne], (decide (rel' = [])) as [->|Hne'];
    [done|..].
  - apply (f_equal split) in Heq. rewrite (split_spell top rel') in Heq by done.
    exfalso. unfold spell, top_comps in Heq. simpl in Heq.
    destruct (ends_with_slash top) eqn:Hs.
    + apply ends_with_slash_spec in Hs as [q ->].
      rewrite split_trailing_slash, removelast_last in Heq.
      apply (f_equal (λ l, List.last l "")) in Heq.
      rewrite last_last in Heq.
      destruct rel' as [|n rel' _] using rev_ind; [done|].
      rewrite app_assoc, last_last in Heq.
      apply Forall_snoc_inv in Hrel' as [_ Hn].
      by destruct Hn.
    + apply (f_equal length) in Heq. rewrite length_app in Heq.
      destruct rel'; [done|]. simpl in Heq. lia.
  - apply (f_equal split) in Heq. rewrite (split_spell top rel) in Heq by done.
    exfalso. unfold spell, top_comps in Heq. simpl in Heq.
    destruct (ends_with_slash top) eqn:Hs.
    + apply ends_with_slash_spec in Hs as [q ->].
      rewrite split_trailing_slash, removelast_last in Heq.
      apply (f_equal (λ l, List.last l "")) in Heq.
      rewrite last_last in Heq.
      destruct rel as [|n rel _] using rev_ind; [done|].
      rewrite app_assoc, last_last in Heq.
      apply Forall_snoc_inv in Hrel as [_ Hn].
      by destruct Hn.
    + apply (f_equal length) in Heq. rewrite length_app in Heq.
      destruct rel; [done|]. simpl in Heq. lia.
  - apply (f_equal split) in Heq. rewrite !split_spell in Heq by done.
    by apply app_inv_head in Heq.
Qed.

(** [fpath + base] is the name of the entry. *)
Lemma from_base_child dir n lvl :
  from_base (child_path dir n) (mkFTW (child_base dir) lvl) = n.
Proof.
  unfold from_base, child_path, child_base; simpl.
  destruct (ends_with_slash dir).
  - apply sdrop_append.
  - rewrite <- append_assoc.
    replace (S (String.length dir)) with (String.length (dir +:+ "/")).
    + apply sdrop_append.
    + rewrite length_append. simpl. lia.
Qed.

Lemma basename_child dir n : plain n → basename (child_path dir n) = n.
Proof.
  intros. unfold basename. by rewrite split_child_path, last_last.
Qed.

(** ** The file system *)

Lemma unsnoc_snoc d n : unsnoc (d ++ [n]) = Some (d, n).
Proof. induction d as [|x d IH]; simpl; [done | by rewrite IH]. Qed.

Lemma unsnoc_Some p d n : unsnoc p = Some (d, n) → p = d ++ [n].
Proof.
  revert d. induction p as [|x p IH]; intros d; simpl; [done|].
  destruct (unsnoc p) as [[d' l]|] eqn:Hp.
  - intros [= <- <-]. by rewrite (IH d' eq_refl).
  - intros [= <- <-]. destruct p as [|y p]; [done|].
    simpl in Hp. by destruct (unsnoc p) as [[??]|].
Qed.

Lemma leaf_snoc d n : leaf (d ++ [n]) = n.
Proof. unfold leaf. by rewrite last_snoc. Qed.

Lemma deep_bound (m : gmap path node) p : is_Some (m !! p) → length p ≤ deep m.
Proof.
  intros Hp. apply max_list_elem_of_le, list_elem_of_fmap.
  exists p. split; [done|]. by apply elem_of_elements, elem_of_dom.
Qed.

Lemma deep_le (m : gmap path node) D :
  (∀ p, is_Some (m !! p) → length p ≤ D) → deep m ≤ D.
Proof.
  intros Hall. unfold deep.
  destruct (decide (length <$> elements (dom m) = [])) as [->|Hne]; [simpl; lia|].
  apply max_list_elem_of in Hne. apply list_elem_of_fmap in Hne as (p & -> & Hp).
  by apply Hall, elem_of_dom, elem_of_elements.
Qed.

Lemma deep_insert (m : gmap path node) k v :
  deep (<[k := v]> m) ≤ deep m `max` length k.
Proof.
  apply deep_le. intros p. destruct (decide (k = p)) as [->|Hne]; [lia|].
  rewrite lookup_insert_ne by done. intros Hp%deep_bound. lia.
Qed.

Lemma deep_delete (m : gmap path node) k : deep (delete k m) ≤ deep m.
Proof.
  apply deep_le. intros q. destruct (decide (k = q)) as [->|Hne].
  - rewrite lookup_delete_eq. by intros [? [=]].
  - rewrite lookup_delete_ne by done. apply deep_bound.
Qed.

Lemma readdir_spec (e : env) (m : gmap path node) (d : path) (n : string) :
  n ∈ readdir e m d ↔ plain n ∧ is_Some (m !! (d ++ [n])).
Proof.
  unfold readdir.
  rewrite merge_sort_Permutation, list_elem_of_filter, list_elem_of_omap.
  split.
  - intros [Hn (p & Hp & Hc)]. split; [done|].
    apply elem_of_elements, elem_of_dom in Hp.
    unfold child_name in Hc. destruct (unsnoc p) as [[d' n']|] eqn:Hu; [|done].
    case_decide; [|done]. injection Hc as ->. subst d'.
    by apply unsnoc_Some in Hu as ->.
  - intros [Hn Hp]. split; [done|].
    exists (d ++ [n]). split; [by apply elem_of_elements, elem_of_dom|].
    unfold child_name. rewrite unsnoc_snoc. by rewrite decide_True.
Qed.

Lemma NoDup_readdir (e : env) (m : gmap path node) (d : path) : NoDup (readdir e m d).
Proof.
  unfold readdir. rewrite merge_sort_Permutation. apply NoDup_filter.
  assert (Hlist : ∀ l : list path, NoDup l → NoDup (omap (child_name d) l)).
  { induction l as [|p l IH]; simpl; [constructor|].
    intros [Hp Hl]%NoDup_cons. unfold child_name at 1.
    destruct (unsnoc p) as [[d' n]|] eqn:Hu; [|by apply IH].
    case_decide as Hd; [|by apply IH]. subst d'.
    apply unsnoc_Some in Hu as ->. apply NoDup_cons. split; [|by apply IH].
    intros (q & Hq & Hn)%list_elem_of_omap. unfold child_name in Hn.
    destruct (unsnoc q) as [[d' n']|] eqn:Hu; [|done].
    case_decide; [|done]. injection Hn as ->. subst d'.
    by apply unsnoc_Some in Hu as ->. }
  apply Hlist, NoDup_elements.
Qed.

Lemma snoc_prefixes_agree {A} (d q : list A) n n' :
  d ++ [n] `prefix_of` q → d ++ [n'] `prefix_of` q → n = n'.
Proof.
  intros [k1 ->] [k2 Hk]. rewrite <- !app_assoc in Hk.
  apply app_inv_head in Hk. by injection Hk.
Qed.

Lemma same_skeleton_refl (m : gmap path node) : same_skeleton m m.
Proof. by intros p. Qed.

Lemma same_skeleton_sym (m m' : gmap path node) : same_skeleton m m' → same_skeleton m' m.
Proof. intros H p. destruct (H p) as [H1 H2]. split; [done|]. intros t. by rewrite H2. Qed.

Lemma same_skeleton_trans (m1 m2 m3 : gmap path node) :
  same_skeleton m1 m2 → same_skeleton m2 m3 → same_skeleton m1 m3.
Proof.
  intros H12 H23 p. destruct (H12 p) as [A1 A2], (H23 p) as [B1 B2].
  split; [by rewrite A1|]. intros t. by rewrite A2.
Qed.

(** Making, replacing or removing a regular file keeps the skeleton. *)
Lemma same_skeleton_insert_file (m : gmap path node) (c : path) (i : ino) :
  (m !! c = None ∨ ∃ j, m !! c = Some (File j)) →
  same_skeleton m (<[c := File i]> m).
Proof.
  intros Hc p. destruct (decide (c = p)) as [<-|Hne].
  - rewrite lookup_insert_eq.
    destruct Hc as [-> | [j ->]]; split; [|intros t| |intros t]; by split.
  - by rewrite lookup_insert_ne.
Qed.

Lemma same_skeleton_delete_file (m : gmap path node) (c : path) (i : ino) :
  m !! c = Some (File i) → same_skeleton m (delete c m).
Proof.
  intros Hc p. destruct (decide (c = p)) as [<-|Hne].
  - rewrite lookup_delete_eq, Hc. split; [|intros t]; by split.
  - by rewrite lookup_delete_ne.
Qed.

(** ** Path resolution *)

Lemma namei_eq (l : nat) (m : gmap path node) (cur : path)
    (comps : list string) :
  namei l m cur comps =
  match comps with
  | [] => Ok (cur, l)
  | c :: rest =>
      match m !! cur with
      | Some Dir =>
          if dotlike c then namei l m cur rest
          else if decide (c = "..") then namei l m (removelast cur) rest
          else match m !! (cur ++ [c]) with
               | Some (Symlink t) =>
                   if decide (t = "") then Fail ENOENT
                   else match l with
                        | O => Fail ELOOP
                        | S l' => namei l' m (if absolute t then [] else cur)
                                    (split t ++ rest)
                        end
               | _ => namei l m (cur ++ [c]) rest
               end
      | Some _ => Fail ENOTDIR
      | None => Fail ENOENT
      end
  end.
Proof. destruct l, comps; reflexivity. Qed.

(** Resolution along [cs1 ++ cs2] is resolution along [cs1] and, from
    where that leads, along [cs2]. *)
Lemma namei_app (l : nat) (m : gmap path node) (cur : path)
    (cs1 cs2 : list string) :
  namei l m cur (cs1 ++ cs2) =
  match namei l m cur cs1 with
  | Ok (c, l1) => namei l1 m c cs2
  | Fail y => Fail y
  end.
Proof.
  revert cur cs1 cs2. induction l as [|l IHl]; intros cur cs1; revert cur;
    induction cs1 as [|c cs1 IH]; intros cur cs2;
    try (by rewrite (namei_eq _ _ _ [])).
  - rewrite <- app_comm_cons.
    rewrite (namei_eq 0 m cur (c :: cs1 ++ cs2)), (namei_eq 0 m cur (c :: cs1)).
    destruct (m !! cur) as [[]|]; try done.
    destruct (dotlike c); [apply IH|].
    destruct (decide (c = "..")); [apply IH|].
    destruct (m !! (cur ++ [c])) as [[]|]; try apply IH.
    by destruct (decide (target = "")).
  - rewrite <- app_comm_cons.
    rewrite (namei_eq (S l) m cur (c :: cs1 ++ cs2)),
      (namei_eq (S l) m cur (c :: cs1)).
    destruct (m !! cur) as [[]|]; try done.
    destruct (dotlike c); [apply IH|].
    destruct (decide (c = "..")); [apply IH|].
    destruct (m !! (cur ++ [c])) as [[]|]; try apply IH.
    destruct (decide (target = "")); [done|].
    rewrite app_assoc. apply IHl.
Qed.

(** Along plain names through directories, resolution goes where the names
    say. *)
Lemma namei_names (l : nat) (m : gmap path node) (c : path)
    (rel : list string) :
  Forall plain rel →
  (∀ k, k < length rel → m !! (c ++ take k rel) = Some Dir) →
  (∀ t, m !! (c ++ rel) ≠ Some (Symlink t)) →
  namei l m c rel = Ok (c ++ rel, l).
Proof.
  revert c. induction rel as [|n rel IH]; intros c Hplain Hchain Hlast.
  { by rewrite namei_eq, app_nil_r. }
  apply Forall_cons in Hplain as [Hn Hplain].
  destruct (plain_not_dot n Hn) as [Hdot Hdd].
  pose proof (Hchain 0 ltac:(simpl; lia)) as Hc. simpl in Hc.
  rewrite app_nil_r in Hc.
  rewrite namei_eq, Hc, Hdot, decide_False by done.
  assert (Hnext : namei l m (c ++ [n]) rel = Ok (c ++ n :: rel, l)).
  { rewrite (IH (c ++ [n])); [by rewrite <- app_assoc|done|..].
    - intros k Hk. rewrite <- app_assoc. apply (Hchain (S k)). simpl. lia.
    - intros t. rewrite <- app_assoc. apply Hlast. }
  destruct (m !! (c ++ [n])) as [[]|] eqn:Hcn; try done.
  exfalso. destruct rel as [|n' rel].
  - by apply (Hlast target).
  - pose proof (Hchain 1 ltac:(simpl; lia)) as H1. simpl in H1. congruence.
Qed.

Lemma namei_skel (l : nat) (m m' : gmap path node) (cur : path)
    (cs : list string) (r : path * nat) :
  same_skeleton m m' → namei l m cur cs = Ok r → namei l m' cur cs = Ok r.
Proof.
  intros Hsk. revert cur cs. induction l as [|l IHl]; intros cur cs; revert cur;
    induction cs as [|c cs IH]; intros cur;
    try (by rewrite !(namei_eq _ _ _ [])).
  - rewrite (namei_eq 0 m), (namei_eq 0 m').
    destruct (m !! cur) as [[]|] eqn:Hcur; try done.
    apply Hsk in Hcur as ->.
    destruct (dotlike c); [apply IH|].
    destruct (decide (c = "..")); [apply IH|].
    destruct (m !! (cur ++ [c])) as [[]|] eqn:Hc.
    + destruct (m' !! (cur ++ [c])) as [[]|] eqn:Hc'; try apply IH.
      apply Hsk in Hc'. congruence.
    + apply Hsk in Hc as ->. apply IH.
    + apply Hsk in Hc as ->. by destruct (decide (target = "")).
    + destruct (m' !! (cur ++ [c])) as [[]|] eqn:Hc'; try apply IH.
      apply Hsk in Hc'. congruence.
  - rewrite (namei_eq (S l) m), (namei_eq (S l) m').
    destruct (m !! cur) as [[]|] eqn:Hcur; try done.
    apply Hsk in Hcur as ->.
    destruct (dotlike c); [apply IH|].
    destruct (decide (c = "..")); [apply IH|].
    destruct (m !! (cur ++ [c])) as [[]|] eqn:Hc.
    + destruct (m' !! (cur ++ [c])) as [[]|] eqn:Hc'; try apply IH.
      apply Hsk in Hc'. congruence.
    + apply Hsk in Hc as ->. apply IH.
    + apply Hsk in Hc as ->. destruct (decide (target = "")); [done|].
      apply IHl.
    + destruct (m' !! (cur ++ [c])) as [[]|] eqn:Hc'; try apply IH.
      apply Hsk in Hc'. congruence.
Qed.

(** Empty components, as slashes at the end of a path name leave them,
    stay in the directory that was reached. *)
Lemma namei_dots (l : nat) (m : gmap path node) (c : path) (j : nat)
    (r : path * nat) :
  namei l m c (replicate j "") = Ok r → r = (c, l).
Proof.
  induction j as [|j IH]; simpl; rewrite namei_eq; [by intros [= <-]|].
  destruct (m !! c) as [[]|]; done || apply IH.
Qed.

Lemma namei_dots_dir (l : nat) (m : gmap path node) (c : path) (j : nat) :
  m !! c = Some Dir → namei l m c (replicate j "") = Ok (c, l).
Proof.
  intros Hc. induction j as [|j IH]; simpl; rewrite namei_eq; [done|].
  by rewrite Hc.
Qed.

Lemma resolve_skel (e : env) (m m' : gmap path node) (p : string) (c : path) :
  same_skeleton m m' → resolve e m p = Ok c → resolve e m' p = Ok c.
Proof.
  intros Hsk. unfold resolve. destruct (decide (p = "")); [done|].
  destruct (namei _ m _ _) as [[c' l]|] eqn:Hn; [|done].
  intros [= ->]. by rewrite (namei_skel _ _ _ _ _ _ Hsk Hn).
Qed.

Lemma resolve_entry_skel (e : env) (m m' : gmap path node) (p : string)
    (c : path) :
  same_skeleton m m' → resolve_entry e m p = Ok c → resolve_entry e m' p = Ok c.
Proof.
  intros Hsk. unfold resolve_entry. destruct (decide (p = "")); [done|].
  destruct (namei _ m _ _) as [[d l]|] eqn:Hn; [|done].
  rewrite (namei_skel _ _ _ _ _ _ Hsk Hn).
  destruct (dotlike _ || _).
  - destruct (namei l m d _) as [[c' l']|] eqn:Hx; [|done].
    intros [= ->]. by rewrite (namei_skel _ _ _ _ _ _ Hsk Hx).
  - destruct (m !! d) as [[]|] eqn:Hd; try done.
    apply Hsk in Hd as ->. done.
Qed.

Lemma split_rstrip s : ∃ j, split s = split (rstrip s) ++ replicate j "".
Proof.
  induction s as [|c s [j IH]]; [by exists 0|]. simpl rstrip.
  destruct (Ascii.eqb c "/" && bool_decide (rstrip s = "")) eqn:Hc.
  - apply andb_true_iff in Hc as [Hc Hs%bool_decide_eq_true].
    rewrite split_cons, Hc, IH, Hs. by exists (S j).
  - exists j. rewrite !split_cons, IH.
    destruct (Ascii.eqb c "/"); [done|].
    pose proof (split_not_nil (rstrip s)). by destruct (split (rstrip s)).
Qed.

Lemma split_strip_slashes s :
  ∃ j, split s = split (strip_slashes s) ++ replicate j "".
Proof.
  destruct s as [|c s]; [by exists 0|]. simpl strip_slashes.
  destruct (split_rstrip s) as [j IH]. exists j. rewrite !split_cons, IH.
  destruct (Ascii.eqb c "/"); [done|].
  pose proof (split_not_nil (rstrip s)). by destruct (split (rstrip s)).
Qed.

Lemma strip_slashes_not_empty s : s ≠ "" → strip_slashes s ≠ "".
Proof. by destruct s. Qed.

Lemma origin_strip_slashes (e : env) s :
  origin e (strip_slashes s) = origin e s.
Proof. by destruct s. Qed.

(** A path name that leads to a directory names, without the slashes at
    its end, that directory or a link. *)
Lemma strip_slashes_entry (e : env) (m : gmap path node) (root : string) :
  stat_in e m root = Ok Dir →
  ∃ rp, resolve_entry e m (strip_slashes root) = Ok rp
        ∧ (m !! rp = Some Dir ∨ ∃ t, m !! rp = Some (Symlink t)).
Proof.
  unfold stat_in, resolve, resolve_entry.
  destruct (decide (root = "")) as [|Hroot]; [done|].
  rewrite decide_False by by apply strip_slashes_not_empty.
  rewrite origin_strip_slashes.
  destruct (split_strip_slashes root) as [j ->].
  pose proof (app_removelast_last "" (split_not_nil (strip_slashes root)))
    as Hcs.
  set (cs := split (strip_slashes root)) in *.
  rewrite namei_app. rewrite Hcs at 1. rewrite namei_app.
  destruct (namei _ m _ (removelast cs)) as [[d l]|]; [|done].
  destruct (namei l m d [List.last cs ""]) as [[c l1]|] eqn:Hlast; [|done].
  destruct (namei l1 m c (replicate j "")) as [r|] eqn:Hdots; [|done].
  apply namei_dots in Hdots as ->. simpl.
  destruct (m !! c) as [n|] eqn:Hc; [|done]. intros [= ->].
  destruct (dotlike _ || _) eqn:Hdot; [by eauto|].
  apply orb_false_iff in Hdot as [Hdot Hdd%bool_decide_eq_false].
  rewrite namei_eq in Hlast.
  destruct (m !! d) as [[]|]; try done.
  rewrite Hdot, decide_False in Hlast by done.
  destruct (m !! (d ++ [List.last cs ""])) as [[]|] eqn:Hx;
    try (rewrite namei_eq in Hlast; injection Hlast as <- <-; by eauto).
  by eauto.
Qed.

(** ** Where the path names of a walk lead *)

(** The walk starts at [top], which names the directory at [rp]; [m0] is
    the tree at that moment.  Later trees have the same skeleton. *)
Section spelled.
Context (e : env) (m0 : gmap path node) (top : string) (rp : path).
Hypothesis top_entry : resolve_entry e m0 top = Ok rp.
Hypothesis top_dir : m0 !! rp = Some Dir.

Lemma top_not_empty : top ≠ "".
Proof. intros ->. by unfold resolve_entry in top_entry. Qed.

Lemma top_comps_lead :
  ∃ l0, namei MAXSYMLINKS m0 (origin e top) (top_comps top) = Ok (rp, l0).
Proof.
  pose proof top_entry as Htop. unfold resolve_entry in Htop.
  rewrite decide_False in Htop by apply top_not_empty.
  unfold top_comps.
  destruct (namei _ m0 _ (removelast _)) as [[d l]|] eqn:Hparent; [|done].
  destruct (ends_with_slash top) eqn:Hslash.
  - rewrite ends_with_slash_last in Htop by done. simpl in Htop.
    rewrite namei_eq in Htop. destruct (m0 !! d) as [[]|]; try done.
    rewrite namei_eq in Htop. injection Htop as ->. by exists l.
  - rewrite (app_removelast_last "" (split_not_nil top)), namei_app, Hparent.
    destruct (dotlike _ || _) eqn:Hdot.
    + destruct (namei l m0 d _) as [[c l1]|]; [|done].
      injection Htop as ->. by exists l1.
    + apply orb_false_iff in Hdot as [Hdot Hdd%bool_decide_eq_false].
      destruct (m0 !! d) as [[]|] eqn:Hd; try done. injection Htop as <-.
      rewrite namei_eq, Hd, Hdot, decide_False, top_dir by done.
      rewrite namei_eq. by exists l.
Qed.

Lemma namei_top (m : gmap path node) :
  same_skeleton m0 m →
  ∃ l0, namei MAXSYMLINKS m (origin e top) (split top) = Ok (rp, l0).
Proof.
  intros Hsk. destruct top_comps_lead as [l0 Hlead].
  apply (namei_skel _ _ _ _ _ _ Hsk) in Hlead.
  exists l0. unfold top_comps in Hlead.
  destruct (ends_with_slash top) eqn:Hslash; [|done].
  rewrite (app_removelast_last "" (split_not_nil top)), namei_app, Hlead.
  rewrite ends_with_slash_last by done.
  apply (namei_dots_dir _ _ _ 1). by apply Hsk.
Qed.

(** The tree still has the directories on the way to the entry. *)
Lemma chain_skel (m : gmap path node) (rel : list string) :
  same_skeleton m0 m →
  (∀ k, k < length rel → m0 !! (rp ++ take k rel) = Some Dir) →
  ∀ k, k < length rel → m !! (rp ++ take k rel) = Some Dir.
Proof. intros Hsk Hchain k Hk. by apply Hsk, Hchain. Qed.

Lemma namei_below_top (m : gmap path node) (rel : list string) :
  same_skeleton m0 m →
  Forall plain rel →
  (∀ k, k < length rel → m0 !! (rp ++ take k rel) = Some Dir) →
  (∀ t, m !! (rp ++ rel) ≠ Some (Symlink t)) →
  ∃ l0, namei MAXSYMLINKS m (origin e top) (top_comps top ++ rel)
        = Ok (rp ++ rel, l0).
Proof.
  intros Hsk Hplain Hchain Hlast.
  destruct top_comps_lead as [l0 Hlead].
  apply (namei_skel _ _ _ _ _ _ Hsk) in Hlead.
  exists l0. rewrite namei_app, Hlead.
  apply namei_names; [done| |done]. by apply chain_skel.
Qed.

Lemma origin_spell (rel : list string) :
  Forall plain rel → origin e (spell top rel) = origin e top.
Proof.
  intros. unfold origin. by rewrite absolute_spell by (done || apply top_not_empty).
Qed.

Lemma namei_spell (m : gmap path node) (rel : list string) :
  same_skeleton m0 m →
  Forall plain rel →
  (∀ k, k < length rel → m0 !! (rp ++ take k rel) = Some Dir) →
  (∀ t, m !! (rp ++ rel) ≠ Some (Symlink t)) →
  ∃ l0, namei MAXSYMLINKS m (origin e (spell top rel))
          (split (spell top rel)) = Ok (rp ++ rel, l0).
Proof.
  intros Hsk Hplain Hchain Hlast.
  destruct (decide (rel = [])) as [->|Hne].
  { rewrite app_nil_r. by apply namei_top. }
  rewrite origin_spell, split_spell by done.
  by apply namei_below_top.
Qed.

Lemma resolve_spell (m : gmap path node) (rel : list string) :
  same_skeleton m0 m →
  Forall plain rel →
  (∀ k, k < length rel → m0 !! (rp ++ take k rel) = Some Dir) →
  (∀ t, m !! (rp ++ rel) ≠ Some (Symlink t)) →
  resolve e m (spell top rel) = Ok (rp ++ rel).
Proof.
  intros Hsk Hplain Hchain Hlast. unfold resolve.
  rewrite decide_False by (apply spell_not_empty; [apply top_not_empty|done]).
  by destruct (namei_spell m rel Hsk Hplain Hchain Hlast) as [l0 ->].
Qed.

Lemma resolve_entry_spell (m : gmap path node) (rel : list string) :
  same_skeleton m0 m →
  Forall plain rel →
  (∀ k, k < length rel → m0 !! (rp ++ take k rel) = Some Dir) →
  resolve_entry e m (spell top rel) = Ok (rp ++ rel).
Proof.
  intros Hsk Hplain Hchain.
  destruct rel as [|n rel _] using rev_ind.
  { rewrite app_nil_r. by apply (resolve_entry_skel _ _ _ _ _ Hsk). }
  pose proof Hplain as [Hrel Hn]%Forall_snoc_inv.
  destruct (plain_not_dot n Hn) as [Hdot Hdd].
  assert (Hparent : m !! (rp ++ rel) = Some Dir).
  { apply Hsk. specialize (Hchain (length rel)).
    rewrite take_app_length in Hchain. apply Hchain.
    rewrite length_app. simpl. lia. }
  destruct (namei_below_top m rel) as [l0 Hlead]; [done..| |congruence|].
  { intros k Hk. specialize (Hchain k).
    rewrite take_app_le in Hchain by lia. apply Hchain.
    rewrite length_app. simpl. lia. }
  unfold resolve_entry.
  rewrite decide_False by (apply spell_not_empty; [apply top_not_empty|done]).
  rewrite origin_spell, split_spell by (done || by destruct rel).
  rewrite app_assoc, removelast_last, last_last, Hlead, Hdot.
  rewrite bool_decide_eq_false_2 by done. simpl.
  by rewrite Hparent, <- app_assoc.
Qed.

(** What [lstat] finds at a path of the walk is the entry at its place. *)
Lemma lstat_spell (m : gmap path node) (rel : list string) :
  same_skeleton m0 m →
  Forall plain rel →
  (∀ k, k < length rel → m0 !! (rp ++ take k rel) = Some Dir) →
  lstat_in e m (spell top rel)
  = match m !! (rp ++ rel) with
    | Some n => Ok n
    | None => Fail ENOENT
    end.
Proof.
  intros. unfold lstat_in. by rewrite resolve_entry_spell.
Qed.

(** Nothing is found below a regular file. *)
Lemma resolve_below_file (m : gmap path node) (rel : list string)
    (x : string) (i : ino) :
  same_skeleton m0 m →
  Forall plain rel →
  (∀ k, k < length rel → m0 !! (rp ++ take k rel) = Some Dir) →
  m !! (rp ++ rel) = Some (File i) →
  resolve e m (slash_join (spell top rel) x) = Fail ENOTDIR.
Proof.
  intros Hsk Hplain Hchain Hfile. unfold resolve.
  destruct (decide _) as [He|_].
  { apply (f_equal split) in He. rewrite split_slash_join in He.
    pose proof (split_not_nil (spell top rel)).
    pose proof (split_not_nil x).
    simpl in He. destruct (split (spell top rel)) as [|? [|??]], (split x);
      simplify_eq/=. }
  destruct (namei_spell m rel) as [l0 Hlead]; [done..|congruence|].
  assert (origin e (slash_join (spell top rel) x) = origin e (spell top rel))
    as ->.
  { unfold origin, slash_join. rewrite absolute_append; [done|].
    apply spell_not_empty; [apply top_not_empty|done]. }
  rewrite split_slash_join, namei_app, Hlead.
  pose proof (split_not_nil x). destruct (split x) as [|c cs]; [done|].
  by rewrite namei_eq, Hfile.
Qed.
End spelled.

(** ** Output and history only grow *)

Lemma extends_same s s' :
  out s' = out s → hist s' = hist s → sys s' = sys s → extends s s'.
Proof. intros Ho Hh He. split_and!; [exists []..|done]; by rewrite app_nil_r. Qed.

Lemma extends_refl s : extends s s.
Proof. by apply extends_same. Qed.

Lemma extends_trans s1 s2 s3 : extends s1 s2 → extends s2 s3 → extends s1 s3.
Proof.
  intros ([o1 Ho1] & [h1 Hh1] & He1) ([o2 Ho2] & [h2 Hh2] & He2). split_and!.
  - exists (o1 ++ o2). by rewrite Ho2, Ho1, app_assoc.
  - exists (h1 ++ h2). by rewrite Hh2, Hh1, app_assoc.
  - congruence.
Qed.

Lemma append_only_ret {A} (a : A) : append_only (ret a).
Proof. intros s a' s' [= _ <-]. apply extends_refl. Qed.

Lemma append_only_bind {A B} (m : M A) (k : A → M B) :
  append_only m → (∀ a, append_only (k a)) → append_only (bind m k).
Proof.
  intros Hm Hk s b s'. unfold bind.
  destruct (m s) as [[a s1]|] eqn:Hrun; [|done].
  intros Hrun'. eapply extends_trans; [by eapply Hm | by eapply Hk].
Qed.

Lemma append_only_gets {A} (f : state → A) : append_only (gets f).
Proof. intros s a s' [= _ <-]. apply extends_refl. Qed.

Lemma append_only_modify (f : state → state) :
  (∀ s, extends s (f s)) → append_only (modify f).
Proof. intros Hf s a s' [= _ <-]. apply Hf. Qed.

Lemma append_only_printf line : append_only (printf line).
Proof.
  apply append_only_modify. intros s.
  split_and!; [by eexists | exists []; by rewrite app_nil_r | done].
Qed.

Lemma append_only_eprintf line : append_only (eprintf line).
Proof.
  apply append_only_modify. intros s.
  split_and!; [by eexists | exists []; by rewrite app_nil_r | done].
Qed.

Lemma append_only_note e : append_only (note e).
Proof.
  apply append_only_modify. intros s.
  split_and!; [exists []; by rewrite app_nil_r | by eexists | done].
Qed.

Lemma append_only_open_trunc p : append_only (open_trunc p).
Proof.
  intros s a s'. unfold open_trunc.
  destruct (resolve _ _ _); [destruct (tree (fs s) !! a0) as [[]|]|];
    intros [= _ <-]; by apply extends_same.
Qed.

Lemma append_only_write_all o bytes : append_only (write_all o bytes).
Proof.
  intros s a s'. unfold write_all.
  destruct o, bytes; intros [= _ <-]; by apply extends_same.
Qed.

Lemma append_only_rename src dest : append_only (rename src dest).
Proof.
  intros s a s'. unfold rename.
  repeat case_match; intros [= _ <-]; by apply extends_same.
Qed.

Create HintDb grow discriminated.
#[local] Hint Resolve append_only_ret append_only_gets append_only_printf
  append_only_eprintf append_only_note append_only_open_trunc
  append_only_write_all append_only_rename : grow.

(** Takes a program apart along its binds and case distinctions. *)
Ltac grow :=
  repeat first
    [ progress eauto with grow
    | apply append_only_bind; [|intros ?]
    | match goal with
      | |- append_only (match ?x with _ => _ end) => destruct x
      | |- append_only (if ?b then _ else _) => destruct b
      | |- append_only (let (_, _) := ?x in _) => destruct x
      end ].

Lemma append_only_fwrite buffer stream : append_only (fwrite buffer stream).
Proof. unfold fwrite. grow. Qed.

Lemma append_only_fclose stream : append_only (fclose stream).
Proof. unfold fclose. grow. Qed.

Lemma append_only_directory_exists p : append_only (directory_exists p).
Proof. unfold directory_exists, stat. grow. Qed.

#[local] Hint Resolve append_only_fwrite append_only_fclose
  append_only_directory_exists : grow.

Lemma append_only_copy_loop fuel src_file dest_file :
  append_only (copy_loop fuel src_file dest_file).
Proof.
  revert src_file dest_file.
  induction fuel as [|fuel IH]; intros src_file dest_file; simpl.
  - by intros s a s'.
  - unfold fread, perror. grow.
Qed.

Lemma append_only_tar_loop fuel file tarfile :
  append_only (tar_loop fuel file tarfile).
Proof.
  revert file tarfile. induction fuel as [|fuel IH]; intros file tarfile; simpl.
  - by intros s a s'.
  - unfold fread, gzwrite. grow.
Qed.

#[local] Hint Resolve append_only_copy_loop append_only_tar_loop : grow.

Lemma append_only_copy_or_move_file fuel g src dest :
  append_only (copy_or_move_file fuel g src dest).
Proof. unfold copy_or_move_file, fopen_rb, fopen_wb, perror. grow. Qed.

Lemma append_only_add_file_to_tar fuel dir_path filename tarfile :
  append_only (add_file_to_tar fuel dir_path filename tarfile).
Proof. unfold add_file_to_tar, fopen_rb. grow. Qed.

#[local] Hint Resolve append_only_copy_or_move_file
  append_only_add_file_to_tar : grow.

Lemma append_only_search_and_process fuel g fpath flag ftwbuf :
  append_only (search_and_process fuel g fpath flag ftwbuf).
Proof.
  unfold search_and_process. grow.
  apply append_only_modify. intros s. by apply extends_same.
Qed.

Lemma append_only_search_and_create_tar fuel g fpath flag ftwbuf :
  append_only (search_and_create_tar fuel g fpath flag ftwbuf).
Proof. unfold search_and_create_tar, gzopen_wb, gzclose, perror. grow. Qed.

Lemma append_only_each_child (enter : string → M Z) names :
  (∀ n, append_only (enter n)) → append_only (each_child enter names).
Proof. intros Henter. induction names as [|n names IH]; simpl; grow. Qed.

Lemma append_only_visit (fn : callback) fpath flag ftwbuf :
  (∀ p flag ftwbuf, append_only (fn p flag ftwbuf)) →
  append_only (visit fn fpath flag ftwbuf).
Proof. intros Hfn. unfold visit. grow. Qed.

Lemma append_only_walk fuel (fn : callback) fpath ftwbuf :
  (∀ p flag ftwbuf, append_only (fn p flag ftwbuf)) →
  append_only (walk fuel fn fpath ftwbuf).
Proof.
  intros Hfn. revert fpath ftwbuf.
  induction fuel as [|fuel IH]; intros fpath ftwbuf; simpl.
  - by intros s a s'.
  - pose proof (append_only_visit fn) as Hvisit.
    unfold lstat, opendir. grow. by apply append_only_each_child.
Qed.

(** ** Running the program *)

Lemma bind_run {A B} (m : M A) (k : A → M B) s a s1 :
  m s = Some (a, s1) → bind m k s = k a s1.
Proof. unfold bind. by intros ->. Qed.

Lemma directory_exists_run p s :
  directory_exists p s
  = Some ((if dir_at (sys s) (tree (fs s)) p then 1 else 0)%Z, s).
Proof.
  unfold directory_exists, bind, stat, gets, dir_at.
  by destruct (stat_in _ _ _) as [[]|].
Qed.

Lemma dir_at_true (e : env) (m : gmap path node) (p : string) :
  dir_at e m p = true ↔ stat_in e m p = Ok Dir.
Proof. unfold dir_at. by destruct (stat_in e m p) as [[]|]. Qed.

Lemma classify_F n : classify n = FTW_F → ∃ i, n = File i.
Proof. destruct n; simpl; try done. eauto. Qed.

Lemma flag_at_F (m : gmap path node) (c : path) :
  flag_at m c = FTW_F → ∃ i, m !! c = Some (File i).
Proof.
  unfold flag_at. destruct (m !! c) as [n|]; [|done].
  intros [i ->]%classify_F. eauto.
Qed.

Lemma search_and_process_skip fuel g fpath flag ftwbuf s :
  (flag = FTW_F → from_base fpath ftwbuf ≠ enteredFileName g) →
  search_and_process fuel g fpath flag ftwbuf s = Some (0%Z, s).
Proof.
  intros Hno. unfold search_and_process.
  destruct (bool_decide _ && _) eqn:Hhit; [|done].
  apply andb_true_iff in Hhit as [Hf%bool_decide_eq_true Hn%strcmp_0].
  by destruct Hno.
Qed.

Lemma search_and_create_tar_skip fuel g fpath flag ftwbuf s :
  (flag = FTW_F → ¬ contains (extension g) (from_base fpath ftwbuf)) →
  search_and_create_tar fuel g fpath flag ftwbuf s = Some (0%Z, s).
Proof.
  intros Hno. unfold search_and_create_tar.
  destruct (bool_decide _ && _) eqn:Hhit; [|done].
  apply andb_true_iff in Hhit
    as [Hf%bool_decide_eq_true Hn%bool_decide_eq_true].
  apply strstr_contains in Hn. by destruct Hno.
Qed.

Lemma valid_operation op :
  op = "-cp" ∨ op = "-mv" →
  negb (strcmp op "-cp" =? 0)%Z && negb (strcmp op "-mv" =? 0)%Z = false.
Proof. by intros [-> | ->]. Qed.

(** A visit of an entry that the callback passes over changes the history
    only. *)
Lemma visit_skip (fn : callback) fpath flag ftwbuf s :
  (∀ s', fn fpath flag ftwbuf s' = Some (0%Z, s')) →
  visit fn fpath flag ftwbuf s
  = Some (0%Z, with_hist (hist s ++ [Visit fpath flag]) s).
Proof. intros Hfn. unfold visit, bind, note, modify. by rewrite Hfn. Qed.

Lemma leads_nil (m : gmap path node) (root : path) : leads m root [].
Proof. split; [done|]. simpl. lia. Qed.

Lemma leads_snoc (m : gmap path node) (root : path) rel n :
  leads m root rel → m !! (root ++ rel) = Some Dir → plain n →
  leads m root (rel ++ [n]).
Proof.
  intros [Hplain Hchain] Hdir Hn. split.
  - apply Forall_app. split; [done|by apply Forall_singleton].
  - intros k Hk. rewrite length_app in Hk. simpl in Hk.
    destruct (decide (k = length rel)) as [->|Hne].
    + by rewrite take_app_length.
    + rewrite take_app_le by lia. apply Hchain. lia.
Qed.

(** ** The walk *)

Lemma leads_length (m0 : gmap path node) (rp : path) rel :
  m0 !! rp = Some Dir → leads m0 rp rel → length (rp ++ rel) ≤ deep m0 + 1.
Proof.
  intros Hdir [Hplain Hchain].
  destruct rel as [|n rel _] using rev_ind.
  - rewrite app_nil_r.
    assert (length rp ≤ deep m0); [|lia]. apply deep_bound. by exists Dir.
  - rewrite app_assoc, length_app. simpl.
    assert (length (rp ++ rel) ≤ deep m0); [|lia].
    apply deep_bound. exists Dir.
    specialize (Hchain (length rel)). rewrite take_app_length in Hchain.
    apply Hchain. rewrite length_app. simpl. lia.
Qed.

(** What the walk finds when it examines and opens the entry that [rel]
    leads to, in a tree with the skeleton of [m0]. *)
Lemma walk_lstat (e : env) (m0 : gmap path node) (top : string) (rp : path)
    rel s :
  resolve_entry e m0 top = Ok rp → m0 !! rp = Some Dir →
  sys s = e → same_skeleton m0 (tree (fs s)) → leads m0 rp rel →
  lstat (spell top rel) s
  = Some (match tree (fs s) !! (rp ++ rel) with
          | Some n => Ok n
          | None => Fail ENOENT
          end, s).
Proof.
  intros Htop Hdir Hsys Hskel [Hplain Hchain]. unfold lstat, gets.
  by rewrite Hsys, (lstat_spell e m0 top rp Htop Hdir _ rel Hskel).
Qed.

Lemma walk_opendir (e : env) (m0 : gmap path node) (top : string) (rp : path)
    rel s :
  resolve_entry e m0 top = Ok rp → m0 !! rp = Some Dir →
  sys s = e → same_skeleton m0 (tree (fs s)) → leads m0 rp rel →
  tree (fs s) !! (rp ++ rel) = Some Dir →
  opendir (spell top rel) s
  = Some (if faulty e (rp ++ rel) then None
          else Some (readdir e (tree (fs s)) (rp ++ rel)), s).
Proof.
  intros Htop Hdir Hsys Hskel [Hplain Hchain] Hentry. unfold opendir, gets.
  rewrite Hsys.
  rewrite (resolve_spell e m0 top rp Htop Hdir _ rel Hskel)
    by (done || congruence).
  rewrite Hentry. simpl. by destruct (faulty e (rp ++ rel)).
Qed.

(** A rule for the walks from [top], which names the directory at [rp] in
    the tree [m0], in an environment [e] where no directory fails to be
    read: an invariant [I] of the states between visits, under which the
    skeleton of the tree stays that of [m0], and a condition [Q] on the
    state in which a visit ends the walk. *)
Section walk_rule.
Context (fn : callback) (e : env) (m0 : gmap path node).
Context (top : string) (rp : path).
Context (I : state → Prop) (Q : Z → state → Prop).
Hypothesis top_entry : resolve_entry e m0 top = Ok rp.
Hypothesis top_dir : m0 !! rp = Some Dir.
Hypothesis no_fault : ∀ c, faulty e c = false.
Hypothesis I_sys : ∀ s, I s → sys s = e.
Hypothesis I_skel : ∀ s, I s → same_skeleton m0 (tree (fs s)).
Hypothesis visit_ok : ∀ rel ftwbuf s,
  leads m0 rp rel → I s →
  (rel ≠ [] → from_base (spell top rel) ftwbuf = leaf rel) →
  ∃ r s', visit fn (spell top rel) (flag_at (tree (fs s)) (rp ++ rel))
            ftwbuf s = Some (r, s')
          ∧ (r = 0%Z → I s') ∧ (r ≠ 0%Z → Q r s').

Lemma each_child_rule (enter : string → M Z) names s :
  (∀ n s, n ∈ names → I s →
     ∃ r s', enter n s = Some (r, s')
             ∧ (r = 0%Z → I s') ∧ (r ≠ 0%Z → Q r s')) →
  I s →
  ∃ r s', each_child enter names s = Some (r, s')
          ∧ (r = 0%Z → I s') ∧ (r ≠ 0%Z → Q r s').
Proof.
  revert s. induction names as [|n names IH]; intros s Henter Hs; simpl.
  - exists 0%Z, s. by split.
  - destruct (Henter n s) as (r & s1 & Hrun & H0 & H1);
      [by left | done |].
    unfold bind at 1. rewrite Hrun.
    destruct (Z.eqb_spec r 0) as [->|Hr].
    + apply IH; [|by apply H0].
      intros n' s' Hn'. apply Henter. by right.
    + exists r, s1. by split.
Qed.

Lemma walk_rule fuel rel ftwbuf s :
  leads m0 rp rel → I s →
  (rel ≠ [] → from_base (spell top rel) ftwbuf = leaf rel) →
  deep m0 + 1 < fuel + length (rp ++ rel) →
  ∃ r s', walk fuel fn (spell top rel) ftwbuf s = Some (r, s')
          ∧ (r = 0%Z → I s') ∧ (r ≠ 0%Z → Q r s').
Proof.
  revert rel ftwbuf s.
  induction fuel as [|fuel IH]; intros rel ftwbuf s Hrel Hs Hbase Hfuel.
  { pose proof (leads_length m0 rp rel top_dir Hrel). lia. }
  simpl. unfold bind at 1.
  rewrite (walk_lstat e m0 top rp) by auto.
  destruct (visit_ok rel ftwbuf s Hrel Hs Hbase) as (r & s1 & Hrun & H0 & H1).
  unfold flag_at in Hrun.
  destruct (tree (fs s) !! (rp ++ rel)) as [[i| |t]|] eqn:Hentry;
    try by exists r, s1.
  unfold bind at 1. rewrite (walk_opendir e m0 top rp) by auto.
  rewrite no_fault.
  unfold bind at 1. simpl in Hrun. rewrite Hrun.
  destruct (Z.eqb_spec r 0) as [->|Hr]; [|by exists r, s1].
  apply each_child_rule; [|by apply H0].
  intros n s2 [Hn Hsome]%readdir_spec Hs2.
  rewrite <- spell_snoc. apply IH; [|done|..].
  - apply leads_snoc; [done| |done]. by apply (I_skel s Hs).
  - intros _. by rewrite spell_snoc, from_base_child, leaf_snoc.
  - rewrite app_assoc, length_app. simpl. lia.
Qed.

(** The walk that [nftw] starts at a root spelled [root]. *)
Lemma nftw_rule fuel root s :
  strip_slashes root = top → I s → deep m0 + 1 < fuel + length rp →
  ∃ r s', nftw fuel root fn s = Some (r, s')
          ∧ (r = 0%Z → I s') ∧ (r ≠ 0%Z → Q r s').
Proof.
  intros Htop Hs Hfuel. unfold nftw. rewrite Htop.
  unfold bind at 1.
  pose proof (walk_lstat e m0 top rp [] s top_entry top_dir (I_sys s Hs)
                (I_skel s Hs) (leads_nil m0 rp)) as Hl.
  simpl in Hl. rewrite Hl. rewrite app_nil_r.
  assert (tree (fs s) !! rp = Some Dir) as -> by by apply (I_skel s Hs).
  apply (walk_rule fuel [] _ s); [apply leads_nil|done|done|].
  by rewrite app_nil_r.
Qed.
End walk_rule.

(** ** Which entries a walk visits *)

Lemma visited_extends p s s' : visited p s → extends s s' → visited p s'.
Proof.
  intros [flag Hin] (_ & [h Hh] & _). exists flag. rewrite Hh.
  apply elem_of_app. by left.
Qed.

Lemma visited_or_not p s : visited p s ∨ ¬ visited p s.
Proof.
  unfold visited. induction (hist s) as [|x h IH].
  - right. intros [flag Hin]. by apply elem_of_nil in Hin.
  - destruct IH as [[flag Hin]|Hno].
    { left. exists flag. by right. }
    assert (Hrest : (∀ flag, x ≠ Visit p flag) →
              ¬ ∃ flag, Visit p flag ∈ x :: h).
    { intros He [flag' [Heq|Hin]%elem_of_cons].
      - by apply (He flag').
      - apply Hno. by exists flag'. }
    destruct x as [q flag| |]; [|by right; apply Hrest..].
    destruct (decide (q = p)) as [->|Hne].
    + left. exists flag. by left.
    + right. apply Hrest. by intros flag' [= ->].
Qed.

Lemma visit_is_recorded (fn : callback) fpath flag ftwbuf s r s' :
  (∀ p flag ftwbuf, append_only (fn p flag ftwbuf)) →
  visit fn fpath flag ftwbuf s = Some (r, s') →
  visited fpath s' ∧ extends s s'.
Proof.
  intros Hfn. unfold visit, bind at 1, note, modify. intros Hrun.
  apply Hfn in Hrun as Hext. split.
  - eapply visited_extends; [|done]. exists flag. simpl.
    apply elem_of_app. right. by left.
  - eapply extends_trans; [|done].
    split_and!; simpl; [exists []; by rewrite app_nil_r | by eexists | done].
Qed.

(** A rule like [walk_rule] in which the visit of an entry may assume that
    the entry was not visited before: a walk hands every entry to the
    callback at most once.  And a walk that runs to its end visits the
    entry that [target] leads to, if the entry is in place until it is
    visited. *)
Section walk_fresh.
Context (fn : callback) (e : env) (m0 : gmap path node).
Context (top : string) (rp : path) (target : list string).
Context (I : state → Prop) (Q : Z → state → Prop).
Hypothesis top_entry : resolve_entry e m0 top = Ok rp.
Hypothesis top_dir : m0 !! rp = Some Dir.
Hypothesis target_leads : leads m0 rp target.
Hypothesis no_fault : ∀ c, faulty e c = false.
Hypothesis fn_grow : ∀ p flag ftwbuf, append_only (fn p flag ftwbuf).
Hypothesis I_sys : ∀ s, I s → sys s = e.
Hypothesis I_skel : ∀ s, I s → same_skeleton m0 (tree (fs s)).
Hypothesis I_look : ∀ s, I s → ¬ visited (spell top target) s →
  is_Some (tree (fs s) !! (rp ++ target)).
Hypothesis visit_ok : ∀ rel ftwbuf s,
  leads m0 rp rel → I s →
  (rel ≠ [] → from_base (spell top rel) ftwbuf = leaf rel) →
  (∀ flag, Visit (spell top rel) flag ∉ hist s) →
  ∃ r s', visit fn (spell top rel) (flag_at (tree (fs s)) (rp ++ rel))
            ftwbuf s = Some (r, s')
          ∧ (r = 0%Z → I s') ∧ (r ≠ 0%Z → Q r s')
          ∧ (∀ q flag, Visit q flag ∈ hist s' →
                       Visit q flag ∈ hist s ∨ q = spell top rel).

Lemma each_child_fresh (enter : string → M Z) rel names s :
  NoDup names →
  (∀ n, append_only (enter n)) →
  (∀ n s, n ∈ names → I s → unvisited top (rel ++ [n]) s →
     ∃ r s', enter n s = Some (r, s')
             ∧ (r = 0%Z → I s') ∧ (r ≠ 0%Z → Q r s')
             ∧ visits_within top (rel ++ [n]) s s'
             ∧ (r = 0%Z → rel ++ [n] `prefix_of` target →
                visited (spell top target) s')) →
  I s →
  (∀ n, n ∈ names → unvisited top (rel ++ [n]) s) →
  ∃ r s', each_child enter names s = Some (r, s')
          ∧ (r = 0%Z → I s') ∧ (r ≠ 0%Z → Q r s')
          ∧ visits_within top rel s s'
          ∧ (r = 0%Z → ∀ n, n ∈ names → rel ++ [n] `prefix_of` target →
             visited (spell top target) s').
Proof.
  intros Hnodup Hgrow. revert s Hnodup.
  induction names as [|n names IH];
    intros s Hnodup Henter Hs Hfresh; simpl.
  - exists 0%Z, s. split_and!; [done..| |].
    + intros q flag Hq. by left.
    + intros _ n Hn. by apply elem_of_nil in Hn.
  - apply NoDup_cons in Hnodup as [Hn Hnodup].
    destruct (Henter n s) as (r & s1 & Hrun & H0 & H1 & Hin & Hreach);
      [by left | done | apply Hfresh; by left |].
    unfold bind at 1. rewrite Hrun.
    assert (Hwithin : visits_within top rel s s1).
    { intros q flag Hq.
      destruct (Hin q flag Hq) as [?|(rel' & ? & Hpre & ?)]; [by left|].
      right. exists rel'. split_and!; [done| |done]. by eapply prefix_app_l. }
    destruct (Z.eqb_spec r 0) as [->|Hr].
    + destruct (IH s1) as (r & s' & Hrest & H0' & H1' & Hin' & Hreach');
        [done| | | |].
      * intros n' s' Hn'. apply Henter. by right.
      * by apply H0.
      * intros n' Hn' rel' flag Hplain Hpre Hq.
        destruct (Hin _ flag Hq) as [Hold|(rel2 & Hplain2 & Hpre2 & Heq)].
        -- by apply (Hfresh n' (list_elem_of_further _ _ _ Hn') rel' flag).
        -- apply spell_inj in Heq as ->; [|done..].
           apply Hn. by rewrite (snoc_prefixes_agree rel rel2 n n').
      * exists r, s'. split_and!; [done..| |].
        -- intros q flag Hq.
           destruct (Hin' q flag Hq) as [Hq1|?]; [|by right].
           by apply Hwithin.
        -- intros Hr n' [->|Hn']%elem_of_cons Hpre;
             [|by apply (Hreach' Hr n')].
           apply (visited_extends _ s1); [by apply Hreach|].
           exact (append_only_each_child enter names Hgrow s1 r s' Hrest).
    + exists r, s1. by split_and!.
Qed.

Lemma walk_fresh_rule fuel rel ftwbuf s :
  leads m0 rp rel → I s →
  (rel ≠ [] → from_base (spell top rel) ftwbuf = leaf rel) →
  unvisited top rel s →
  deep m0 + 1 < fuel + length (rp ++ rel) →
  ∃ r s', walk fuel fn (spell top rel) ftwbuf s = Some (r, s')
          ∧ (r = 0%Z → I s') ∧ (r ≠ 0%Z → Q r s')
          ∧ visits_within top rel s s'
          ∧ (r = 0%Z → rel `prefix_of` target →
             visited (spell top target) s').
Proof.
  revert rel ftwbuf s.
  induction fuel as [|fuel IH];
    intros rel ftwbuf s Hrel Hs Hbase Hfresh Hfuel.
  { pose proof (leads_length m0 rp rel top_dir Hrel). lia. }
  simpl. unfold bind at 1.
  rewrite (walk_lstat e m0 top rp) by auto.
  destruct (visit_ok rel ftwbuf s Hrel Hs Hbase)
    as (r & s1 & Hrun & H0 & H1 & Hone).
  { intros flag. apply Hfresh; [by destruct Hrel|done]. }
  assert (Hwithin : visits_within top rel s s1).
  { intros q flag Hq. destruct (Hone q flag Hq) as [?| ->]; [by left|].
    right. exists rel. by destruct Hrel. }
  assert (Hstrict : rel `prefix_of` target → rel ≠ target →
            tree (fs s) !! (rp ++ rel) = Some Dir).
  { intros [k ->] Hne. apply (I_skel s Hs).
    destruct target_leads as [_ Hchain].
    specialize (Hchain (length rel)). rewrite take_app_length in Hchain.
    apply Hchain. rewrite length_app. destruct k; [|simpl; lia].
    by rewrite app_nil_r in Hne. }
  assert (Hhere : rel = target → visited (spell top target) s1).
  { intros <-. by eapply visit_is_recorded. }
  unfold flag_at in Hrun.
  destruct (tree (fs s) !! (rp ++ rel)) as [[i| |t]|] eqn:Hentry;
    try (exists r, s1; split_and!; [done..|]; intros _ Hpre;
         destruct (decide (rel = target)) as [Heq|Hne]; [by apply Hhere|];
         by specialize (Hstrict Hpre Hne)).
  unfold bind at 1. rewrite (walk_opendir e m0 top rp) by auto.
  rewrite no_fault.
  unfold bind at 1. simpl in Hrun. rewrite Hrun.
  destruct (Z.eqb_spec r 0) as [->|Hr]; [|by exists r, s1; split_and!].
  set (enter := λ n, walk fuel fn (child_path (spell top rel) n)
                       (mkFTW (child_base (spell top rel))
                          (S (level ftwbuf)))).
  assert (Hgrow : ∀ n, append_only (enter n))
    by (intros n; by apply append_only_walk).
  destruct (each_child_fresh enter rel
              (readdir e (tree (fs s)) (rp ++ rel)) s1)
    as (r & s' & Hrest & H0' & H1' & Hin' & Hreach');
    [apply NoDup_readdir|done| | | |].
  - intros n s2 Hn Hs2 Hfresh2. apply readdir_spec in Hn as [Hn Hsome].
    unfold enter. rewrite <- spell_snoc. apply IH; [|done|..|done|].
    + apply leads_snoc; [done| |done]. by apply (I_skel s Hs).
    + intros _. by rewrite spell_snoc, from_base_child, leaf_snoc.
    + rewrite app_assoc, length_app. simpl. lia.
  - by apply H0.
  - intros n Hn rel' flag Hplain Hpre Hq.
    destruct (Hone _ flag Hq) as [Hold|Heq].
    + apply (Hfresh rel' flag); [done| |done]. by eapply prefix_app_l.
    + apply spell_inj in Heq as ->; [|done|by destruct Hrel].
      by apply prefix_snoc_not in Hpre.
  - exists r, s'. split_and!; [done..| |].
    + intros q flag Hq. destruct (Hin' q flag Hq) as [Hq1|?]; [|by right].
      by apply Hwithin.
    + intros Hr0 Hpre.
      assert (Hext' : extends s1 s')
        by exact (append_only_each_child enter _ Hgrow s1 r s' Hrest).
      destruct (decide (rel = target)) as [Heq|Hne].
      { eapply visited_extends; [by apply Hhere|done]. }
      destruct (visited_or_not (spell top target) s) as [Hv|Hnot].
      { eapply visited_extends; [|done].
        eapply visited_extends; [done|].
        by eapply visit_is_recorded. }
      destruct Hpre as [k Hk]. destruct k as [|n k].
      { by rewrite app_nil_r in Hk. }
      apply (Hreach' Hr0 n).
      * apply readdir_spec. split.
        -- destruct target_leads as [Hplain _]. rewrite Hk in Hplain.
           apply Forall_app in Hplain as [_ Hplain].
           by apply Forall_cons in Hplain as [? _].
        -- rewrite <- app_assoc. destruct k as [|n' k].
           ++ rewrite <- Hk. by apply I_look.
           ++ exists Dir. apply (I_skel s Hs).
              destruct target_leads as [_ Hchain].
              specialize (Hchain (length (rel ++ [n]))).
              assert (Hk' : target = (rel ++ [n]) ++ n' :: k)
                by (by rewrite Hk, <- app_assoc).
              rewrite Hk', take_app_length in Hchain.
              apply Hchain. rewrite !length_app. simpl. lia.
      * exists k. by rewrite Hk, <- app_assoc.
Qed.

Lemma nftw_fresh_rule fuel root s :
  strip_slashes root = top → I s → unvisited top [] s →
  deep m0 + 1 < fuel + length rp →
  ∃ r s', nftw fuel root fn s = Some (r, s')
          ∧ (r = 0%Z → I s' ∧ visited (spell top target) s')
          ∧ (r ≠ 0%Z → Q r s').
Proof.
  intros Htop Hs Hfresh Hfuel. unfold nftw. rewrite Htop.
  unfold bind at 1.
  pose proof (walk_lstat e m0 top rp [] s top_entry top_dir (I_sys s Hs)
                (I_skel s Hs) (leads_nil m0 rp)) as Hl.
  simpl in Hl. rewrite Hl. rewrite app_nil_r.
  assert (tree (fs s) !! rp = Some Dir) as -> by by apply (I_skel s Hs).
  destruct (walk_fresh_rule fuel [] (mkFTW (root_base top) 0) s)
    as (r & s' & Hrun & H0 & H1 & _ & Hreach);
    [apply leads_nil|done|done|done|by rewrite app_nil_r|].
  exists r, s'. split; [done|]. split; [|done].
  intros Hr. split; [by apply H0|]. apply Hreach; [done|apply prefix_nil].
Qed.
End walk_fresh.

(** A walk that runs to its end visits the entry that [target] leads to,
    when the callback leaves the skeleton of the tree as it is, and the
    entry in place until it is visited. *)
Section walk_reaches.
Context (fn : callback) (e : env) (m0 : gmap path node).
Context (top : string) (rp : path) (target : list string).
Context (J : state → Prop).
Hypothesis top_entry : resolve_entry e m0 top = Ok rp.
Hypothesis top_dir : m0 !! rp = Some Dir.
Hypothesis target_leads : leads m0 rp target.
Hypothesis J_sys : ∀ s, J s → sys s = e.
Hypothesis J_skel : ∀ s, J s → same_skeleton m0 (tree (fs s)).
Hypothesis J_look : ∀ s, J s → ¬ visited (spell top target) s →
  is_Some (tree (fs s) !! (rp ++ target)).
Hypothesis J_visit : ∀ rel ftwbuf s s', J s → leads m0 rp rel →
  (rel ≠ [] → from_base (spell top rel) ftwbuf = leaf rel) →
  visit fn (spell top rel) (flag_at (tree (fs s)) (rp ++ rel)) ftwbuf s
  = Some (0%Z, s') →
  J s'.
Hypothesis fn_grow : ∀ p flag ftwbuf, append_only (fn p flag ftwbuf).

Lemma each_child_reaches (enter : string → M Z) names s s' :
  (∀ n, append_only (enter n)) →
  (∀ n s1 s1', n ∈ names → J s1 → enter n s1 = Some (0%Z, s1') → J s1') →
  J s →
  each_child enter names s = Some (0%Z, s') →
  J s' ∧ ∀ n, n ∈ names →
           (∀ s1 s1', J s1 → enter n s1 = Some (0%Z, s1') →
                      visited (spell top target) s1') →
           visited (spell top target) s'.
Proof.
  intros Hgrow. revert s.
  induction names as [|n0 names IH]; intros s HJ Hs; simpl.
  - intros [= <-]. split; [done|]. intros n Hn. by apply elem_of_nil in Hn.
  - unfold bind at 1.
    destruct (enter n0 s) as [[r s1]|] eqn:Hrun; [|done].
    destruct (Z.eqb_spec r 0) as [->|Hr]; [|by intros [= ? _]].
    intros Hrest. destruct (IH s1) as [Hs' Hnames]; [..|done|].
    { intros n s2 s3 Hn. apply HJ. by right. }
    { eapply HJ; [by left|done..]. }
    split; [done|].
    intros n [->|Hn]%elem_of_cons Hreach; [|by apply (Hnames n)].
    apply (visited_extends _ s1); [by apply (Hreach s s1)|].
    by eapply (append_only_each_child enter names).
Qed.

Lemma walk_reaches fuel rel ftwbuf s s' :
  J s → leads m0 rp rel →
  (rel ≠ [] → from_base (spell top rel) ftwbuf = leaf rel) →
  walk fuel fn (spell top rel) ftwbuf s = Some (0%Z, s') →
  J s' ∧ (rel `prefix_of` target → visited (spell top target) s').
Proof.
  revert rel ftwbuf s s'.
  induction fuel as [|fuel IH]; intros rel ftwbuf s s' Hs Hrel Hbase;
    [done|].
  simpl. unfold bind at 1.
  rewrite (walk_lstat e m0 top rp) by auto.
  assert (Hstrict : rel `prefix_of` target → rel ≠ target →
            tree (fs s) !! (rp ++ rel) = Some Dir).
  { intros [k ->] Hne. apply (J_skel s Hs).
    destruct target_leads as [_ Hchain].
    specialize (Hchain (length rel)). rewrite take_app_length in Hchain.
    apply Hchain. rewrite length_app. destruct k; [|simpl; lia].
    by rewrite app_nil_r in Hne. }
  assert (Hleaf : ∀ flag,
    tree (fs s) !! (rp ++ rel) ≠ Some Dir →
    flag = flag_at (tree (fs s)) (rp ++ rel) →
    visit fn (spell top rel) flag ftwbuf s = Some (0%Z, s') →
    J s' ∧ (rel `prefix_of` target → visited (spell top target) s')).
  { intros flag Hnd -> Hrun. split; [by eapply J_visit|].
    intros Hpre. destruct (decide (rel = target)) as [->|Hne].
    - by eapply visit_is_recorded.
    - by destruct Hnd; apply Hstrict. }
  destruct (tree (fs s) !! (rp ++ rel)) as [[i| |t]|] eqn:Hentry;
    try (apply Hleaf; [done|unfold flag_at; by rewrite Hentry]).
  unfold bind at 1. rewrite (walk_opendir e m0 top rp) by auto.
  destruct (faulty e (rp ++ rel)); [done|].
  unfold bind at 1.
  destruct (visit fn _ _ ftwbuf s) as [[r s1]|] eqn:Hvisit; [|done].
  destruct (visit_is_recorded _ _ _ _ _ _ _ fn_grow Hvisit) as [Hrec Hext].
  destruct (Z.eqb_spec r 0) as [->|Hr]; [|by intros [= ? _]].
  intros Hrest.
  assert (Hs1 : J s1).
  { eapply J_visit; [done..|]. unfold flag_at. by rewrite Hentry. }
  set (enter := λ n, walk fuel fn (child_path (spell top rel) n)
                       (mkFTW (child_base (spell top rel))
                          (S (level ftwbuf)))) in *.
  assert (Hgrow : ∀ n, append_only (enter n))
    by (intros n; by apply append_only_walk).
  assert (Hchild : ∀ n, n ∈ readdir e (tree (fs s)) (rp ++ rel) →
            leads m0 rp (rel ++ [n])).
  { intros n Hn. apply readdir_spec in Hn as [Hn _].
    apply leads_snoc; [done| |done]. by apply (J_skel s Hs). }
  assert (Hbase' : ∀ n, rel ++ [n] ≠ [] →
            from_base (spell top (rel ++ [n]))
              (mkFTW (child_base (spell top rel)) (S (level ftwbuf)))
            = leaf (rel ++ [n])).
  { intros n _. by rewrite spell_snoc, from_base_child, leaf_snoc. }
  destruct (each_child_reaches enter
              (readdir e (tree (fs s)) (rp ++ rel)) s1 s' Hgrow)
    as [Hs' Hnames]; [|done..|].
  { intros n s2 s3 Hn Hs2 Hrun. unfold enter in Hrun.
    rewrite <- spell_snoc in Hrun.
    by apply (IH _ _ _ _ Hs2 (Hchild n Hn) (Hbase' n) Hrun). }
  split; [done|]. intros Hpre.
  assert (Hext' : extends s1 s')
    by (by eapply (append_only_each_child enter)).
  destruct (visited_or_not (spell top target) s) as [Hv|Hnot].
  { eapply visited_extends; [|done]. by eapply visited_extends. }
  destruct (decide (rel = target)) as [->|Hne];
    [by eapply visited_extends|].
  destruct Hpre as [k Hk]. destruct k as [|n k].
  { by rewrite app_nil_r in Hk. }
  assert (Hin : n ∈ readdir e (tree (fs s)) (rp ++ rel)).
  { apply readdir_spec. split.
    - destruct target_leads as [Hplain _]. rewrite Hk in Hplain.
      apply Forall_app in Hplain as [_ Hplain].
      by apply Forall_cons in Hplain as [? _].
    - rewrite <- app_assoc. destruct k as [|n' k].
      + rewrite <- Hk. by apply J_look.
      + exists Dir. apply (J_skel s Hs).
        destruct target_leads as [_ Hchain].
        specialize (Hchain (length (rel ++ [n]))).
        assert (Hk' : target = (rel ++ [n]) ++ n' :: k)
          by (by rewrite Hk, <- app_assoc).
        rewrite Hk', take_app_length in Hchain.
        apply Hchain. rewrite !length_app. simpl. lia. }
  apply (Hnames n Hin).
  intros s2 s3 Hs2 Hrun. unfold enter in Hrun.
  rewrite <- spell_snoc in Hrun.
  apply (IH _ _ _ _ Hs2 (Hchild n Hin) (Hbase' n) Hrun).
  exists k. by rewrite Hk, <- app_assoc.
Qed.

Lemma nftw_reaches fuel root s s' :
  strip_slashes root = top → J s →
  nftw fuel root fn s = Some (0%Z, s') →
  J s' ∧ visited (spell top target) s'.
Proof.
  intros Htop Hs. unfold nftw. rewrite Htop. unfold bind at 1.
  pose proof (walk_lstat e m0 top rp [] s top_entry top_dir (J_sys s Hs)
                (J_skel s Hs) (leads_nil m0 rp)) as Hl.
  simpl in Hl. rewrite Hl. rewrite app_nil_r.
  assert (tree (fs s) !! rp = Some Dir) as -> by by apply (J_skel s Hs).
  intros Hrun.
  destruct (walk_reaches fuel [] _ s s' Hs (leads_nil m0 rp)
              ltac:(done) Hrun) as [Hs' Hreach].
  split; [done|]. apply Hreach. apply prefix_nil.
Qed.
End walk_reaches.

(** ** Streams *)

Lemma take_min_length {A} (l : list A) (n : nat) :
  take (length l `min` n) l = take n l.
Proof.
  destruct (Nat.le_ge_cases (length l) n).
  - rewrite Nat.min_l by done. by rewrite !take_ge.
  - by rewrite Nat.min_r.
Qed.

Lemma take_drop_length {A} (n : nat) (l : list A) :
  take n l ++ drop (length (take n l)) l = l.
Proof.
  rewrite length_take. destruct (Nat.le_ge_cases n (length l)).
  - rewrite Nat.min_l by done. apply take_drop.
  - rewrite Nat.min_r by done. rewrite take_ge by done.
    by rewrite drop_all, app_nil_r.
Qed.

Lemma disk_only_refl s : disk_only s s.
Proof. done. Qed.

Lemma disk_only_trans s1 s2 s3 :
  disk_only s1 s2 → disk_only s2 s3 → disk_only s1 s3.
Proof. intros (?&?&?&?) (?&?&?&?). unfold wrote, touched, disk_only; split_and!; congruence. Qed.

Lemma touched_refl o s : touched o s s.
Proof. done. Qed.

Lemma touched_trans o s1 s2 s3 :
  touched o s1 s2 → touched o s2 s3 → touched o s1 s3.
Proof.
  intros (Hd1 & Ht1 & Hb1) (Hd2 & Ht2 & Hb2). split; [|split].
  - by eapply disk_only_trans.
  - congruence.
  - intros k Hk. by rewrite Hb2, Hb1.
Qed.

Lemma blob_insert_eq (d : disk) t (j : ino) bytes :
  blob (Disk t (<[j := bytes]> (blobs d))) j = bytes.
Proof. unfold blob. simpl. by rewrite lookup_insert_eq. Qed.

Lemma blob_insert_ne (d : disk) t (j k : ino) bytes :
  j ≠ k → blob (Disk t (<[j := bytes]> (blobs d))) k = blob d k.
Proof. intros. unfold blob. simpl. by rewrite lookup_insert_ne. Qed.

Lemma write_all_touched o bytes s :
  ∃ b s', write_all o bytes s = Some (b, s') ∧ touched o s s'.
Proof.
  unfold write_all. destruct o as [j|], bytes as [|x bytes];
    try (by exists true, s).
  eexists _, _. split; [done|]. unfold wrote, touched, disk_only; split_and!; try done.
  intros k Hk. simpl. apply blob_insert_ne. congruence.
Qed.

Lemma write_all_room j bytes s :
  length bytes ≤ free s →
  ∃ s', write_all (Some j) bytes s = Some (true, s') ∧ wrote j bytes s s'.
Proof.
  intros Hroom. unfold write_all. destruct bytes as [|x bytes].
  { exists s. split; [done|]. unfold wrote, touched, disk_only; split_and!; try done.
    by rewrite app_nil_r. }
  rewrite Nat.min_l by done. rewrite Nat.eqb_refl.
  eexists. split; [done|]. unfold wrote, touched, disk_only; split_and!; try done; simpl.
  - intros k Hk. apply blob_insert_ne. congruence.
  - by rewrite blob_insert_eq, firstn_all.
  - simpl in Hroom. lia.
Qed.

Lemma wrote_nil j s : wrote j [] s s.
Proof. unfold wrote, touched, disk_only; split_and!; try done. by rewrite app_nil_r. Qed.

Lemma wrote_trans j b1 b2 s1 s2 s3 :
  wrote j b1 s1 s2 → wrote j b2 s2 s3 → wrote j (b1 ++ b2) s1 s3.
Proof.
  intros (Ht1 & Hb1 & Hf1) (Ht2 & Hb2 & Hf2). split; [|split].
  - by eapply touched_trans.
  - by rewrite Hb2, Hb1, app_assoc.
  - rewrite length_app. lia.
Qed.

Lemma fread_run n stream s :
  fread n stream s
  = Some ((take n (drop (f_pos stream) (stream_data s stream)),
           mkFILE (f_ino stream)
             (f_pos stream
              + length (take n (drop (f_pos stream) (stream_data s stream))))
             (f_buf stream)), s).
Proof. done. Qed.

(** [fwrite] returns, and touches the file of its stream only. *)
Lemma fwrite_touched buffer stream s :
  ∃ n stream' s', fwrite buffer stream s = Some ((n, stream'), s')
                  ∧ f_ino stream' = f_ino stream
                  ∧ touched (f_ino stream) s s'.
Proof.
  unfold fwrite. unfold bind at 1, gets.
  destruct (_ <=? _); [by eexists _, _, _|].
  destruct (write_all_touched (f_ino stream)
              (f_buf stream
               ++ take (bufsiz (sys s) - length (f_buf stream)) buffer) s)
    as (b & s1 & Hrun & Ht1).
  unfold bind at 1. rewrite Hrun.
  destruct b; [|by eexists _, _, _].
  match goal with
  | |- context [write_all ?o ?bytes] =>
      destruct (write_all_touched o bytes s1) as (b & s2 & Hrun2 & Ht2)
  end.
  unfold bind at 1. rewrite Hrun2.
  destruct b; eexists _, _, _; (split; [done|]); split; try done;
    by eapply touched_trans.
Qed.

(** With room on the device for what the stream holds and what it is
    given, [fwrite] takes every byte: some reach the file, the others are
    in the buffer. *)
Lemma fwrite_room buffer stream j s :
  f_ino stream = Some j →
  length (f_buf stream) + length buffer ≤ free s →
  ∃ stream' w s',
    fwrite buffer stream s = Some ((length buffer, stream'), s')
    ∧ f_ino stream' = Some j
    ∧ wrote j w s s'
    ∧ w ++ f_buf stream' = f_buf stream ++ buffer.
Proof.
  intros Hj Hroom. unfold fwrite. unfold bind at 1, gets.
  set (room := bufsiz (sys s) - length (f_buf stream)).
  destruct (Nat.leb_spec (length buffer) room) as [Hfit|Hover].
  { eexists _, [], s. split; [done|]. split; [done|]. split; [|done].
    apply wrote_nil. }
  rewrite Hj.
  destruct (write_all_room j (f_buf stream ++ take room buffer) s)
    as (s1 & Hrun1 & Hw1).
  { rewrite length_app, length_take. lia. }
  unfold bind at 1. rewrite Hrun1.
  set (rest := drop room buffer).
  set (direct := if bufsiz (sys s) <? 128 then length rest
                 else length rest - length rest `mod` bufsiz (sys s)).
  destruct (write_all_room j (take direct rest) s1) as (s2 & Hrun2 & Hw2).
  { destruct Hw1 as (_ & _ & Hf1).
    rewrite length_app, length_take in Hf1.
    rewrite length_take. unfold rest. rewrite length_drop. lia. }
  unfold bind at 1. rewrite Hrun2.
  eexists _, _, s2. split; [done|]. split; [done|]. split.
  - by eapply wrote_trans.
  - simpl. rewrite <- !app_assoc. f_equal.
    rewrite take_drop. unfold rest. by rewrite take_drop.
Qed.

Lemma fclose_touched stream s :
  ∃ s', fclose stream s = Some (tt, s') ∧ touched (f_ino stream) s s'.
Proof.
  unfold fclose, bind.
  destruct (write_all_touched (f_ino stream) (f_buf stream) s)
    as (b & s' & -> & Ht). by exists s'.
Qed.

Lemma fclose_empty o pos s : fclose (mkFILE o pos []) s = Some (tt, s).
Proof. unfold fclose, bind, write_all. simpl. by destruct o. Qed.

Lemma touched_stream_data o stream s s' :
  touched o s s' → f_ino stream ≠ o →
  stream_data s' stream = stream_data s stream.
Proof.
  intros (_ & _ & Hb) Hne. unfold stream_data.
  destruct (f_ino stream) as [i|]; [|done]. apply Hb. congruence.
Qed.

(** ** The copy loop *)

(** The loop returns when the fuel exceeds the bytes left to read, if the
    two streams are on different files or nothing is left to read. *)
Lemma copy_loop_touched fuel src_file dest_file s :
  f_buf src_file = [] →
  f_ino src_file ≠ f_ino dest_file
  ∨ drop (f_pos src_file) (stream_data s src_file) = [] →
  length (stream_data s src_file) - f_pos src_file < fuel →
  ∃ b dest_file' s',
    copy_loop fuel src_file dest_file s = Some ((b, dest_file'), s')
    ∧ f_ino dest_file' = f_ino dest_file
    ∧ tree (fs s') = tree (fs s) ∧ sys s' = sys s
    ∧ found_file s' = found_file s ∧ hist s' = hist s
    ∧ (∃ o, out s' = out s ++ o)
    ∧ (∀ k, f_ino dest_file ≠ Some k → blob (fs s') k = blob (fs s) k).
Proof.
  revert src_file dest_file s.
  induction fuel as [|fuel IH]; intros src_file dest_file s Hbuf Hdiff Hfuel;
    [lia|].
  simpl. unfold bind at 1. rewrite fread_run. simpl.
  set (buffer := take 1024 (drop (f_pos src_file) (stream_data s src_file))).
  destruct (Nat.ltb_spec 0 (length buffer)) as [Hread|Hend].
  2: { eexists _, _, s. split; [done|]. unfold wrote, touched, disk_only; split_and!; try done.
       exists []. by rewrite app_nil_r. }
  destruct Hdiff as [Hdiff|Hnil].
  2: { unfold buffer in Hread. rewrite Hnil in Hread. simpl in Hread. lia. }
  destruct (fwrite_touched buffer dest_file s)
    as (n & dest_file' & s1 & Hrun & Hino & Hd & Ht & Hb).
  unfold bind at 1. rewrite Hrun. simpl.
  destruct Hd as (Hsys & Hfound & Hout & Hhist).
  destruct (n =? length buffer); simpl.
  - set (src_file' := mkFILE (f_ino src_file)
                        (f_pos src_file + length buffer) (f_buf src_file)).
    assert (Hdata : stream_data s1 src_file' = stream_data s src_file).
    { unfold stream_data. simpl. destruct (f_ino src_file) as [i|]; [|done].
      apply Hb. congruence. }
    destruct (IH src_file' dest_file' s1)
      as (b & d & s' & Hloop & Hino' & Ht' & Hsys' & Hfound' & Hhist'
          & [o Ho] & Hb').
    { done. }
    { left. simpl. congruence. }
    { rewrite Hdata. simpl.
      assert (length buffer
              ≤ length (stream_data s src_file) - f_pos src_file)
        by (unfold buffer; rewrite length_take, length_drop; lia).
      lia. }
    exists b, d, s'. split; [done|]. unfold wrote, touched, disk_only; split_and!; try congruence.
    + exists o. congruence.
    + intros k Hk. rewrite Hb' by congruence. by apply Hb.
  - unfold bind at 1, perror, eprintf, modify.
    unfold bind at 1. rewrite Hbuf, fclose_empty.
    destruct (fclose_touched dest_file'
                (with_out (out s1 ++ [Stderr "fwrite"]) s1))
      as (s2 & Hclose & (Hsys2 & Hfound2 & Hout2 & Hhist2) & Ht2 & Hb2).
    unfold bind at 1. rewrite Hclose.
    eexists _, _, s2. split; [done|]. simpl in *.
    split_and!; try congruence.
    + eexists. by rewrite Hout2, Hout.
    + intros k Hk. rewrite Hb2 by congruence. by apply Hb.
Qed.

(** With room on the device for the bytes left to read and those in the
    buffer of the destination, the loop takes every byte. *)
Lemma copy_loop_room fuel src_file dest_file j s :
  f_ino dest_file = Some j → f_ino src_file ≠ Some j →
  length (f_buf dest_file)
  + (length (stream_data s src_file) - f_pos src_file) ≤ free s →
  length (stream_data s src_file) - f_pos src_file < fuel →
  ∃ dest_file' w s',
    copy_loop fuel src_file dest_file s = Some ((true, dest_file'), s')
    ∧ f_ino dest_file' = Some j
    ∧ wrote j w s s'
    ∧ w ++ f_buf dest_file'
      = f_buf dest_file ++ drop (f_pos src_file) (stream_data s src_file).
Proof.
  revert src_file dest_file s.
  induction fuel as [|fuel IH]; intros src_file dest_file s Hj Hi Hroom Hfuel;
    [lia|].
  simpl. unfold bind at 1. rewrite fread_run. simpl.
  set (data := stream_data s src_file) in *.
  set (buffer := take 1024 (drop (f_pos src_file) data)).
  assert (Hlen : length buffer ≤ length data - f_pos src_file)
    by (unfold buffer; rewrite length_take, length_drop; lia).
  destruct (Nat.ltb_spec 0 (length buffer)) as [Hread|Hend].
  2: { eexists _, [], s. split; [done|]. split; [done|].
       split; [apply wrote_nil|]. simpl.
       assert (drop (f_pos src_file) data = []) as ->;
         [|by rewrite app_nil_r].
       apply nil_length_inv. unfold buffer in Hend.
       rewrite length_take in Hend. lia. }
  destruct (fwrite_room buffer dest_file j s Hj)
    as (dest_file' & w & s1 & Hrun & Hj' & Hw & Hbytes); [lia|].
  unfold bind at 1. rewrite Hrun. simpl. rewrite Nat.eqb_refl. simpl.
  set (src_file' := mkFILE (f_ino src_file)
                      (f_pos src_file + length buffer) (f_buf src_file)).
  assert (Hdata : stream_data s1 src_file' = data).
  { apply (touched_stream_data (Some j) src_file' s s1 (proj1 Hw)). done. }
  destruct (IH src_file' dest_file' s1)
    as (d & w' & s' & Hloop & Hj'' & Hw' & Hbytes'); [done|done| | |].
  { rewrite Hdata. simpl. destruct Hw as (_ & _ & Hfree).
    apply (f_equal length) in Hbytes. rewrite !length_app in Hbytes. lia. }
  { rewrite Hdata. simpl. lia. }
  exists d, (w ++ w'), s'. split; [done|]. split; [done|].
  split; [by eapply wrote_trans|].
  rewrite <- app_assoc, Hbytes', app_assoc, Hbytes, Hdata. simpl.
  rewrite <- app_assoc. f_equal. unfold buffer.
  by rewrite <- drop_drop, take_drop_length.
Qed.

(** Bytes that fit into the buffer of the destination stay there: the loop
    reads the source to its end and writes nothing. *)
Lemma copy_loop_buffered fuel src_file dest_file s :
  length (f_buf dest_file)
  + (length (stream_data s src_file) - f_pos src_file) ≤ bufsiz (sys s) →
  length (stream_data s src_file) - f_pos src_file < fuel →
  copy_loop fuel src_file dest_file s
  = Some ((true, mkFILE (f_ino dest_file) (f_pos dest_file)
                   (f_buf dest_file
                    ++ drop (f_pos src_file) (stream_data s src_file))), s).
Proof.
  revert src_file dest_file.
  induction fuel as [|fuel IH]; intros src_file dest_file Hroom Hfuel;
    [lia|].
  simpl. unfold bind at 1. rewrite fread_run. simpl.
  set (data := stream_data s src_file) in *.
  set (buffer := take 1024 (drop (f_pos src_file) data)).
  assert (Hlen : length buffer ≤ length data - f_pos src_file)
    by (unfold buffer; rewrite length_take, length_drop; lia).
  destruct (Nat.ltb_spec 0 (length buffer)) as [Hread|Hend].
  2: { assert (drop (f_pos src_file) data = []) as ->.
       { apply nil_length_inv. unfold buffer in Hend.
         rewrite length_take in Hend. lia. }
       rewrite app_nil_r. by destruct dest_file. }
  unfold fwrite. unfold bind at 1, gets. unfold bind at 1.
  destruct (Nat.leb_spec (length buffer)
              (bufsiz (sys s) - length (f_buf dest_file))) as [_|Hover];
    [|exfalso; clearbody buffer data; lia].
  unfold ret. simpl. rewrite Nat.eqb_refl. simpl.
  set (src_file' := mkFILE (f_ino src_file)
                      (f_pos src_file + length buffer) (f_buf src_file)).
  assert (Hdata : stream_data s src_file' = data) by done.
  rewrite IH; rewrite Hdata; simpl.
  - do 3 f_equal. rewrite <- app_assoc. f_equal. unfold buffer.
    by rewrite <- drop_drop, take_drop_length.
  - rewrite length_app. lia.
  - lia.
Qed.


(** ** Opening files *)

Lemma fresh_ino_used (d : disk) (c : path) (i : ino) :
  tree d !! c = Some (File i) → i ≠ fresh_ino d.
Proof.
  intros Hc. unfold fresh_ino.
  assert (i ≤ max_list (elements (dom (blobs d))
                        ++ omap node_ino (snd <$> map_to_list (tree d))));
    [|lia].
  apply max_list_elem_of_le, elem_of_app. right.
  apply list_elem_of_omap. exists (File i). split; [|done].
  apply list_elem_of_fmap. exists (c, File i). split; [done|].
  by apply elem_of_map_to_list.
Qed.

Lemma fresh_ino_blob (d : disk) : blobs d !! fresh_ino d = None.
Proof.
  apply not_elem_of_dom. intros Hin. unfold fresh_ino in Hin.
  set (l := elements (dom (blobs d))
            ++ omap node_ino (snd <$> map_to_list (tree d))) in *.
  assert (S (max_list l) ≤ max_list l); [|lia].
  apply max_list_elem_of_le, elem_of_app. left. by apply elem_of_elements.
Qed.

(** [fopen(p, "wb")] returns; a stream it gives is on an empty file at the
    place [p] leads to, and the other files are as they were. *)
Lemma open_trunc_touched p s :
  ∃ o s', open_trunc p s = Some (o, s')
          ∧ disk_only s s'
          ∧ same_skeleton (tree (fs s)) (tree (fs s'))
          ∧ (o = None → s' = s)
          ∧ ∀ f, o = Some f →
              ∃ j q, f = mkFILE (Some j) 0 []
                   ∧ resolve (sys s) (tree (fs s)) p = Ok q
                   ∧ tree (fs s') = <[q := File j]> (tree (fs s))
                   ∧ (tree (fs s) !! q = Some (File j)
                      ∨ (tree (fs s) !! q = None
                         ∧ ∀ c i, tree (fs s) !! c = Some (File i) → i ≠ j))
                   ∧ blob (fs s') j = []
                   ∧ (∀ k, k ≠ j → blob (fs s') k = blob (fs s) k)
                   ∧ free s' = free s
                               + length (default [] (content (fs s) q)).
Proof.
  unfold open_trunc, content.
  destruct (resolve _ _ p) as [c|x]; [|by exists None, s; split_and!;
    try done; apply same_skeleton_refl].
  destruct (tree (fs s) !! c) as [[j| |t]|] eqn:Hc;
    try (by exists None, s; split_and!; try done; apply same_skeleton_refl).
  - eexists _, _. split; [done|]. split_and!; try done.
    intros f [= <-]. exists j, c. rewrite Hc. simpl.
    split_and!; try done.
    + by rewrite insert_id.
    + by left.
    + apply blob_insert_eq.
    + intros k Hk. by apply blob_insert_ne.
  - eexists _, _. split; [done|]. split_and!; try done.
    { simpl. apply same_skeleton_insert_file. by left. }
    intros f [= <-]. eexists _, c. rewrite Hc. simpl.
    split_and!; try done.
    + right. split; [done|]. intros q i. apply fresh_ino_used.
    + apply blob_insert_eq.
    + intros k Hk. by apply blob_insert_ne.
Qed.

(** [fopen(p, "wb")] on a path that leads to a regular file or to a place
    where nothing is. *)
Lemma open_trunc_file p s c :
  resolve (sys s) (tree (fs s)) p = Ok c →
  tree (fs s) !! c = None ∨ (∃ j, tree (fs s) !! c = Some (File j)) →
  ∃ j s', open_trunc p s = Some (Some (mkFILE (Some j) 0 []), s')
          ∧ disk_only s s'
          ∧ tree (fs s') = <[c := File j]> (tree (fs s))
          ∧ blob (fs s') j = []
          ∧ (∀ k, k ≠ j → blob (fs s') k = blob (fs s) k)
          ∧ free s' = free s + length (default [] (content (fs s) c))
          ∧ (tree (fs s) !! c = Some (File j)
             ∨ (tree (fs s) !! c = None
                ∧ ∀ q i, tree (fs s) !! q = Some (File i) → i ≠ j)).
Proof.
  intros Hres Hc. unfold open_trunc. rewrite Hres. unfold content.
  destruct Hc as [Hc|[j Hc]]; rewrite Hc.
  - eexists _, _. split; [done|]. split_and!; try done; simpl.
    + apply blob_insert_eq.
    + intros k Hk. by apply blob_insert_ne.
    + right. split; [done|]. intros q i. apply fresh_ino_used.
  - eexists _, _. split; [done|]. split_and!; try done; simpl.
    + by rewrite insert_id.
    + apply blob_insert_eq.
    + intros k Hk. by apply blob_insert_ne.
    + by left.
Qed.

Lemma fopen_rb_run p s :
  fopen_rb p s
  = Some (match resolve (sys s) (tree (fs s)) p with
          | Ok c =>
              match tree (fs s) !! c with
              | Some (File i) => Some (mkFILE (Some i) 0 [])
              | Some Dir => Some (mkFILE None 0 [])
              | _ => None
              end
          | Fail _ => None
          end, s).
Proof. done. Qed.

(** What [fopen(p, "rb")] gives is a stream at the start of the bytes
    of [p]. *)
Lemma fopen_rb_stream p s f :
  fopen_rb p s = Some (Some f, s) →
  f_pos f = 0 ∧ f_buf f = [] ∧ stream_data s f = file_data s p.
Proof.
  rewrite fopen_rb_run. unfold file_data, stream_data, content.
  destruct (resolve _ _ p) as [c|]; [|done].
  destruct (tree (fs s) !! c) as [[i| |t]|]; try done; by intros [= <-].
Qed.

(** ** Copying and moving *)

Lemma rename_runs src dest s :
  ∃ b s', rename src dest s = Some (b, s') ∧ disk_only s s'.
Proof.
  unfold rename. repeat case_match; by eexists _, _.
Qed.

(** A copy returns when the fuel exceeds the length of the source.  Either
    no destination was opened and the disk is as it was, or the entry the
    destination leads to is the only one that changed, and its file the
    only one whose bytes did. *)
Lemma copy_file_cases fuel g src dest s :
  operation g = Some "-cp" →
  length (file_data s src) < fuel →
  ∃ s', copy_or_move_file fuel g src dest s = Some (tt, s')
    ∧ hist s' = hist s ++ [Transfer src dest]
    ∧ found_file s' = found_file s
    ∧ sys s' = sys s
    ∧ (∃ o, out s' = out s ++ o)
    ∧ ((fs s' = fs s ∧ free s' = free s)
       ∨ ∃ j q, resolve (sys s) (tree (fs s)) dest = Ok q
           ∧ tree (fs s') = <[q := File j]> (tree (fs s))
           ∧ (tree (fs s) !! q = Some (File j)
              ∨ (tree (fs s) !! q = None
                 ∧ ∀ c i, tree (fs s) !! c = Some (File i) → i ≠ j))
           ∧ ∀ k, k ≠ j → blob (fs s') k = blob (fs s) k).
Proof.
  intros Hop Hfuel. unfold copy_or_move_file.
  unfold bind at 1, note, modify. rewrite Hop.
  set (s0 := with_hist (hist s ++ [Transfer src dest]) s).
  assert (Hdata : file_data s0 src = file_data s src) by done.
  change (strcmp "-cp" "-cp" =? 0)%Z with true. cbv iota.
  unfold bind at 1.
  destruct (fopen_rb src s0) as [[[src_file|] s1]|] eqn:Hopen;
    [|rewrite fopen_rb_run in Hopen; injection Hopen as _ <-;
      eexists; (split; [done|]); simpl; split_and!; try done;
      [by eexists|by left]|by rewrite fopen_rb_run in Hopen].
  assert (s1 = s0) as ->
    by (rewrite fopen_rb_run in Hopen; by injection Hopen).
  destruct (fopen_rb_stream _ _ _ Hopen) as (Hpos & Hbuf & Hsrc).
  destruct (open_trunc_touched dest s0)
    as (o & s2 & Hrun & (Hsys & Hfound & Hout & Hhist) & _ & Hnone & Hsome).
  unfold fopen_wb. unfold bind at 1. rewrite Hrun.
  destruct o as [dest_file|].
  2: { rewrite (Hnone eq_refl). unfold perror, eprintf, modify.
       unfold bind at 1.
       destruct src_file as [o pos buf]. simpl in Hbuf. subst buf.
       rewrite fclose_empty. eexists. split; [done|]. simpl.
       split_and!; try done; [by eexists|by left]. }
  destruct (Hsome dest_file eq_refl)
    as (j & q & -> & Hq & Htree & Hold & Hempty & Hother & _).
  destruct (copy_loop_touched fuel src_file (mkFILE (Some j) 0 []) s2)
    as (b & d & s3 & Hloop & Hino & Htree3 & Hsys3 & Hfound3 & Hhist3
        & [o3 Hout3] & Hblob3).
  { done. }
  { unfold stream_data. rewrite Hpos. simpl.
    destruct (f_ino src_file) as [i|]; [|by right].
    destruct (decide (i = j)) as [->|Hne]; [by right; rewrite Hempty|].
    left. congruence. }
  { rewrite Hpos, Nat.sub_0_r.
    assert (Hle : length (stream_data s2 src_file)
                  ≤ length (stream_data s0 src_file));
      [|rewrite Hsrc, Hdata in Hle; lia].
    unfold stream_data. destruct (f_ino src_file) as [i|]; [|done].
    destruct (decide (i = j)) as [->|Hne].
    - rewrite Hempty. simpl. lia.
    - by rewrite Hother. }
  unfold bind at 1. rewrite Hloop.
  assert (Hframe : ∀ s', tree (fs s') = tree (fs s3) →
            (∀ k, Some j ≠ Some k → blob (fs s') k = blob (fs s3) k) →
            ∃ j0 q0, resolve (sys s) (tree (fs s)) dest = Ok q0
              ∧ tree (fs s') = <[q0 := File j0]> (tree (fs s))
              ∧ (tree (fs s) !! q0 = Some (File j0)
                 ∨ (tree (fs s) !! q0 = None
                    ∧ ∀ c i, tree (fs s) !! c = Some (File i) → i ≠ j0))
              ∧ ∀ k, k ≠ j0 → blob (fs s') k = blob (fs s) k).
  { intros s' Ht Hb. exists j, q. split; [done|].
    split; [by rewrite Ht, Htree3, Htree|].
    split; [done|]. intros k Hk.
    rewrite Hb, Hblob3 by (simpl; congruence). by apply Hother. }
  simpl in Hblob3.
  destruct b.
  2: { eexists. split; [done|]. simpl in *.
       split_and!; try congruence.
       - exists o3. congruence.
       - right. by apply Hframe. }
  destruct src_file as [o pos buf]. simpl in Hbuf. subst buf.
  unfold bind at 1. rewrite fclose_empty.
  destruct (fclose_touched d s3)
    as (s4 & Hclose & (Hsys4 & Hfound4 & Hout4 & Hhist4) & Htree4 & Hblob4).
  unfold bind at 1. rewrite Hclose.
  unfold bind, printf, modify. eexists. split; [done|]. simpl in *.
  split_and!; try congruence.
  - eexists. rewrite Hout4, Hout3, Hout. by rewrite <- !app_assoc.
  - right. apply Hframe; simpl; [done|].
    intros k Hk. apply Hblob4. congruence.
Qed.

(** [copy_or_move_file] returns when the fuel exceeds the length of the
    source. *)
Lemma copy_or_move_file_runs fuel g src dest s op :
  operation g = Some op →
  length (file_data s src) < fuel →
  ∃ s', copy_or_move_file fuel g src dest s = Some (tt, s')
    ∧ hist s' = hist s ++ [Transfer src dest]
    ∧ found_file s' = found_file s
    ∧ sys s' = sys s.
Proof.
  intros Hop Hfuel.
  destruct (strcmp op "-cp" =? 0)%Z eqn:Hcp.
  { apply strcmp_0 in Hcp as ->.
    destruct (copy_file_cases fuel g src dest s Hop Hfuel)
      as (s' & ? & ? & ? & ? & _). by exists s'. }
  unfold copy_or_move_file.
  unfold bind at 1, note, modify. rewrite Hop, Hcp.
  set (s0 := with_hist (hist s ++ [Transfer src dest]) s).
  destruct (strcmp op "-mv" =? 0)%Z; [|by eexists].
  destruct (rename_runs src dest s0)
    as (b & s1 & Hrun & Hsys & Hfound & Hout & Hhist).
  unfold bind at 1. rewrite Hrun.
  destruct b; simpl; unfold bind, perror, eprintf, printf, modify;
    eexists; (split; [done|]); simpl in *; split_and!; congruence.
Qed.

(** The two streams of a copy from the regular file at [c] to a place [q]
    where nothing is, or another regular file: the source is opened, the
    destination is opened and empty. *)
Lemma copy_opens src dest s c i q :
  resolve (sys s) (tree (fs s)) src = Ok c →
  tree (fs s) !! c = Some (File i) →
  resolve (sys s) (tree (fs s)) dest = Ok q →
  tree (fs s) !! q = None ∨ (∃ j, tree (fs s) !! q = Some (File j) ∧ j ≠ i) →
  fopen_rb src s = Some (Some (mkFILE (Some i) 0 []), s)
  ∧ ∃ j s', fopen_wb dest s = Some (Some (mkFILE (Some j) 0 []), s')
      ∧ disk_only s s'
      ∧ j ≠ i
      ∧ tree (fs s') = <[q := File j]> (tree (fs s))
      ∧ (tree (fs s) !! q = Some (File j)
         ∨ (tree (fs s) !! q = None
            ∧ ∀ c i, tree (fs s) !! c = Some (File i) → i ≠ j))
      ∧ blob (fs s') j = []
      ∧ (∀ k, k ≠ j → blob (fs s') k = blob (fs s) k)
      ∧ free s' = free s + length (default [] (content (fs s) q)).
Proof.
  intros Hc Hi Hq Hdest. split.
  { rewrite fopen_rb_run. by rewrite Hc, Hi. }
  destruct (open_trunc_file dest s q Hq) as (j & s' & Hrun & Hrest).
  { destruct Hdest as [?|(j & ? & _)]; [by left|right; by exists j]. }
  exists j, s'. split; [done|].
  destruct Hrest as (? & ? & ? & ? & ? & Hold). split_and!; try done.
  destruct Hold as [Hj|[_ Hfresh]].
  - destruct Hdest as [?|(j' & ? & ?)]; congruence.
  - intros ->. by apply (Hfresh c i).
Qed.

(** A copy with room on the device for the bytes of the source. *)
Lemma copy_file_room fuel g src dest s c i q :
  operation g = Some "-cp" →
  resolve (sys s) (tree (fs s)) src = Ok c →
  tree (fs s) !! c = Some (File i) →
  resolve (sys s) (tree (fs s)) dest = Ok q →
  tree (fs s) !! q = None ∨ (∃ j, tree (fs s) !! q = Some (File j) ∧ j ≠ i) →
  length (blob (fs s) i)
  ≤ free s + length (default [] (content (fs s) q)) →
  length (blob (fs s) i) < fuel →
  ∃ j s', copy_or_move_file fuel g src dest s = Some (tt, s')
    ∧ hist s' = hist s ++ [Transfer src dest]
    ∧ found_file s' = found_file s
    ∧ sys s' = sys s
    ∧ out s' = out s ++ copied
    ∧ j ≠ i
    ∧ tree (fs s') = <[q := File j]> (tree (fs s))
    ∧ (tree (fs s) !! q = Some (File j)
       ∨ (tree (fs s) !! q = None
          ∧ ∀ c i, tree (fs s) !! c = Some (File i) → i ≠ j))
    ∧ blob (fs s') j = blob (fs s) i
    ∧ (∀ k, k ≠ j → blob (fs s') k = blob (fs s) k)
    ∧ free s' + length (blob (fs s) i)
      = free s + length (default [] (content (fs s) q)).
Proof.
  intros Hop Hc Hi Hq Hdest Hroom Hfuel. unfold copy_or_move_file.
  unfold bind at 1, note, modify. rewrite Hop.
  set (s0 := with_hist (hist s ++ [Transfer src dest]) s).
  change (strcmp "-cp" "-cp" =? 0)%Z with true. cbv iota.
  destruct (copy_opens src dest s0 c i q Hc Hi Hq Hdest)
    as (Hsrc & j & s1 & Hdst & (Hsys & Hfound & Hout & Hhist) & Hji & Htree
        & Hold & Hempty & Hother & Hfree).
  unfold bind at 1. rewrite Hsrc.
  unfold bind at 1. rewrite Hdst.
  assert (Hdata : blob (fs s1) i = blob (fs s) i) by (by apply Hother).
  destruct (copy_loop_room fuel (mkFILE (Some i) 0 []) (mkFILE (Some j) 0 [])
              j s1) as (d & w & s2 & Hloop & Hj & Hw & Hbytes);
    [done|simpl; congruence|..].
  { simpl. unfold stream_data. simpl. rewrite Hdata, Hfree. simpl in *. lia. }
  { simpl. unfold stream_data. simpl. rewrite Hdata. lia. }
  unfold bind at 1. rewrite Hloop.
  unfold bind at 1. rewrite fclose_empty.
  simpl in Hbytes. unfold stream_data in Hbytes. simpl in Hbytes.
  rewrite Hdata, drop_0 in Hbytes.
  destruct Hw as (((Hsys2 & Hfound2 & Hout2 & Hhist2) & Htree2 & Hother2)
                  & Hblob2 & Hfree2).
  destruct (write_all_room j (f_buf d) s2) as (s3 & Hclose & Hw3).
  { apply (f_equal length) in Hbytes. rewrite length_app in Hbytes.
    simpl in *. lia. }
  destruct Hw3 as (((Hsys3 & Hfound3 & Hout3 & Hhist3) & Htree3 & Hother3)
                   & Hblob3 & Hfree3).
  unfold fclose. unfold bind at 1. unfold bind at 1. rewrite Hj, Hclose.
  unfold bind, printf, modify, ret. exists j. eexists. split; [done|].
  simpl in *. split_and!; try congruence.
  - rewrite Hout3, Hout2, Hout. by rewrite <- app_assoc.
  - by rewrite Hblob3, Hblob2, Hempty, <- Hbytes.
  - intros k Hk. rewrite Hother3, Hother2 by congruence. by apply Hother.
  - apply (f_equal length) in Hbytes. rewrite length_app in Hbytes. lia.
Qed.

(** A copy of bytes that fit into the buffer of the destination stream:
    they are written when the stream is closed, as far as the device has
    room, and the copy is reported as done. *)
Lemma copy_file_buffered fuel g src dest s c i q :
  operation g = Some "-cp" →
  resolve (sys s) (tree (fs s)) src = Ok c →
  tree (fs s) !! c = Some (File i) →
  resolve (sys s) (tree (fs s)) dest = Ok q →
  tree (fs s) !! q = None ∨ (∃ j, tree (fs s) !! q = Some (File j) ∧ j ≠ i) →
  length (blob (fs s) i) ≤ bufsiz (sys s) →
  length (blob (fs s) i) < fuel →
  ∃ j s', copy_or_move_file fuel g src dest s = Some (tt, s')
    ∧ out s' = out s ++ copied
    ∧ j ≠ i
    ∧ tree (fs s') = <[q := File j]> (tree (fs s))
    ∧ blob (fs s') j
      = take (free s + length (default [] (content (fs s) q)))
          (blob (fs s) i)
    ∧ (∀ k, k ≠ j → blob (fs s') k = blob (fs s) k).
Proof.
  intros Hop Hc Hi Hq Hdest Hroom Hfuel. unfold copy_or_move_file.
  unfold bind at 1, note, modify. rewrite Hop.
  set (s0 := with_hist (hist s ++ [Transfer src dest]) s).
  change (strcmp "-cp" "-cp" =? 0)%Z with true. cbv iota.
  destruct (copy_opens src dest s0 c i q Hc Hi Hq Hdest)
    as (Hsrc & j & s1 & Hdst & (Hsys & Hfound & Hout & Hhist) & Hji & Htree
        & Hold & Hempty & Hother & Hfree).
  unfold bind at 1. rewrite Hsrc.
  unfold bind at 1. rewrite Hdst.
  assert (Hdata : blob (fs s1) i = blob (fs s) i) by (by apply Hother).
  unfold bind at 1. rewrite copy_loop_buffered; simpl;
    unfold stream_data; simpl; rewrite ?Hdata, ?Hsys; simpl; [|lia..].
  unfold bind at 1. rewrite fclose_empty.
  unfold fclose. unfold bind at 1. unfold bind at 1.
  unfold write_all. simpl.
  destruct (blob (fs s) i) as [|x data] eqn:Hbytes.
  { unfold bind, printf, modify, ret. exists j. eexists. split; [done|].
    simpl in *. split_and!; try done.
    - rewrite Hout. by rewrite <- app_assoc.
    - by rewrite take_nil. }
  unfold bind, printf, modify, ret. exists j. eexists. split; [done|].
  simpl in *. split_and!; try done.
  - rewrite Hout. by rewrite <- app_assoc.
  - rewrite blob_insert_eq, Hempty, Hfree. simpl.
    destruct (free s + length (default [] (content (fs s) q))) as [|n];
      [done|].
    simpl. f_equal. apply take_min_length.
  - intros k Hk. rewrite blob_insert_ne by done. by apply Hother.
Qed.

(** ** The start and the end of a walk *)

Lemma leaf_app (d rel : path) : rel ≠ [] → leaf (d ++ rel) = leaf rel.
Proof.
  intros Hne. destruct rel as [|n rel _] using rev_ind; [done|].
  by rewrite app_assoc, !leaf_snoc.
Qed.

Lemma basename_spell top rel :
  rel ≠ [] → Forall plain rel → basename (spell top rel) = leaf rel.
Proof.
  intros Hne Hplain. destruct rel as [|n rel _] using rev_ind; [done|].
  apply Forall_snoc_inv in Hplain as [_ Hn].
  by rewrite spell_snoc, basename_child, leaf_snoc.
Qed.

Lemma visit_hist (fn : callback) fpath flag ftwbuf s r s' :
  (∀ p flag ftwbuf, append_only (fn p flag ftwbuf)) →
  visit fn fpath flag ftwbuf s = Some (r, s') →
  ∃ h, hist s' = hist s ++ Visit fpath flag :: h.
Proof.
  intros Hfn. unfold visit, bind at 1, note, modify. intros Hrun.
  apply Hfn in Hrun as (_ & [h Hh] & _). exists h.
  rewrite Hh. simpl. by rewrite <- app_assoc.
Qed.

(** A walk whose result is not [-1] has handed over the entry it started
    at. *)
Lemma walk_starts fuel (fn : callback) fpath ftwbuf s r s' :
  (∀ p flag ftwbuf, append_only (fn p flag ftwbuf)) →
  walk fuel fn fpath ftwbuf s = Some (r, s') → r ≠ (-1)%Z →
  ∃ flag h, hist s' = hist s ++ Visit fpath flag :: h.
Proof.
  intros Hfn. destruct fuel as [|fuel]; [done|]. simpl.
  unfold bind at 1, lstat, gets.
  destruct (lstat_in _ _ fpath) as [[i| |t]|[]];
    try (intros Hrun _; apply visit_hist in Hrun as [h Hh]; [|done];
         by eexists _, h);
    try (by intros [= <- _]).
  unfold bind at 1, opendir, gets.
  destruct (match resolve _ _ fpath with Ok _ => _ | Fail _ => _ end)
    as [names|]; [|by intros [= <- _]].
  unfold bind at 1.
  destruct (visit fn fpath FTW_D ftwbuf s) as [[r1 s1]|] eqn:Hvisit; [|done].
  apply visit_hist in Hvisit as [h Hh]; [|done].
  destruct (r1 =? 0)%Z.
  - intros Hrun _.
    apply append_only_each_child in Hrun as (_ & [h' Hh'] & _).
    + exists FTW_D, (h ++ h'). by rewrite Hh', Hh, <- app_assoc.
    + intros n. by apply append_only_walk.
  - intros [= _ <-] _. by exists FTW_D, h.
Qed.

Lemma nftw_starts fuel root (fn : callback) s r s' :
  (∀ p flag ftwbuf, append_only (fn p flag ftwbuf)) →
  nftw fuel root fn s = Some (r, s') → r ≠ (-1)%Z →
  ∃ flag h, hist s' = hist s ++ Visit (strip_slashes root) flag :: h.
Proof.
  intros Hfn. unfold nftw, bind at 1, lstat, gets.
  destruct (lstat_in _ _ _); [|by intros [= <- _]].
  by apply walk_starts.
Qed.

(** A root that a symbolic link names is handed over as a link, and not
    entered. *)
Lemma nftw_link_root fuel root (fn : callback) s rp t :
  resolve_entry (sys s) (tree (fs s)) (strip_slashes root) = Ok rp →
  tree (fs s) !! rp = Some (Symlink t) →
  nftw (S fuel) root fn s
  = visit fn (strip_slashes root) FTW_SL
      (mkFTW (root_base (strip_slashes root)) 0) s.
Proof.
  intros Hres Hrp. unfold nftw. simpl.
  unfold bind at 1, lstat, gets, lstat_in. rewrite Hres. simpl. rewrite Hrp.
  unfold bind at 1, lstat, gets, lstat_in. rewrite Hres. simpl.
  by rewrite Hrp.
Qed.

(** The walk over a tree in which the callback passes over every entry:
    only the history grows. *)
Lemma idle_nftw fuel (fn : callback) (φ : string → Prop) root s :
  (∀ fpath flag ftwbuf s1,
     (flag = FTW_F → ¬ φ (from_base fpath ftwbuf)) →
     fn fpath flag ftwbuf s1 = Some (0%Z, s1)) →
  dir_at (sys s) (tree (fs s)) root = true →
  (∀ rp, resolve_entry (sys s) (tree (fs s)) (strip_slashes root) = Ok rp →
         no_file_below (tree (fs s)) rp φ) →
  (∀ c, faulty (sys s) c = false) →
  deep (tree (fs s)) + 1 < fuel →
  ∃ s', nftw fuel root fn s = Some (0%Z, s')
        ∧ fs s' = fs s ∧ free s' = free s ∧ sys s' = sys s
        ∧ found_file s' = found_file s ∧ out s' = out s.
Proof.
  intros Hskip Hroot Hnone Hfault Hfuel.
  apply dir_at_true, strip_slashes_entry in Hroot as (rp & Hres & Hrp).
  specialize (Hnone rp Hres).
  destruct Hrp as [Hdir|[t Hlink]].
  2: { destruct fuel as [|fuel]; [lia|].
       rewrite (nftw_link_root fuel root fn s rp t) by done.
       rewrite visit_skip by (intros s1; by apply Hskip).
       by eexists. }
  set (I := λ s1, fs s1 = fs s ∧ free s1 = free s ∧ sys s1 = sys s
                  ∧ found_file s1 = found_file s ∧ out s1 = out s).
  destruct (nftw_rule fn (sys s) (tree (fs s)) (strip_slashes root) rp I
              (λ _ _, False) Hres Hdir Hfault) with (fuel := fuel)
              (root := root) (s := s)
    as (r & s' & Hrun & H0 & H1).
  - by intros s1 (_ & _ & ? & _).
  - intros s1 (-> & _). apply same_skeleton_refl.
  - intros rel ftwbuf s1 [Hplain Hchain] (Hfs & Hfree & Hsys & Hfound & Hout)
      Hbase.
    eexists _, _. split; [apply visit_skip|].
    + intros s2. apply Hskip. rewrite Hfs.
      intros [i Hfile]%flag_at_F.
      assert (Hne : rel ≠ []).
      { intros ->. rewrite app_nil_r in Hfile. congruence. }
      rewrite (Hbase Hne), <- (leaf_app rp) by done.
      apply (Hnone _ _ Hfile); [by apply prefix_app_r|done].
    + split; [|done]. by intros _.
  - done.
  - done.
  - lia.
  - destruct (Z.eq_dec r 0) as [->|Hr]; [|by destruct (H1 Hr)].
    destruct (H0 eq_refl) as (? & ? & ? & ? & ?). by exists s'.
Qed.

Lemma report_after_walk s :
  found_file s = None →
  report_unless_found s
  = Some (tt, with_out (out s ++ [Stdout "Search Unsuccessful"]) s).
Proof. intros Hf. unfold report_unless_found, bind, gets. by rewrite Hf. Qed.

(** ** Locate and transfer without a storage directory *)

(** A matching entry, when a transfer is asked for and the storage
    directory is missing: the path is recorded, the message printed, and
    the result is 1. *)
Lemma search_and_process_no_storage fuel g fpath ftwbuf op s :
  operation g = Some op →
  from_base fpath ftwbuf = enteredFileName g →
  dir_at (sys s) (tree (fs s)) (storageDir g) = false →
  search_and_process fuel g fpath FTW_F ftwbuf s
  = Some (1%Z, with_out (out s ++ [invalid_storage])
                 (with_hist (hist s ++ [Found fpath])
                    (with_found (Some fpath) s))).
Proof.
  intros Hop Hname Hdir. unfold search_and_process.
  rewrite bool_decide_eq_true_2, Hname, strcmp_refl by done. simpl.
  unfold bind at 1, modify. unfold bind at 1, note, modify. rewrite Hop.
  unfold bind at 1. rewrite directory_exists_run. simpl. by rewrite Hdir.
Qed.

(** Nothing follows the only [Found] of a history that ends in it. *)
Lemma found_is_last (h h1 h2 : list step) p q :
  Forall (λ x, is_found x = false) h →
  h ++ [Found p] = h1 ++ Found q :: h2 →
  h2 = [] ∧ q = p.
Proof.
  intros Hh Heq. destruct h2 as [|x h2 _] using rev_ind.
  - apply app_inj_tail in Heq as [_ [= ->]]. done.
  - rewrite app_comm_cons, app_assoc in Heq.
    apply app_inj_tail in Heq as [-> _].
    rewrite Forall_app, Forall_cons in Hh. by destruct Hh as [_ [? _]].
Qed.

(** The locate-and-transfer run of [main] when the storage directory is
    missing: it exits with status 0, after a walk that ends at the first
    match. *)
Lemma transfer_without_storage_run (fuel : nat)
    (prog root storage op name : string) (f : disk) (space : nat) (e : env) :
  dir_at e (tree f) root = true →
  dir_at e (tree f) storage = false →
  op = "-cp" ∨ op = "-mv" →
  (∀ c, faulty e c = false) →
  deep (tree f) + 1 < fuel →
  ∃ s', main fuel [prog; root; storage; op; name] (boot f space e)
        = Some (0%Z, s')
    ∧ fs s' = f ∧ free s' = space
    ∧ (∃ flag h, hist s' = Visit (strip_slashes root) flag :: h)
    ∧ ((out s' = [Stdout "Search Unsuccessful"]
        ∧ found_file s' = None
        ∧ Forall (λ x, is_found x = false) (hist s'))
       ∨ (∃ h p, hist s' = h ++ [Found p]
            ∧ Forall (λ x, is_found x = false) h
            ∧ last h = Some (Visit p FTW_F)
            ∧ basename p = name
            ∧ found_file s' = Some p
            ∧ out s' = [invalid_storage])).
Proof.
  intros Hroot Hstore Hop Hfault Hfuel. unfold main.
  unfold bind at 1. rewrite directory_exists_run; simpl.
  rewrite Hroot; simpl. rewrite valid_operation by done.
  set (g := Globals name root storage (Some op) "").
  set (s0 := boot f space e).
  set (I := λ s1, fs s1 = f ∧ free s1 = space ∧ sys s1 = e
                  ∧ found_file s1 = None ∧ out s1 = []
                  ∧ Forall (λ x, is_found x = false) (hist s1)).
  set (Q := λ (r : Z) s1, fs s1 = f ∧ free s1 = space
              ∧ ∃ h p, hist s1 = h ++ [Found p]
                  ∧ Forall (λ x, is_found x = false) h
                  ∧ last h = Some (Visit p FTW_F)
                  ∧ basename p = name
                  ∧ found_file s1 = Some p
                  ∧ out s1 = [invalid_storage]).
  assert (Hwalk : ∃ r s', nftw fuel root (search_and_process fuel g) s0
                          = Some (r, s')
                    ∧ (r = 0%Z → I s') ∧ (r ≠ 0%Z → r = 1%Z ∧ Q r s')).
  { pose proof Hroot as Hr.
    apply dir_at_true, strip_slashes_entry in Hr as (rp & Hres & Hrp).
    destruct Hrp as [Hdir|[t Hlink]].
    2: { destruct fuel as [|fuel']; [lia|].
         rewrite (nftw_link_root fuel' root _ s0 rp t) by done.
         rewrite visit_skip
           by (intros s1; by apply search_and_process_skip).
         eexists _, _. split; [done|]. split; [|done]. intros _.
         unfold I. simpl. split_and!; try done.
         by apply Forall_singleton. }
    destruct (nftw_rule (search_and_process fuel g) e (tree f)
                (strip_slashes root) rp I (λ r s1, r = 1%Z ∧ Q r s1)
                Hres Hdir Hfault) with (fuel := fuel) (root := root)
                (s := s0)
      as (r & s' & Hrun & H0 & H1);
      [..|done|by unfold I; simpl; split_and!|lia|by exists r, s'].
    - by intros s1 (_ & _ & ? & _).
    - intros s1 (-> & _). apply same_skeleton_refl.
    - intros rel ftwbuf s1 [Hplain Hchain]
        (Hfs & Hfree & Hsys & Hfound & Hout & Hh) Hbase.
      set (flag := flag_at (tree (fs s1)) (rp ++ rel)).
      destruct (decide (flag = FTW_F
                        ∧ from_base (spell (strip_slashes root) rel) ftwbuf
                          = name)) as [[Hflag Hname]|Hno].
      + assert (Hne : rel ≠ []).
        { intros ->. unfold flag, flag_at in Hflag.
          rewrite Hfs, app_nil_r, Hdir in Hflag. done. }
        unfold visit, bind at 1, note, modify.
        rewrite Hflag, (search_and_process_no_storage fuel g _ _ op);
          [|done|done|simpl; by rewrite Hsys, Hfs].
        eexists _, _. split; [done|]. split; [done|]. intros _.
        split; [done|]. split; [done|]. split; [done|]. simpl.
        eexists (hist s1 ++ [Visit _ FTW_F]), _.
        split; [done|]. rewrite Forall_app, Forall_singleton, Hout.
        split_and!; try done.
        * by rewrite last_snoc.
        * rewrite basename_spell by done. by rewrite <- (Hbase Hne).
      + eexists _, _. split; [apply visit_skip|].
        * intros s2. apply search_and_process_skip.
          intros Hf Hn. by apply Hno.
        * split; [|done]. intros _. unfold I; simpl.
          by rewrite Forall_app, Forall_singleton. }
  destruct Hwalk as (r & s' & Hrun & H0 & H1).
  destruct (nftw_starts fuel root (search_and_process fuel g) s0 r s')
    as (flag & h & Hh);
    [intros; apply append_only_search_and_process | done | |].
  { destruct (decide (r = 0%Z)) as [->|Hr]; [done|].
    by destruct (H1 Hr) as [-> _]. }
  simpl in Hh. unfold bind at 1. rewrite Hrun.
  destruct (decide (r = 0%Z)) as [->|Hr].
  - destruct (H0 eq_refl) as (Hfs & Hfree & Hsys & Hfound & Hout & Hnone).
    simpl. unfold bind at 1. rewrite report_after_walk by done.
    eexists. split; [done|]. simpl.
    split_and!; [done|done|by eexists _, _|]. left. by rewrite Hout.
  - destruct (H1 Hr) as (-> & Hfs & Hfree & h' & p & Hq).
    simpl. unfold report_unless_found, bind, gets.
    destruct Hq as (Hhist & Hnone & Hlast & Hname & Hfound & Hout).
    rewrite Hfound. simpl.
    eexists. split; [done|].
    split_and!; [done|done|by eexists _, _|]. right. by exists h', p.
Qed.

(** * Properties of the specification *)

(** ** The archive *)

(** C1.  The run of the claim's example, archive mode over [a.log],
    [b.log] and [c.txt] with the pattern [.log]: both log files match, and
    when the run completes the archive is empty, while the last matched
    file, [b.log], holds three bytes. *)
Theorem archive_lacks_last_match :
  ∃ s', run_main ["prog"; "r"; "store"; ".log"] logs_tree = Some (0%Z, s')
    ∧ out s' = [Stdout "r/a.log"; Stdout "r/b.log"]
    ∧ content (fs s') ["r"; "b.log"] = Some (bytes_of "BBB")
    ∧ content (fs s') ["store"; "a1.tar"] = Some [].
Proof.
  eexists. split; [by vm_compute|]. repeat split; by vm_compute.
Qed.

(** ** A missing storage directory *)

(** C2.  The run of the claim's example: the target is found and the
    storage directory does not exist.  The condition is reported and the
    file system is left alone, but the exit status is 0, where the archive
    mode exits with 1 on the same condition. *)
Theorem missing_storage_exits_with_0 :
  (∃ s', run_main ["prog"; "r"; "nostore"; "-cp"; "b.log"] logs_tree
         = Some (0%Z, s')
     ∧ found_file s' = Some "r/b.log"
     ∧ out s' = [invalid_storage]
     ∧ fs s' = logs_tree)
  ∧ (∃ s', run_main ["prog"; "r"; "nostore"; ".log"] logs_tree
           = Some (1%Z, s')
       ∧ out s' = [invalid_storage]).
Proof.
  split.
  - eexists. split; [by vm_compute|]. repeat split; by vm_compute.
  - eexists. split; by vm_compute.
Qed.

(** C4, as amended.  In locate+transfer mode, when a matched entry hits a
    storage directory that is not there, the callback returns 1 and that
    ends the traversal: no entry is visited after the matched one. *)
Theorem missing_storage_ends_walk (fuel : nat)
    (prog root storage op name : string) (f : disk) (space : nat) (e : env) :
  dir_at e (tree f) root = true →
  dir_at e (tree f) storage = false →
  op = "-cp" ∨ op = "-mv" →
  (∀ c, faulty e c = false) →
  deep (tree f) + 1 < fuel →
  (∀ fpath ftwbuf s g,
     g = Globals name root storage (Some op) "" →
     from_base fpath ftwbuf = name →
     dir_at (sys s) (tree (fs s)) storage = false →
     ∃ s', search_and_process fuel g fpath FTW_F ftwbuf s = Some (1%Z, s'))
  ∧ ∃ s', main fuel [prog; root; storage; op; name] (boot f space e)
          = Some (0%Z, s')
      ∧ ∀ h1 p h2, hist s' = h1 ++ Found p :: h2 →
          h2 = [] ∧ basename p = name ∧ out s' = [invalid_storage].
Proof.
  intros Hroot Hstore Hop Hfault Hfuel. split.
  { intros fpath ftwbuf s g -> Hname Hdir. eexists.
    by apply (search_and_process_no_storage _ _ _ _ op). }
  destruct (transfer_without_storage_run fuel prog root storage op name f
              space e Hroot Hstore Hop Hfault Hfuel)
    as (s' & Hrun & _ & _ & _ & Hcases).
  exists s'. split; [done|]. intros h1 p h2 Hhist.
  destruct Hcases as [(_ & _ & Hnone)
                     |(h & q & Hq & Hnone & _ & Hname & _ & Hout)].
  - rewrite Hhist, Forall_app, Forall_cons in Hnone.
    by destruct Hnone as [_ [? _]].
  - rewrite Hq in Hhist.
    destruct (found_is_last _ _ _ _ _ Hnone Hhist) as [-> ->]. done.
Qed.

Lemma missing_storage_ends_walk_witness :
  ∃ s', main 8 ["prog"; "r"; "nostore"; "-cp"; "a.txt"]
          (boot twins_tree 4096 plain_env) = Some (0%Z, s')
      ∧ ∀ h1 p h2, hist s' = h1 ++ Found p :: h2 →
          h2 = [] ∧ basename p = "a.txt" ∧ out s' = [invalid_storage].
Proof.
  apply (missing_storage_ends_walk 8 "prog" "r" "nostore" "-cp" "a.txt").
  - vm_compute. reflexivity.
  - vm_compute. reflexivity.
  - by left.
  - reflexivity.
  - vm_compute. lia.
Defined.

(** C4 as stated fails: after the match in [r/d1] met the missing storage
    directory, [r/d2] and the file in it are never visited. *)
Lemma walk_stops_at_missing_storage :
  content twins_tree ["r"; "d2"; "a.txt"] = Some (bytes_of "two")
  ∧ ∃ s', run_main ["prog"; "r"; "nostore"; "-cp"; "a.txt"] twins_tree
          = Some (0%Z, s')
      ∧ hist s' = [ Visit "r" FTW_D; Visit "r/d1" FTW_D;
                    Visit "r/d1/a.txt" FTW_F; Found "r/d1/a.txt" ].
Proof.
  split; [by vm_compute|]. eexists. split; by vm_compute.
Qed.




(** ** Every match is recorded and transferred *)

(** C3, as amended.  In transfer modes the found-file record is set at
    every entry that matches the target name, replacing what an earlier
    match recorded, and the copy/move operation is invoked once for each
    matching entry at which the storage directory exists: no match is
    skipped because another came first. *)
Theorem every_match_is_recorded_and_transferred fuel g fpath ftwbuf op s :
  operation g = Some op →
  from_base fpath ftwbuf = enteredFileName g →
  dir_at (sys s) (tree (fs s)) (storageDir g) = true →
  length (file_data s fpath) < fuel →
  ∃ s', search_and_process fuel g fpath FTW_F ftwbuf s = Some (0%Z, s')
    ∧ found_file s' = Some fpath
    ∧ hist s' = hist s ++ [ Found fpath;
                            Transfer fpath
                              (slash_join (storageDir g)
                                 (enteredFileName g)) ].
Proof.
  intros Hop Hname Hdir Hfuel. unfold search_and_process.
  rewrite bool_decide_eq_true_2, Hname, strcmp_refl by done. simpl.
  unfold bind at 1, modify. unfold bind at 1, note, modify. rewrite Hop.
  unfold bind at 1. rewrite directory_exists_run. simpl. rewrite Hdir. simpl.
  edestruct (copy_or_move_file_runs fuel g fpath
               (slash_join (storageDir g) (enteredFileName g)))
    as (s' & Hrun & Hh & Hf & _);
    [done| |unfold bind at 1; rewrite Hrun].
  - done.
  - exists s'. split; [done|]. rewrite Hf, Hh. simpl.
    by rewrite <- app_assoc.
Qed.

Lemma every_match_is_recorded_and_transferred_witness :
  ∃ s', search_and_process 8
          (Globals "a.txt" "r" "store" (Some "-cp") "")
          "r/d2/a.txt" FTW_F (mkFTW 5 2)
          (with_found (Some "r/d1/a.txt")
             (boot twins_tree 4096 plain_env)) = Some (0%Z, s')
    ∧ found_file s' = Some "r/d2/a.txt"
    ∧ hist s' = [] ++ [ Found "r/d2/a.txt";
                        Transfer "r/d2/a.txt" (slash_join "store" "a.txt") ].
Proof.
  apply (every_match_is_recorded_and_transferred 8
           (Globals "a.txt" "r" "store" (Some "-cp") "")
           "r/d2/a.txt" (mkFTW 5 2) "-cp"
           (with_found (Some "r/d1/a.txt")
              (boot twins_tree 4096 plain_env))).
  - reflexivity.
  - reflexivity.
  - vm_compute. reflexivity.
  - vm_compute. lia.
Defined.

(** C3 as stated fails: with two entries of the target name the record is
    set twice and the copy is invoked twice; the later match is the one
    left in [found_file] and in the storage directory. *)
Lemma two_matches_two_transfers :
  ∃ s', run_main ["prog"; "r"; "store"; "-cp"; "a.txt"] twins_tree
        = Some (0%Z, s')
    ∧ hist s' = [ Visit "r" FTW_D;
                  Visit "r/d1" FTW_D;
                  Visit "r/d1/a.txt" FTW_F;
                  Found "r/d1/a.txt";
                  Transfer "r/d1/a.txt" "store/a.txt";
                  Visit "r/d2" FTW_D;
                  Visit "r/d2/a.txt" FTW_F;
                  Found "r/d2/a.txt";
                  Transfer "r/d2/a.txt" "store/a.txt" ]
    ∧ length (filter (λ x, is_found x = true) (hist s')) = 2
    ∧ length (filter (λ x, is_transfer x = true) (hist s')) = 2
    ∧ found_file s' = Some "r/d2/a.txt"
    ∧ content (fs s') ["store"; "a.txt"] = Some (bytes_of "two").
Proof.
  eexists. split; [by vm_compute|]. repeat split; by vm_compute.
Qed.

(** ** Copying *)

(** C6.  Two runs in which the copy is reported as done and the claim
    fails.  With the storage directory the directory of the found file,
    the destination is the source: opening it for writing empties it, the
    loop reads nothing, and the source is left empty.  On a device without
    room the bytes stay in the buffer of the stream, [fwrite] reports
    them written, and [fclose], whose result is not looked at, cannot
    write them: the destination is left empty. *)
Theorem copy_onto_itself_empties_source :
  content logs_tree ["r"; "b.log"] = Some (bytes_of "BBB")
  ∧ (∃ s', run_main ["prog"; "r"; "r"; "-cp"; "b.log"] logs_tree
           = Some (0%Z, s')
       ∧ out s' = copied
       ∧ content (fs s') ["r"; "b.log"] = Some [])
  ∧ (∃ s', main 8 ["prog"; "r"; "store"; "-cp"; "b.log"]
             (boot logs_tree 0 plain_env) = Some (0%Z, s')
       ∧ out s' = copied
       ∧ content (fs s') ["r"; "b.log"] = Some (bytes_of "BBB")
       ∧ content (fs s') ["store"; "b.log"] = Some []).
Proof.
  split; [by vm_compute|]. split.
  - eexists. split; [by vm_compute|]. split; by vm_compute.
  - eexists. split; [by vm_compute|]. repeat split; by vm_compute.
Qed.

(** ** Moving *)

Lemma rename_cases src dest s p i :
  resolve_entry (sys s) (tree (fs s)) src = Ok p →
  tree (fs s) !! p = Some (File i) →
  rename src dest s = Some (false, s)
  ∨ ∃ q, resolve_entry (sys s) (tree (fs s)) dest = Ok q
         ∧ dev (sys s) p = dev (sys s) q
         ∧ ((tree (fs s) !! q = Some (File i)
             ∧ rename src dest s = Some (true, s))
            ∨ (tree (fs s) !! q ≠ Some (File i)
               ∧ tree (fs s) !! q ≠ Some Dir
               ∧ rename src dest s
                 = Some (true,
                         with_fs (Disk (<[q := File i]>
                                          (delete p (tree (fs s))))
                                       (blobs (fs s))) s))).
Proof.
  intros Hp Hfile. unfold rename. rewrite Hp.
  destruct (resolve_entry _ _ dest) as [q|]; [|by left].
  destruct (Nat.eqb_spec (dev (sys s) p) (dev (sys s) q)) as [Hdev|];
    [|by left].
  simpl. rewrite Hfile.
  destruct (decide (tree (fs s) !! q = Some (File i))) as [Hq|Hq].
  - rewrite bool_decide_eq_true_2 by (right; split; [by eexists|done]).
    right. exists q. split_and!; [done..|]. by left.
  - rewrite bool_decide_eq_false_2.
    2: { intros [->|[_ ?]]; by destruct Hq. }
    destruct (tree (fs s) !! q) as [[j| |t]|] eqn:Hentry; simpl;
      try (by left);
      right; exists q; (split_and!; [done..|]); right; by rewrite Hentry.
Qed.

(** C7, as amended.  For every move of a regular file, either the rename
    cannot be performed and the operation reports failure, leaving the
    file system as it was, or the move is reported as done.  Then the
    destination is an entry for the file, whose bytes are untouched, and
    the source entry no longer exists unless source and destination name
    the same file, as one entry or as two links to one inode, in which
    case nothing has changed. *)
Theorem move_succeeds_or_reports fuel g src dest s p i :
  operation g = Some "-mv" →
  resolve_entry (sys s) (tree (fs s)) src = Ok p →
  tree (fs s) !! p = Some (File i) →
  ∃ s', copy_or_move_file fuel g src dest s = Some (tt, s')
    ∧ blobs (fs s') = blobs (fs s)
    ∧ ((out s' = out s ++ [Stderr "rename"] ∧ fs s' = fs s)
       ∨ (out s' = out s ++ moved
          ∧ ∃ q, resolve_entry (sys s) (tree (fs s)) dest = Ok q
              ∧ content (fs s') q = content (fs s) p
              ∧ ((tree (fs s) !! q = Some (File i) ∧ fs s' = fs s)
                 ∨ (tree (fs s) !! q ≠ Some (File i)
                    ∧ tree (fs s') !! p = None
                    ∧ ∀ c, c ≠ p → c ≠ q →
                           tree (fs s') !! c = tree (fs s) !! c)))).
Proof.
  intros Hop Hp Hfile. unfold copy_or_move_file.
  unfold bind at 1, note, modify. rewrite Hop. simpl.
  set (s0 := with_hist (hist s ++ [Transfer src dest]) s).
  destruct (rename_cases src dest s0 p i Hp Hfile)
    as [Hrun|(q & Hq & _ & [[Hsame Hrun]|(Hother & Hnd & Hrun)])];
    unfold bind at 1; rewrite Hrun; simpl;
    unfold bind, perror, eprintf, printf, modify; simpl.
  - eexists. split; [done|]. split; [done|]. by left.
  - eexists. split; [done|]. split; [done|]. right. simpl.
    split; [by rewrite <- app_assoc|].
    exists q. split; [done|]. split; [|by left].
    unfold content. simpl in *. by rewrite Hsame, Hfile.
  - eexists. split; [done|]. split; [done|]. right. simpl.
    split; [by rewrite <- app_assoc|].
    exists q. split; [done|].
    assert (Hne : p ≠ q) by (intros ->; by destruct Hother).
    split; [|right; split; [done|split]]; simpl in *.
    + unfold content. simpl. by rewrite lookup_insert_eq, Hfile.
    + by rewrite lookup_insert_ne, lookup_delete_eq.
    + intros c Hcp Hcq.
      by rewrite lookup_insert_ne, lookup_delete_ne.
Qed.

Lemma move_succeeds_or_reports_witness :
  ∃ s', copy_or_move_file 8 (Globals "b.log" "r" "store" (Some "-mv") "")
          "r/b.log" "store/b.log" (boot logs_tree 4096 plain_env)
        = Some (tt, s')
    ∧ blobs (fs s') = blobs (fs (boot logs_tree 4096 plain_env))
    ∧ ((out s' = out (boot logs_tree 4096 plain_env) ++ [Stderr "rename"]
        ∧ fs s' = fs (boot logs_tree 4096 plain_env))
       ∨ (out s' = out (boot logs_tree 4096 plain_env) ++ moved
          ∧ ∃ q, resolve_entry plain_env (tree logs_tree) "store/b.log" = Ok q
              ∧ content (fs s') q = content logs_tree ["r"; "b.log"]
              ∧ ((tree logs_tree !! q = Some (File 2)
                  ∧ fs s' = logs_tree)
                 ∨ (tree logs_tree !! q ≠ Some (File 2)
                    ∧ tree (fs s') !! ["r"; "b.log"] = None
                    ∧ ∀ c, c ≠ ["r"; "b.log"] → c ≠ q →
                           tree (fs s') !! c = tree logs_tree !! c)))).
Proof.
  apply (move_succeeds_or_reports 8
           (Globals "b.log" "r" "store" (Some "-mv") "")
           "r/b.log" "store/b.log" (boot logs_tree 4096 plain_env)
           ["r"; "b.log"] 2).
  - reflexivity.
  - vm_compute. reflexivity.
  - vm_compute. reflexivity.
Defined.

(** C7 as stated fails: with the storage directory the directory of the
    found file, however it is spelled, the rename succeeds and does
    nothing; the move is reported as done and the source path still
    exists. *)
Lemma move_onto_itself_keeps_source :
  (∃ s', run_main ["prog"; "r"; "r"; "-mv"; "b.log"] logs_tree
         = Some (0%Z, s')
     ∧ out s' = moved
     ∧ content (fs s') ["r"; "b.log"] = Some (bytes_of "BBB"))
  ∧ (∃ s', run_main ["prog"; "r"; "./r"; "-mv"; "b.log"] logs_tree
           = Some (0%Z, s')
       ∧ out s' = moved
       ∧ content (fs s') ["r"; "b.log"] = Some (bytes_of "BBB")).
Proof.
  split; eexists; (split; [by vm_compute|]); split; by vm_compute.
Qed.

(** ** The extension pattern *)

Lemma search_and_create_tar_reports fuel g fpath flag ftwbuf s r s' :
  flag = FTW_F →
  contains (extension g) (from_base fpath ftwbuf) →
  search_and_create_tar fuel g fpath flag ftwbuf s = Some (r, s') →
  ∃ o, out s' = out s ++ Stdout fpath :: o.
Proof.
  intros -> Hsub%strstr_contains. unfold search_and_create_tar.
  rewrite !bool_decide_eq_true_2 by done. simpl.
  unfold bind at 1, printf, modify. set (s1 := with_out _ s). intros Hrun.
  assert (Hrest : append_only
    (do tarfile <- gzopen_wb (slash_join (storageDir g) "a1.tar");
     match tarfile with
     | None => run perror "gzopen"; ret 1%Z
     | Some tarfile =>
         do tarfile' <- add_file_to_tar fuel fpath (from_base fpath ftwbuf)
                          tarfile;
         run gzclose tarfile';
         ret 0%Z
     end)).
  { unfold gzopen_wb, gzclose, perror. grow. }
  destruct (Hrest s1 r s' Hrun) as ([o Ho] & _).
  exists o. rewrite Ho. subst s1; simpl. by rewrite <- app_assoc.
Qed.

(** C8. In archive mode, a regular file matches the extension pattern if
    and only if its base name, the part of its path from the offset that
    the walk gives, contains the pattern as a substring anywhere, not only
    as a suffix: the callback passes over an entry, leaving the state as
    it was, exactly when the entry is not a regular file whose base name
    contains the pattern, and otherwise reports its path first.  For the
    entry [n] of a directory that part of the path is [n].  In particular
    a file named readme.logfile matches the pattern .log. *)
Theorem extension_match_is_substring fuel g fpath flag ftwbuf s :
  (search_and_create_tar fuel g fpath flag ftwbuf s = Some (0%Z, s)
   ↔ ¬ (flag = FTW_F ∧ contains (extension g) (from_base fpath ftwbuf)))
  ∧ (flag = FTW_F ∧ contains (extension g) (from_base fpath ftwbuf) →
     ∀ r s',
       search_and_create_tar fuel g fpath flag ftwbuf s = Some (r, s') →
       ∃ o, out s' = out s ++ Stdout fpath :: o)
  ∧ (∀ dir n lvl,
       from_base (child_path dir n) (mkFTW (child_base dir) lvl) = n)
  ∧ contains ".log" "readme.logfile"
  ∧ ∃ s', run_main ["prog"; "r"; "store"; ".log"] readme_tree
          = Some (0%Z, s')
      ∧ out s' = [Stdout "r/readme.logfile"].
Proof.
  assert (Hreports :
     flag = FTW_F ∧ contains (extension g) (from_base fpath ftwbuf) →
     ∀ r s',
       search_and_create_tar fuel g fpath flag ftwbuf s = Some (r, s') →
       ∃ o, out s' = out s ++ Stdout fpath :: o).
  { intros [Hflag Hsub] r s' Hrun.
    by eapply search_and_create_tar_reports. }
  split; [split|split; [done|split; [|split]]].
  - intros Hrun Hmatch. destruct (Hreports Hmatch _ _ Hrun) as [o Ho].
    apply (f_equal length) in Ho. rewrite length_app in Ho. simpl in Ho. lia.
  - intros Hno. apply search_and_create_tar_skip. intros Hf Hc. by apply Hno.
  - intros dir n lvl. apply from_base_child.
  - by exists "readme", "file".
  - eexists. split; by vm_compute.
Qed.

(** ** A target that is absent *)

(** C9. For every directory tree in which the target name is absent, locate
    mode, with or without a transfer, prints the search-unsuccessful message
    and the process exits with status 0.  The root is a path that leads to
    a directory, and every directory below it can be read. *)
Theorem locate_absent_unsuccessful (fuel : nat)
    (prog root storage op name : string) (f : disk)
    (space : nat) (e : env) (argv : list string) :
  dir_at e (tree f) root = true →
  (∀ rp, resolve_entry e (tree f) (strip_slashes root) = Ok rp →
         no_file_below (tree f) rp (λ n, n = name)) →
  op = "-cp" ∨ op = "-mv" →
  argv = [prog; root; name] ∨ argv = [prog; root; storage; op; name] →
  (∀ c, faulty e c = false) →
  deep (tree f) + 1 < fuel →
  ∃ s', main fuel argv (boot f space e) = Some (0%Z, s')
        ∧ out s' = [Stdout "Search Unsuccessful"] ∧ fs s' = f.
Proof.
  intros Hroot Habsent Hop Hargv Hfault Hfuel.
  assert (Hwalk : ∀ g, enteredFileName g = name →
    ∃ s', nftw fuel root (search_and_process fuel g) (boot f space e)
          = Some (0%Z, s')
          ∧ fs s' = f ∧ found_file s' = None ∧ out s' = []).
  { intros g Hg.
    destruct (idle_nftw fuel (search_and_process fuel g) (λ n, n = name)
                root (boot f space e))
      as (s' & Hrun & ? & _ & _ & ? & ?); [|done..|by exists s'].
    intros fpath flag ftwbuf s1 Hno.
    apply search_and_process_skip. by rewrite Hg. }
  destruct Hargv as [-> | ->]; unfold main.
  - unfold bind at 1. rewrite directory_exists_run; simpl.
    rewrite Hroot; simpl.
    destruct (Hwalk (Globals name root "" None "") eq_refl)
      as (s' & Hrun & Hfs & Hfound & Hout).
    unfold bind at 1. rewrite Hrun; simpl.
    unfold bind at 1. rewrite report_after_walk by done.
    eexists. split; [done|]. simpl. by rewrite Hout.
  - unfold bind at 1. rewrite directory_exists_run; simpl.
    rewrite Hroot; simpl. rewrite valid_operation by done.
    destruct (Hwalk (Globals name root storage (Some op) "") eq_refl)
      as (s' & Hrun & Hfs & Hfound & Hout).
    unfold bind at 1. rewrite Hrun; simpl.
    unfold bind at 1. rewrite report_after_walk by done.
    eexists. split; [done|]. simpl. by rewrite Hout.
Qed.

Lemma locate_absent_unsuccessful_witness :
  ∃ s', main 8 ["prog"; "r"; "store"; "-cp"; "zzz.log"]
          (boot logs_tree 4096 plain_env) = Some (0%Z, s')
        ∧ out s' = [Stdout "Search Unsuccessful"] ∧ fs s' = logs_tree.
Proof.
  apply (locate_absent_unsuccessful 8 "prog" "r" "store" "-cp" "zzz.log").
  - vm_compute. reflexivity.
  - intros rp Hrp. vm_compute in Hrp. injection Hrp as <-.
    unfold no_file_below. apply (bool_decide_unpack _). vm_compute. exact I.
  - by left.
  - by right.
  - reflexivity.
  - vm_compute. lia.
Defined.



(** * Further properties *)

(** ** What a copy touches *)

(** X1.  A copy changes nothing but its destination: every entry other
    than the one the destination path leads to is as it was, and every
    file keeps its bytes unless the destination path leads to it, by the
    same entry or by another link to its inode. *)
Theorem copy_changes_only_destination fuel g src dest s :
  operation g = Some "-cp" →
  length (file_data s src) < fuel →
  ∃ s', copy_or_move_file fuel g src dest s = Some (tt, s')
    ∧ (∀ c, resolve (sys s) (tree (fs s)) dest ≠ Ok c →
            tree (fs s') !! c = tree (fs s) !! c)
    ∧ (∀ c k, tree (fs s) !! c = Some (File k) →
              (∀ q, resolve (sys s) (tree (fs s)) dest = Ok q →
                    tree (fs s) !! q ≠ Some (File k)) →
              content (fs s') c = content (fs s) c).
Proof.
  intros Hop Hfuel.
  destruct (copy_file_cases fuel g src dest s Hop Hfuel)
    as (s' & Hrun & _ & _ & _ & _ & Hcases).
  exists s'. split; [done|].
  destruct Hcases as [[-> _]|(j & q & Hq & Htree & Hold & Hother)];
    [done|].
  split.
  - intros c Hc. rewrite Htree, lookup_insert_ne; [done|]. congruence.
  - intros c k Hfile Hk. specialize (Hk q Hq).
    assert (Hcq : c ≠ q) by congruence.
    unfold content. rewrite Htree, lookup_insert_ne, Hfile by done.
    f_equal. apply Hother. destruct Hold as [Hj|[_ Hfresh]].
    + congruence.
    + by apply (Hfresh c).
Qed.

Lemma copy_changes_only_destination_witness :
  ∃ s', copy_or_move_file 8 (Globals "b.log" "r" "store" (Some "-cp") "")
          "r/b.log" "store/b.log" (boot logs_tree 4096 plain_env)
        = Some (tt, s')
    ∧ (∀ c, resolve plain_env (tree logs_tree) "store/b.log" ≠ Ok c →
            tree (fs s') !! c = tree logs_tree !! c)
    ∧ (∀ c k, tree logs_tree !! c = Some (File k) →
              (∀ q, resolve plain_env (tree logs_tree) "store/b.log" = Ok q →
                    tree logs_tree !! q ≠ Some (File k)) →
              content (fs s') c = content logs_tree c).
Proof.
  apply (copy_changes_only_destination 8
           (Globals "b.log" "r" "store" (Some "-cp") "")
           "r/b.log" "store/b.log" (boot logs_tree 4096 plain_env)).
  - reflexivity.
  - vm_compute. lia.
Defined.

(** ** A copy on a device without room *)



(** ** A copy that cannot open its files *)

(** X3.  A copy that cannot open a file stops there: when the source path
    leads to no regular file or directory it reports the source, and when
    the source opens but the destination path leads to a directory or
    nowhere it reports the destination; either way no success is printed
    and the file system is left as it was. *)
Theorem copy_open_failure_changes_nothing fuel g src dest s :
  operation g = Some "-cp" →
  can_read (sys s) (tree (fs s)) src = false
  ∨ can_write (sys s) (tree (fs s)) dest = false →
  ∃ s', copy_or_move_file fuel g src dest s = Some (tt, s')
    ∧ fs s' = fs s ∧ free s' = free s
    ∧ out s' = out s ++ [Stderr (if can_read (sys s) (tree (fs s)) src
                                 then "fopen destination file"
                                 else "fopen source file")].
Proof.
  intros Hop Hfail. unfold copy_or_move_file.
  unfold bind at 1, note, modify. rewrite Hop.
  change (strcmp "-cp" "-cp" =? 0)%Z with true; cbv iota.
  unfold bind at 1. rewrite fopen_rb_run. simpl.
  unfold can_read, can_write in *.
  destruct (resolve (sys s) (tree (fs s)) src) as [c|]; [|by eexists].
  destruct (tree (fs s) !! c) as [[i| |t]|] eqn:Hc; try (by eexists).
  - unfold bind at 1, fopen_wb, open_trunc. simpl.
    destruct Hfail as [?|Hfail]; [done|].
    destruct (resolve (sys s) (tree (fs s)) dest) as [q|]; [|by eexists].
    destruct (tree (fs s) !! q) as [[]|]; try done; by eexists.
  - unfold bind at 1, fopen_wb, open_trunc. simpl.
    destruct Hfail as [?|Hfail]; [done|].
    destruct (resolve (sys s) (tree (fs s)) dest) as [q|]; [|by eexists].
    destruct (tree (fs s) !! q) as [[]|]; try done; by eexists.
Qed.

Lemma copy_open_failure_changes_nothing_witness :
  ∃ s', copy_or_move_file 8 (Globals "b.log" "r" "no" (Some "-cp") "")
          "r/b.log" "no/b.log" (boot logs_tree 4096 plain_env)
        = Some (tt, s')
    ∧ fs s' = fs (boot logs_tree 4096 plain_env)
    ∧ free s' = free (boot logs_tree 4096 plain_env)
    ∧ out s' = out (boot logs_tree 4096 plain_env)
               ++ [Stderr (if can_read plain_env (tree logs_tree) "r/b.log"
                           then "fopen destination file"
                           else "fopen source file")].
Proof.
  apply (copy_open_failure_changes_nothing 8
           (Globals "b.log" "r" "no" (Some "-cp") "")
           "r/b.log" "no/b.log" (boot logs_tree 4096 plain_env)).
  - reflexivity.
  - right. vm_compute. reflexivity.
Defined.

(** ** A copy with room *)



(** ** Moving *)

(** X5.  A move between two devices fails: [rename] is not performed, the
    failure is reported, and the file system is left as it was. *)
Theorem move_across_devices_fails fuel g src dest s :
  operation g = Some "-mv" →
  (∀ p q, resolve_entry (sys s) (tree (fs s)) src = Ok p →
          resolve_entry (sys s) (tree (fs s)) dest = Ok q →
          dev (sys s) p ≠ dev (sys s) q) →
  ∃ s', copy_or_move_file fuel g src dest s = Some (tt, s')
    ∧ out s' = out s ++ [Stderr "rename"]
    ∧ fs s' = fs s.
Proof.
  intros Hop Hdev. unfold copy_or_move_file.
  unfold bind at 1, note, modify. rewrite Hop. simpl.
  unfold bind at 1, rename. simpl.
  destruct (resolve_entry (sys s) (tree (fs s)) src) as [p|];
    [|by eexists].
  destruct (resolve_entry (sys s) (tree (fs s)) dest) as [q|];
    [|by eexists].
  specialize (Hdev p q eq_refl eq_refl).
  apply Nat.eqb_neq in Hdev. rewrite Hdev. simpl. by eexists.
Qed.

Lemma move_across_devices_fails_witness :
  ∃ s', copy_or_move_file 8 (Globals "b.log" "r" "store" (Some "-mv") "")
          "r/b.log" "store/b.log"
          (boot logs_tree 4096 store_mounted) = Some (tt, s')
    ∧ out s' = out (boot logs_tree 4096 store_mounted) ++ [Stderr "rename"]
    ∧ fs s' = fs (boot logs_tree 4096 store_mounted).
Proof.
  apply move_across_devices_fails.
  - reflexivity.
  - intros p q Hp Hq. vm_compute in Hp, Hq.
    injection Hp as <-. injection Hq as <-. vm_compute. lia.
Defined.

(** X6.  A move of a regular file within one device, to a destination
    that is no directory and not the file itself, succeeds: the
    destination becomes an entry for the file, whose bytes are untouched,
    the source entry is gone, and the other entries are as they were. *)
Theorem move_succeeds_on_one_device fuel g src dest s p q i :
  operation g = Some "-mv" →
  resolve_entry (sys s) (tree (fs s)) src = Ok p →
  tree (fs s) !! p = Some (File i) →
  resolve_entry (sys s) (tree (fs s)) dest = Ok q →
  dev (sys s) p = dev (sys s) q →
  tree (fs s) !! q ≠ Some Dir →
  tree (fs s) !! q ≠ Some (File i) →
  ∃ s', copy_or_move_file fuel g src dest s = Some (tt, s')
    ∧ out s' = out s ++ moved
    ∧ content (fs s') q = content (fs s) p
    ∧ tree (fs s') !! p = None
    ∧ (∀ c, c ≠ p → c ≠ q → tree (fs s') !! c = tree (fs s) !! c)
    ∧ blobs (fs s') = blobs (fs s).
Proof.
  intros Hop Hp Hfile Hq Hdev Hnd Hother. unfold copy_or_move_file.
  unfold bind at 1, note, modify. rewrite Hop. simpl.
  unfold bind at 1, rename. simpl. rewrite Hp, Hq, Hdev, Nat.eqb_refl. simpl.
  rewrite Hfile. rewrite bool_decide_eq_false_2.
  2: { intros [->|[_ ?]]; by destruct Hother. }
  assert (Hne : p ≠ q) by (intros ->; by destruct Hother).
  assert (is_dir (tree (fs s) !! q) = false) as ->.
  { by destruct (tree (fs s) !! q) as [[]|]. }
  simpl. unfold bind, printf, modify. eexists. split; [done|]. simpl.
  split_and!.
  - by rewrite <- app_assoc.
  - unfold content. simpl. by rewrite lookup_insert_eq, Hfile.
  - by rewrite lookup_insert_ne, lookup_delete_eq.
  - intros c Hcp Hcq. by rewrite lookup_insert_ne, lookup_delete_ne.
  - done.
Qed.

Lemma move_succeeds_on_one_device_witness :
  ∃ s', copy_or_move_file 8 (Globals "b.log" "r" "store" (Some "-mv") "")
          "r/b.log" "store/b.log"
          (boot logs_tree_stored 4096 plain_env) = Some (tt, s')
    ∧ out s' = out (boot logs_tree_stored 4096 plain_env) ++ moved
    ∧ content (fs s') ["store"; "b.log"]
      = content (fs (boot logs_tree_stored 4096 plain_env)) ["r"; "b.log"]
    ∧ tree (fs s') !! ["r"; "b.log"] = None
    ∧ (∀ c, c ≠ ["r"; "b.log"] → c ≠ ["store"; "b.log"] →
            tree (fs s') !! c = tree logs_tree_stored !! c)
    ∧ blobs (fs s') = blobs logs_tree_stored.
Proof.
  apply (move_succeeds_on_one_device 8
           (Globals "b.log" "r" "store" (Some "-mv") "")
           "r/b.log" "store/b.log" (boot logs_tree_stored 4096 plain_env)
           ["r"; "b.log"] ["store"; "b.log"] 2).
  - reflexivity.
  - vm_compute. reflexivity.
  - vm_compute. reflexivity.
  - vm_compute. reflexivity.
  - reflexivity.
  - vm_compute. discriminate.
  - vm_compute. discriminate.
Defined.

(** ** Runs that are rejected *)

(** X7.  A root path that does not lead to a directory (it leads to a
    regular file or nowhere, or it is empty) is rejected in every mode:
    the run prints the invalid-root message on the error stream and exits
    with status 1 without visiting an entry or changing the file
    system. *)
Theorem invalid_root_is_rejected fuel (prog root a2 a3 a4 : string) s
    (argv : list string) :
  dir_at (sys s) (tree (fs s)) root = false →
  argv = [prog; root; a2] ∨ argv = [prog; root; a2; a3]
  ∨ argv = [prog; root; a2; a3; a4] →
  ∃ s', main fuel argv s = Some (1%Z, s')
    ∧ fs s' = fs s ∧ hist s' = hist s ∧ found_file s' = found_file s
    ∧ ∃ o, out s' = out s ++ Stderr "Invalid rootDir" :: o.
Proof.
  intros Hroot [-> | [-> | ->]]; unfold main.
  - unfold bind at 1. rewrite directory_exists_run; simpl.
    rewrite Hroot; simpl.
    eexists. split; [done|]. simpl. by eauto.
  - unfold bind at 1. rewrite directory_exists_run.
    unfold bind at 1. rewrite directory_exists_run. simpl.
    rewrite Hroot; simpl.
    destruct (dir_at (sys s) (tree (fs s)) a2); simpl;
      unfold bind, eprintf, printf, modify, ret; simpl;
      eexists; (split; [done|]); simpl;
      rewrite <- ?app_assoc; by eauto.
  - unfold bind at 1. rewrite directory_exists_run; simpl.
    rewrite Hroot; simpl.
    eexists. split; [done|]. simpl. by eauto.
Qed.

Lemma invalid_root_is_rejected_witness :
  ∃ s', main 8 ["prog"; ""; "store"; ".log"]
          (boot logs_tree 4096 plain_env) = Some (1%Z, s')
    ∧ fs s' = fs (boot logs_tree 4096 plain_env)
    ∧ hist s' = hist (boot logs_tree 4096 plain_env)
    ∧ found_file s' = found_file (boot logs_tree 4096 plain_env)
    ∧ ∃ o, out s' = out (boot logs_tree 4096 plain_env)
                    ++ Stderr "Invalid rootDir" :: o.
Proof.
  apply (invalid_root_is_rejected 8 "prog" "" "store" ".log" "").
  - vm_compute. reflexivity.
  - right. left. reflexivity.
Defined.

(** X8.  A walk that fails is reported: when the root directory cannot be
    opened, [nftw] returns -1 before any entry is handed to the callback,
    and the run prints the [nftw] error and exits with status 1, leaving
    the file system as it was. *)
Theorem failed_walk_is_reported fuel (prog root storage op name ext : string)
    (f : disk) (space : nat) (e : env) (rp : path) (argv : list string) :
  dir_at e (tree f) root = true →
  resolve_entry e (tree f) (strip_slashes root) = Ok rp →
  tree f !! rp = Some Dir →
  faulty e rp = true →
  op = "-cp" ∨ op = "-mv" →
  dir_at e (tree f) storage = true →
  argv = [prog; root; name] ∨ argv = [prog; root; storage; ext]
  ∨ argv = [prog; root; storage; op; name] →
  0 < fuel →
  main fuel argv (boot f space e)
  = Some (1%Z, with_out [Stderr "nftw"] (boot f space e)).
Proof.
  intros Hroot Hres Hdir Hfault Hop Hstore Hargv Hfuel.
  assert (Hwalk : ∀ fn, nftw fuel root fn (boot f space e)
                        = Some ((-1)%Z, boot f space e)).
  { intros fn. destruct fuel as [|fuel]; [lia|].
    unfold nftw. unfold bind at 1.
    pose proof (walk_lstat e (tree f) (strip_slashes root) rp []
                  (boot f space e) Hres Hdir eq_refl
                  (same_skeleton_refl _) (leads_nil _ _)) as Hl.
    simpl in Hl. rewrite app_nil_r, Hdir in Hl. rewrite Hl.
    simpl. unfold bind at 1. rewrite Hl.
    pose proof (walk_opendir e (tree f) (strip_slashes root) rp []
                  (boot f space e) Hres Hdir eq_refl
                  (same_skeleton_refl _) (leads_nil _ _)) as Ho.
    simpl in Ho. rewrite app_nil_r, Hfault in Ho.
    unfold bind at 1. by rewrite Ho. }
  destruct Hargv as [-> | [-> | ->]]; unfold main.
  - unfold bind at 1. rewrite directory_exists_run; simpl.
    rewrite Hroot; simpl. unfold bind at 1. by rewrite Hwalk.
  - unfold bind at 1. rewrite directory_exists_run.
    unfold bind at 1. rewrite directory_exists_run. simpl.
    rewrite Hroot, Hstore; simpl. unfold bind at 1. by rewrite Hwalk.
  - unfold bind at 1. rewrite directory_exists_run; simpl.
    rewrite Hroot; simpl. rewrite valid_operation by done.
    unfold bind at 1. by rewrite Hwalk.
Qed.

(** [r] cannot be opened. *)
Lemma failed_walk_is_reported_witness :
  main 8 ["prog"; "r"; "b.log"]
    (boot logs_tree 4096
       (Env [] (λ _, 0) 4096 (λ _, 0) (λ c, bool_decide (c = ["r"]))))
  = Some (1%Z,
          with_out [Stderr "nftw"]
            (boot logs_tree 4096
               (Env [] (λ _, 0) 4096 (λ _, 0)
                  (λ c, bool_decide (c = ["r"]))))).
Proof.
  apply (failed_walk_is_reported 8 "prog" "r" "store" "-cp" "b.log" ""
           logs_tree 4096 _ ["r"]).
  - vm_compute. reflexivity.
  - vm_compute. reflexivity.
  - vm_compute. reflexivity.
  - vm_compute. reflexivity.
  - by left.
  - vm_compute. reflexivity.
  - by left.
  - lia.
Defined.

(** X10.  A locate-and-transfer run whose storage path does not lead to a
    directory changes nothing in the file system, whatever the tree holds:
    it ends with exit status 0 and the disk as it was. *)
Theorem missing_storage_changes_nothing (fuel : nat)
    (prog root storage op name : string) (f : disk) (space : nat) (e : env) :
  dir_at e (tree f) root = true →
  dir_at e (tree f) storage = false →
  op = "-cp" ∨ op = "-mv" →
  (∀ c, faulty e c = false) →
  deep (tree f) + 1 < fuel →
  ∃ s', main fuel [prog; root; storage; op; name] (boot f space e)
        = Some (0%Z, s')
    ∧ fs s' = f ∧ free s' = space.
Proof.
  intros Hroot Hstore Hop Hfault Hfuel.
  destruct (transfer_without_storage_run fuel prog root storage op name f
              space e Hroot Hstore Hop Hfault Hfuel)
    as (s' & Hrun & Hfs & Hfree & _).
  by exists s'.
Qed.

Lemma missing_storage_changes_nothing_witness :
  ∃ s', main 8 ["prog"; "r"; "nostore"; "-mv"; "b.log"]
          (boot logs_tree 4096 plain_env) = Some (0%Z, s')
    ∧ fs s' = logs_tree ∧ free s' = 4096.
Proof.
  apply (missing_storage_changes_nothing 8 "prog" "r" "nostore" "-mv").
  - vm_compute. reflexivity.
  - vm_compute. reflexivity.
  - by right.
  - reflexivity.
  - vm_compute. lia.
Defined.

(** ** Command lines that are refused *)

(** X17. A command line with a number of arguments other than two, three
    or four (after the program name) is refused: the run prints the
    invalid-number message on the error stream and exits with status 1
    without examining or changing the file system. *)
Theorem wrong_argument_count_is_rejected (fuel : nat) (argv : list string)
    (s : state) :
  length argv ≠ 3 → length argv ≠ 4 → length argv ≠ 5 →
  ∃ s', main fuel argv s = Some (1%Z, s')
    ∧ out s' = out s ++ [Stderr "Invalid number of arguments"]
    ∧ fs s' = fs s ∧ hist s' = hist s ∧ found_file s' = found_file s.
Proof.
  intros H3 H4 H5.
  assert (Hrun : main fuel argv s
    = (run eprintf "Invalid number of arguments"; ret 1%Z) s).
  { destruct argv as [|a0 [|a1 [|a2 [|a3 [|a4 [|a5 argv]]]]]]; done. }
  rewrite Hrun. eexists. split; [done|]. done.
Qed.

Lemma wrong_argument_count_is_rejected_witness :
  ∃ s', main 8 ["prog"; "r"] (boot logs_tree 4096 plain_env)
        = Some (1%Z, s')
    ∧ out s' = out (boot logs_tree 4096 plain_env)
               ++ [Stderr "Invalid number of arguments"]
    ∧ fs s' = fs (boot logs_tree 4096 plain_env)
    ∧ hist s' = hist (boot logs_tree 4096 plain_env)
    ∧ found_file s' = found_file (boot logs_tree 4096 plain_env).
Proof.
  apply wrong_argument_count_is_rejected; simpl; lia.
Defined.

(** X18.  In the five-argument mode an operation other than [-cp] and
    [-mv] is refused once the root is found to be a directory: the run
    prints the message on the error stream and exits with status 1 before
    any entry is visited. *)
Theorem invalid_operation_is_rejected (fuel : nat)
    (prog root storage op name : string) (s : state) :
  dir_at (sys s) (tree (fs s)) root = true →
  op ≠ "-cp" → op ≠ "-mv" →
  ∃ s', main fuel [prog; root; storage; op; name] s = Some (1%Z, s')
    ∧ out s' = out s ++ [Stderr "Invalid operation"]
    ∧ fs s' = fs s ∧ hist s' = hist s ∧ found_file s' = found_file s.
Proof.
  intros Hroot Hcp Hmv. unfold main.
  unfold bind at 1. rewrite directory_exists_run; simpl.
  rewrite Hroot; simpl.
  destruct (strcmp op "-cp" =? 0)%Z eqn:H1;
    [by apply strcmp_0 in H1|].
  destruct (strcmp op "-mv" =? 0)%Z eqn:H2;
    [by apply strcmp_0 in H2|].
  simpl. by eexists.
Qed.

Lemma invalid_operation_is_rejected_witness :
  ∃ s', main 8 ["prog"; "r"; "store"; "-rm"; "b.log"]
          (boot logs_tree 4096 plain_env) = Some (1%Z, s')
    ∧ out s' = out (boot logs_tree 4096 plain_env)
               ++ [Stderr "Invalid operation"]
    ∧ fs s' = fs (boot logs_tree 4096 plain_env)
    ∧ hist s' = hist (boot logs_tree 4096 plain_env)
    ∧ found_file s' = found_file (boot logs_tree 4096 plain_env).
Proof.
  apply invalid_operation_is_rejected.
  - vm_compute. reflexivity.
  - discriminate.
  - discriminate.
Defined.

(** ** Locate mode *)

(** The visit of a regular file of the target name when no operation is
    set: the path is recorded and printed, and the walk goes on. *)
Lemma locate_visit_hit fuel g fpath ftwbuf s :
  operation g = None →
  from_base fpath ftwbuf = enteredFileName g →
  visit (search_and_process fuel g) fpath FTW_F ftwbuf s
  = Some (0%Z, with_out (out s ++ [Stdout fpath])
                 (with_hist (hist s ++ [Visit fpath FTW_F; Found fpath])
                    (with_found (Some fpath) s))).
Proof.
  intros Hop Hname. unfold visit, bind at 1, note, modify.
  unfold search_and_process.
  rewrite bool_decide_eq_true_2, Hname, strcmp_refl by done. simpl.
  unfold bind at 1, modify. unfold bind at 1, note, modify. rewrite Hop.
  unfold bind, printf, modify, ret. simpl. by rewrite <- app_assoc.
Qed.

Lemma locate_visit_miss fuel g fpath flag ftwbuf s :
  ¬ (flag = FTW_F ∧ from_base fpath ftwbuf = enteredFileName g) →
  visit (search_and_process fuel g) fpath flag ftwbuf s
  = Some (0%Z, with_hist (hist s ++ [Visit fpath flag]) s).
Proof.
  intros Hmiss. apply visit_skip. intros s'.
  apply search_and_process_skip. intros Hf Hn. by apply Hmiss.
Qed.

Lemma flag_at_file (m : gmap path node) (c : path) :
  flag_at m c = FTW_F ↔ ∃ i, m !! c = Some (File i).
Proof.
  split; [apply flag_at_F|]. intros [i Hi]. unfold flag_at. by rewrite Hi.
Qed.

Section locate.
Context (fuel : nat) (g : globals) (e : env) (f : disk).
Context (root : string) (rp : path).
Hypothesis Hop : operation g = None.
Hypothesis top_entry : resolve_entry e (tree f) (strip_slashes root) = Ok rp.
Hypothesis top_dir : tree f !! rp = Some Dir.
Hypothesis no_fault : ∀ c, faulty e c = false.
Hypothesis Hfuel : deep (tree f) + 1 < fuel.

(** The two ways a visit of locate mode ends: an entry that is no regular
    file of the target name is passed over; one that is has its path
    recorded and printed. *)
Lemma locate_visit_cases rel ftwbuf s :
  fs s = f →
  (rel ≠ [] → from_base (spell (strip_slashes root) rel) ftwbuf = leaf rel) →
  ∃ s', visit (search_and_process fuel g) (spell (strip_slashes root) rel)
          (flag_at (tree (fs s)) (rp ++ rel)) ftwbuf s = Some (0%Z, s')
    ∧ fs s' = f ∧ free s' = free s ∧ sys s' = sys s
    ∧ ((¬ ((∃ i, tree f !! (rp ++ rel) = Some (File i))
           ∧ leaf rel = enteredFileName g)
        ∧ out s' = out s ∧ found_file s' = found_file s
        ∧ hist s' = hist s ++ [Visit (spell (strip_slashes root) rel)
                                 (flag_at (tree f) (rp ++ rel))])
       ∨ ((∃ i, tree f !! (rp ++ rel) = Some (File i))
          ∧ leaf rel = enteredFileName g
          ∧ out s' = out s ++ [Stdout (spell (strip_slashes root) rel)]
          ∧ found_file s' = Some (spell (strip_slashes root) rel)
          ∧ hist s' = hist s ++ [Visit (spell (strip_slashes root) rel) FTW_F;
                                 Found (spell (strip_slashes root) rel)])).
Proof.
  intros Hfs Hbase. rewrite Hfs.
  assert (Hne : flag_at (tree f) (rp ++ rel) = FTW_F → rel ≠ []).
  { intros Hflag ->. unfold flag_at in Hflag.
    by rewrite app_nil_r, top_dir in Hflag. }
  destruct (decide (flag_at (tree f) (rp ++ rel) = FTW_F
                    ∧ leaf rel = enteredFileName g))
    as [[Hflag Hname]|Hmiss].
  - rewrite Hflag, locate_visit_hit; [|done|by rewrite Hbase; auto].
    eexists. split; [done|]. split_and!; [done..|]. right. simpl.
    split_and!; try done. by apply flag_at_file.
  - rewrite locate_visit_miss.
    + eexists. split; [done|]. split_and!; [done..|]. left.
      split_and!; try done. intros [Hfile Hname]. apply Hmiss.
      split; [by apply flag_at_file|done].
    + intros [Hflag Hname]. apply Hmiss. split; [done|].
      by rewrite <- (Hbase (Hne Hflag)).
Qed.

(** The walk of locate mode: it returns 0 and changes nothing in the file
    system; what it prints are paths of regular files of the target name
    below the root, one for every such file, and [found_file] is set
    exactly when something was printed. *)
Lemma locate_walk (s : state) :
  fs s = f → sys s = e → out s = [] → hist s = [] → found_file s = None →
  ∃ s', nftw fuel root (search_and_process fuel g) s = Some (0%Z, s')
    ∧ fs s' = f ∧ free s' = free s
    ∧ (found_file s' = None ↔ out s' = [])
    ∧ Forall (match_line (tree f) (strip_slashes root) rp
                (λ n, n = enteredFileName g)) (out s')
    ∧ (∀ rel i, leads (tree f) rp rel →
                tree f !! (rp ++ rel) = Some (File i) →
                leaf rel = enteredFileName g →
                Stdout (spell (strip_slashes root) rel) ∈ out s').
Proof.
  intros Hfs Hsys Hout Hhist Hfound.
  set (top := strip_slashes root) in *.
  set (φ := match_line (tree f) top rp (λ n, n = enteredFileName g)).
  set (I := λ s', fs s' = f ∧ free s' = free s ∧ sys s' = e
                  ∧ (found_file s' = None ↔ out s' = [])
                  ∧ Forall φ (out s')).
  destruct (nftw_rule (search_and_process fuel g) e (tree f) top rp I
              (λ _ _, False) top_entry top_dir no_fault)
    with (fuel := fuel) (root := root) (s := s)
    as (r & s' & Hrun & H0 & H1).
  - by intros s1 (_ & _ & ? & _).
  - intros s1 (-> & _). apply same_skeleton_refl.
  - intros rel ftwbuf s1 Hrel (Hfs1 & Hfree1 & Hsys1 & Hiff & Hall) Hbase.
    destruct (locate_visit_cases rel ftwbuf s1 Hfs1 Hbase)
      as (s' & Hrun & Hfs' & Hfree' & Hsys'
          & [(_ & Ho & Hf & _)|([i Hi] & Hn & Ho & Hf & _)]).
    + exists 0%Z, s'. split; [done|]. split; [|done]. intros _.
      unfold I. rewrite Ho, Hf. split_and!; congruence.
    + exists 0%Z, s'. split; [done|]. split; [|done]. intros _.
      unfold I. rewrite Ho, Hf. split_and!; try congruence.
      * split; [done|]. intros Hnil. by apply app_eq_nil in Hnil as [_ ?].
      * rewrite Forall_app, Forall_singleton. split; [done|].
        by exists rel, i.
  - done.
  - unfold I. rewrite Hout, Hfound. by split_and!.
  - lia.
  - destruct (decide (r = 0%Z)) as [->|Hr]; [|by destruct (H1 Hr)].
    destruct (H0 eq_refl) as (Hfs' & Hfree' & Hsys' & Hiff & Hall).
    exists s'. split_and!; [done..|].
    intros rel i Hrel Hfile Hname.
    set (J := λ s1, fs s1 = f ∧ sys s1 = e
                    ∧ (visited (spell top rel) s1 →
                       Stdout (spell top rel) ∈ out s1)).
    destruct (nftw_reaches (search_and_process fuel g) e (tree f) top rp rel
                J top_entry top_dir Hrel)
      with (fuel := fuel) (root := root) (s := s) (s' := s')
      as [(_ & _ & Hseen) Hvisited].
    + by intros s1 (_ & ? & _).
    + intros s1 (-> & _). apply same_skeleton_refl.
    + intros s1 (-> & _) _. by eexists.
    + intros rel' ftwbuf s1 s2 (Hfs1 & Hsys1 & Hseen) Hrel' Hbase Hrun1.
      destruct (locate_visit_cases rel' ftwbuf s1 Hfs1 Hbase)
        as (s2' & Hrun2 & Hfs2 & _ & Hsys2 & Hcases).
      assert (Heq : Some (0%Z, s2) = Some (0%Z, s2'))
        by (rewrite <- Hrun1; exact Hrun2).
      injection Heq as <-.
      split; [done|]. split; [congruence|].
      intros [flag Hin].
      destruct Hcases as [(Hmiss & Ho & _ & Hh)|(_ & _ & Ho & _ & Hh)].
      * rewrite Ho. rewrite Hh in Hin.
        apply elem_of_app in Hin as [Hin|Hin].
        { apply Hseen. by exists flag. }
        apply list_elem_of_singleton in Hin. injection Hin as Heq _.
        apply spell_inj in Heq as <-;
          [|(by destruct Hrel) || (by destruct Hrel')..].
        destruct Hmiss. split; [by exists i|done].
      * rewrite Ho. rewrite Hh in Hin. apply elem_of_app.
        apply elem_of_app in Hin as [Hin|Hin].
        { left. apply Hseen. by exists flag. }
        right. apply elem_of_cons in Hin as [[= -> _]|Hin]; [by left|].
        by apply list_elem_of_singleton in Hin.
    + intros; apply append_only_search_and_process.
    + done.
    + split; [done|]. split; [done|]. intros [flag Hin].
      rewrite Hhist in Hin. by apply elem_of_nil in Hin.
    + done.
    + by apply Hseen.
Qed.

(** The walk of locate mode over a tree with one regular file of the target
    name below the root: its path is printed once and nothing else is. *)
Lemma locate_unique_walk rel i (s : state) :
  leads (tree f) rp rel →
  tree f !! (rp ++ rel) = Some (File i) →
  leaf rel = enteredFileName g →
  only_match (tree f) rp (enteredFileName g) (rp ++ rel) →
  fs s = f → sys s = e → out s = [] → hist s = [] → found_file s = None →
  ∃ s', nftw fuel root (search_and_process fuel g) s = Some (0%Z, s')
    ∧ fs s' = f ∧ free s' = free s
    ∧ out s' = [Stdout (spell (strip_slashes root) rel)]
    ∧ found_file s' = Some (spell (strip_slashes root) rel).
Proof.
  intros Hrel Hfile Hname Honly Hfs Hsys Hout Hhist Hfound.
  set (top := strip_slashes root) in *.
  set (p := spell top rel).
  set (I := λ s', fs s' = f ∧ free s' = free s ∧ sys s' = e
    ∧ ((¬ visited p s' ∧ out s' = [] ∧ found_file s' = None)
       ∨ (visited p s' ∧ out s' = [Stdout p] ∧ found_file s' = Some p))).
  destruct (nftw_fresh_rule (search_and_process fuel g) e (tree f) top rp rel
              I (λ _ _, False) top_entry top_dir Hrel no_fault)
    with (fuel := fuel) (root := root) (s := s)
    as (r & s' & Hrun & H0 & H1).
  - intros; apply append_only_search_and_process.
  - by intros s1 (_ & _ & ? & _).
  - intros s1 (-> & _). apply same_skeleton_refl.
  - intros s1 (-> & _) _. by eexists.
  - intros rel' ftwbuf s1 Hrel' (Hfs1 & Hfree1 & Hsys1 & Hcases) Hbase Hfresh.
    destruct (locate_visit_cases rel' ftwbuf s1 Hfs1 Hbase)
      as (s' & Hrun & Hfs' & Hfree' & Hsys' & Hstep).
    exists 0%Z, s'. split; [done|].
    destruct Hstep as [(Hmiss & Ho & Hf & Hh)|([j Hj] & Hn & Ho & Hf & Hh)].
    + split; [|split; [done|]].
      * intros _. unfold I. split_and!; try congruence. rewrite Ho, Hf.
        assert (visited p s' ↔ visited p s1) as Hsame.
        { unfold visited. rewrite Hh. split; intros [flag Hin].
          - apply elem_of_app in Hin as [Hin|Hin]; [by exists flag|].
            apply list_elem_of_singleton in Hin. injection Hin as Heq _.
            apply spell_inj in Heq as <-;
              [|(by destruct Hrel) || (by destruct Hrel')..].
            destruct Hmiss. split; [by exists i|done].
          - exists flag. apply elem_of_app. by left. }
        by rewrite Hsame.
      * intros q flag. rewrite Hh. intros Hin.
        apply elem_of_app in Hin as [Hin|Hin]; [by left|].
        apply list_elem_of_singleton in Hin. injection Hin as -> _.
        by right.
    + assert (rel' = rel) as ->.
      { assert (Hne : rel' ≠ []).
        { intros ->. rewrite app_nil_r in Hj. congruence. }
        apply (app_inv_head rp).
        apply (Honly _ _ Hj); [by apply prefix_app_r|done|].
        by rewrite leaf_app. }
      split; [|split; [done|]].
      * intros _. unfold I. split_and!; try congruence. right.
        destruct Hcases as [(_ & Ho1 & _)|([flag Hin] & _)].
        -- rewrite Ho, Ho1, Hf. split_and!; [|done..].
           exists FTW_F. rewrite Hh. apply elem_of_app. right. by left.
        -- by destruct (Hfresh flag).
      * intros q flag. rewrite Hh. intros Hin.
        apply elem_of_app in Hin as [Hin|Hin]; [by left|].
        apply elem_of_cons in Hin as [Hin|Hin];
          [injection Hin as -> _; by right|].
        by apply list_elem_of_singleton in Hin.
  - done.
  - unfold I. split_and!; try done. left. split_and!; [|done..].
    intros [flag Hin]. rewrite Hhist in Hin. by apply elem_of_nil in Hin.
  - intros q flag _ _. rewrite Hhist. apply not_elem_of_nil.
  - lia.
  - destruct (decide (r = 0%Z)) as [->|Hr]; [|by destruct (H1 Hr)].
    destruct (H0 eq_refl) as [(Hfs' & Hfree' & Hsys' & Hcases) Hseen].
    exists s'. split_and!; try done;
      by destruct Hcases as [(? & _)|(_ & ? & ?)].
Qed.
End locate.



(** X12. A run in locate mode without a transfer prints the path of every
    regular file of the target name that is reached from the root
    directory through directories; the found flag is set, and the exit
    status is 0. *)
Theorem locate_prints_every_match (fuel : nat)
    (prog root name : string) (f : disk) (rp : path) (rel : list string)
    (i : ino) (space : nat) (e : env) :
  dir_at e (tree f) root = true →
  resolve_entry e (tree f) (strip_slashes root) = Ok rp →
  tree f !! rp = Some Dir →
  leads (tree f) rp rel →
  tree f !! (rp ++ rel) = Some (File i) →
  leaf rel = name →
  (∀ c, faulty e c = false) →
  deep (tree f) + 1 < fuel →
  ∃ s', main fuel [prog; root; name] (boot f space e) = Some (0%Z, s')
    ∧ Stdout (spell (strip_slashes root) rel) ∈ out s'
    ∧ is_Some (found_file s')
    ∧ Forall (match_line (tree f) (strip_slashes root) rp (λ n, n = name))
        (out s').
Proof.
  intros Hroot Hres Hdir Hrel Hfile Hname Hfault Hfuel. unfold main.
  unfold bind at 1. rewrite directory_exists_run; simpl.
  rewrite Hroot; simpl.
  destruct (locate_walk fuel (Globals name root "" None "") e f root rp
              eq_refl Hres Hdir Hfault Hfuel (boot f space e))
    as (s' & Hrun & Hfs & Hfree & Hiff & Hall & Hevery); [done..|].
  unfold bind at 1. rewrite Hrun; simpl.
  specialize (Hevery rel i Hrel Hfile Hname).
  destruct (found_file s') as [q|] eqn:Hfound.
  - unfold report_unless_found, bind, gets. rewrite Hfound. simpl.
    eexists. split; [done|]. split; [done|]. split; [|done].
    by rewrite Hfound.
  - rewrite (proj1 Hiff) in Hevery by done. by apply elem_of_nil in Hevery.
Qed.

Lemma locate_prints_every_match_witness :
  ∃ s', main 8 ["prog"; "r"; "a.txt"] (boot twins_tree 4096 plain_env)
        = Some (0%Z, s')
    ∧ Stdout (spell (strip_slashes "r") ["d2"; "a.txt"]) ∈ out s'
    ∧ is_Some (found_file s')
    ∧ Forall (match_line (tree twins_tree) (strip_slashes "r") ["r"]
                (λ n, n = "a.txt")) (out s').
Proof.
  apply (locate_prints_every_match 8 "prog" "r" "a.txt" twins_tree
           ["r"] ["d2"; "a.txt"] 2).
  - vm_compute. reflexivity.
  - vm_compute. reflexivity.
  - vm_compute. reflexivity.
  - split; [by repeat constructor|].
    intros k Hk. destruct k as [|[|k]]; [reflexivity..|simpl in Hk; lia].
  - vm_compute. reflexivity.
  - reflexivity.
  - reflexivity.
  - vm_compute. lia.
Defined.



(** ** The archive mode *)

Lemma leads_skel (m m' : gmap path node) (rp : path) rel :
  same_skeleton m m' → leads m rp rel → leads m' rp rel.
Proof.
  intros Hsk [Hplain Hchain]. split; [done|].
  intros k Hk. by apply Hsk, Hchain.
Qed.

Section archive.
Context (fuel : nat) (g : globals) (e : env) (f : disk).
Context (root : string) (rp : path).
Hypothesis top_entry : resolve_entry e (tree f) (strip_slashes root) = Ok rp.
Hypothesis top_dir : tree f !! rp = Some Dir.
Hypothesis no_fault : ∀ c, faulty e c = false.
Hypothesis Hfuel : deep (tree f) + 1 < fuel.

(** [add_file_to_tar] is handed the path of the file itself as the
    directory, so it tries to open an entry below a regular file: that
    fails, and nothing is read or written. *)
Lemma add_file_to_tar_below_file rel name tarfile s i :
  sys s = e → same_skeleton (tree f) (tree (fs s)) →
  leads (tree f) rp rel →
  tree (fs s) !! (rp ++ rel) = Some (File i) →
  add_file_to_tar fuel (spell (strip_slashes root) rel) name tarfile s
  = Some (tarfile, s).
Proof.
  intros Hsys Hskel [Hplain Hchain] Hfile.
  unfold add_file_to_tar, bind. rewrite fopen_rb_run, Hsys.
  by rewrite (resolve_below_file e (tree f) (strip_slashes root) rp top_entry
                top_dir (tree (fs s)) rel name i).
Qed.

(** A match prints the path and creates or empties the archive, whatever
    the file holds; when the archive cannot be opened, the walk is
    ended. *)
Lemma archive_match rel ftwbuf s i :
  sys s = e → same_skeleton (tree f) (tree (fs s)) →
  leads (tree f) rp rel →
  tree (fs s) !! (rp ++ rel) = Some (File i) →
  contains (extension g) (from_base (spell (strip_slashes root) rel) ftwbuf) →
  ∃ r s', search_and_create_tar fuel g (spell (strip_slashes root) rel) FTW_F
            ftwbuf s = Some (r, s')
    ∧ sys s' = sys s ∧ found_file s' = found_file s ∧ hist s' = hist s
    ∧ ((r = 1%Z
        ∧ out s' = out s ++ [Stdout (spell (strip_slashes root) rel);
                             Stderr "gzopen"]
        ∧ fs s' = fs s ∧ free s' = free s
        ∧ can_write e (tree (fs s)) (slash_join (storageDir g) "a1.tar")
          = false)
       ∨ (r = 0%Z
          ∧ out s' = out s ++ [Stdout (spell (strip_slashes root) rel)]
          ∧ ∃ j q,
              resolve e (tree (fs s)) (slash_join (storageDir g) "a1.tar")
              = Ok q
              ∧ tree (fs s') = <[q := File j]> (tree (fs s))
              ∧ (tree (fs s) !! q = Some (File j)
                 ∨ (tree (fs s) !! q = None
                    ∧ ∀ c k, tree (fs s) !! c = Some (File k) → k ≠ j))
              ∧ blob (fs s') j = []
              ∧ ∀ k, k ≠ j → blob (fs s') k = blob (fs s) k)).
Proof.
  intros Hsys Hskel Hrel Hfile Hsub%strstr_contains.
  unfold search_and_create_tar.
  rewrite !bool_decide_eq_true_2 by done. simpl.
  unfold bind at 1, printf, modify.
  set (s0 := with_out _ s).
  destruct (open_trunc_touched (slash_join (storageDir g) "a1.tar") s0)
    as (o & s1 & Hrun & (Hsys1 & Hfound1 & Hout1 & Hhist1) & Hskel1 & Hnone
        & Hsome).
  simpl in Hsys1, Hfound1, Hout1, Hhist1, Hskel1, Hsome.
  unfold gzopen_wb. unfold bind at 1. rewrite Hrun.
  destruct o as [tarfile|].
  - destruct (Hsome tarfile eq_refl)
      as (j & q & -> & Hq & Htree & Hold & Hempty & Hother & _).
    assert (Hfile1 : ∃ i', tree (fs s1) !! (rp ++ rel) = Some (File i')).
    { rewrite Htree. destruct (decide (q = rp ++ rel)) as [->|Hne].
      - rewrite lookup_insert_eq. by eexists.
      - rewrite lookup_insert_ne by done. by exists i. }
    destruct Hfile1 as [i' Hfile1].
    unfold bind at 1.
    rewrite (add_file_to_tar_below_file rel _ _ s1 i');
      [|congruence|by eapply same_skeleton_trans|done|done].
    unfold gzclose. unfold bind at 1. rewrite fclose_empty.
    eexists _, _. split; [done|]. simpl in *.
    split_and!; try done. right. split_and!; try done.
    exists j, q. rewrite <- Hsys. by split_and!.
  - rewrite (Hnone eq_refl). unfold bind, perror, eprintf, modify, ret.
    eexists _, _. split; [done|]. simpl.
    split_and!; try done. left. split_and!; try done.
    + by rewrite <- app_assoc.
    + unfold open_trunc in Hrun. unfold can_write. rewrite <- Hsys.
      simpl in Hrun.
      destruct (resolve _ _ _) as [q|]; [|done].
      by destruct (tree (fs s) !! q) as [[]|].
Qed.


(** The two ways a visit of the archive mode ends: an entry that is no
    regular file with the pattern in its name is passed over; one that is
    has its path printed, and the archive is created or emptied, or the
    walk is ended when the archive cannot be opened. *)
Lemma archive_visit rel ftwbuf s :
  leads (tree f) rp rel →
  archive_state e f (slash_join (storageDir g) "a1.tar") s →
  (rel ≠ [] → from_base (spell (strip_slashes root) rel) ftwbuf = leaf rel) →
  ∃ r s', visit (search_and_create_tar fuel g) (spell (strip_slashes root) rel)
            (flag_at (tree (fs s)) (rp ++ rel)) ftwbuf s = Some (r, s')
    ∧ archive_state e f (slash_join (storageDir g) "a1.tar") s'
    ∧ found_file s' = found_file s
    ∧ ((¬ ((∃ i, tree (fs s) !! (rp ++ rel) = Some (File i))
           ∧ contains (extension g) (leaf rel))
        ∧ r = 0%Z ∧ out s' = out s ∧ fs s' = fs s ∧ free s' = free s
        ∧ hist s' = hist s ++ [Visit (spell (strip_slashes root) rel)
                                 (flag_at (tree (fs s)) (rp ++ rel))])
       ∨ ((∃ i, tree (fs s) !! (rp ++ rel) = Some (File i))
          ∧ contains (extension g) (leaf rel)
          ∧ hist s' = hist s ++ [Visit (spell (strip_slashes root) rel) FTW_F]
          ∧ ((r = 1%Z
              ∧ out s' = out s ++ [Stdout (spell (strip_slashes root) rel);
                                   Stderr "gzopen"]
              ∧ fs s' = fs s ∧ free s' = free s
              ∧ can_write e (tree (fs s))
                  (slash_join (storageDir g) "a1.tar") = false)
             ∨ (r = 0%Z
                ∧ out s' = out s ++ [Stdout (spell (strip_slashes root) rel)]
                ∧ ∃ j q, resolve e (tree f)
                           (slash_join (storageDir g) "a1.tar") = Ok q
                    ∧ tree (fs s') = <[q := File j]> (tree (fs s))
                    ∧ (tree (fs s) !! q = Some (File j)
                       ∨ tree (fs s) !! q = None)
                    ∧ blob (fs s') j = [])))).
Proof.
  intros Hrel (Hsys & Hskel & Honly & Hgrow & Hblob) Hbase.
  set (tar := slash_join (storageDir g) "a1.tar") in *.
  assert (Hne : flag_at (tree (fs s)) (rp ++ rel) = FTW_F → rel ≠ []).
  { intros Hflag ->. unfold flag_at in Hflag. rewrite app_nil_r in Hflag.
    apply Hskel in top_dir. by rewrite top_dir in Hflag. }
  destruct (decide (flag_at (tree (fs s)) (rp ++ rel) = FTW_F
                    ∧ strstr (leaf rel) (extension g) ≠ None))
    as [[Hflag Hsub%strstr_contains]|Hmiss].
  - pose proof Hflag as [i Hfile]%flag_at_file.
    unfold visit, bind at 1, note, modify. rewrite Hflag.
    set (s0 := with_hist _ s).
    destruct (archive_match rel ftwbuf s0 i)
      as (r & s' & Hrun & Hsys' & Hfound' & Hhist' & Hcases);
      [done..|by rewrite Hbase; auto|].
    exists r, s'. split; [exact Hrun|]. simpl in *.
    destruct Hcases as [(-> & Hout & Hfs & Hfree & Hcw)
                       |(-> & Hout & j & q & Hq & Htree & Hold & Hempty
                         & Hother)].
    + split; [|split; [done|]].
      * unfold archive_state. rewrite Hfs. split_and!; try done. congruence.
      * right. split_and!; try done; [by exists i|]. left. by split_and!.
    + assert (Hq0 : resolve e (tree f) tar = Ok q).
      { apply (resolve_skel e (tree (fs s))); [|done].
        by apply same_skeleton_sym. }
      split; [|split; [done|]].
      * unfold archive_state. split_and!.
        -- congruence.
        -- eapply same_skeleton_trans; [done|]. rewrite Htree.
           apply same_skeleton_insert_file.
           destruct Hold as [?|[? _]]; [right; by exists j|by left].
        -- intros c Hc. rewrite Htree, lookup_insert_ne by congruence.
           by apply Honly.
        -- intros c. rewrite Htree.
           destruct (decide (q = c)) as [<-|Hqc].
           ++ rewrite lookup_insert_eq.
              destruct Hold as [Hj|[Hnone _]].
              ** rewrite <- Hj. apply Hgrow.
              ** destruct (Hgrow q) as [Hsame|(_ & j' & Hj')];
                   [|congruence].
                 right. split; [congruence|by exists j].
           ++ rewrite lookup_insert_ne by done. apply Hgrow.
        -- intros k. destruct (decide (k = j)) as [->|Hk]; [by right|].
           rewrite Hother by done. apply Hblob.
      * right. split_and!; try done; [by exists i|]. right.
        split_and!; try done. exists j, q. split_and!; try done.
        destruct Hold as [?|[? _]]; auto.
  - eexists _, _. split; [apply visit_skip|].
    + intros s2. apply search_and_create_tar_skip.
      intros Hflag Hsub. apply Hmiss. split; [done|].
      apply strstr_contains. by rewrite <- (Hbase (Hne Hflag)).
    + split; [done|]. split; [done|]. left. split_and!; try done.
      intros [Hfile Hsub]. apply Hmiss.
      split; [by apply flag_at_file|by apply strstr_contains].
Qed.

Lemma archive_state_start (s : state) :
  fs s = f → sys s = e →
  archive_state e f (slash_join (storageDir g) "a1.tar") s.
Proof.
  intros Hfs Hsys. unfold archive_state. rewrite Hfs.
  split_and!; try done.
  - intros c. by left.
  - intros k. by left.
Qed.

(** Whatever the tree holds, an archive walk returns 0 or 1 and leaves
    the file system as it was, but for an archive that is created empty
    or emptied. *)
Lemma archive_walk_writes_nothing (s : state) :
  fs s = f → sys s = e →
  ∃ r s', nftw fuel root (search_and_create_tar fuel g) s = Some (r, s')
    ∧ r ≠ (-1)%Z
    ∧ archive_state e f (slash_join (storageDir g) "a1.tar") s'.
Proof.
  intros Hfs Hsys.
  set (tar := slash_join (storageDir g) "a1.tar").
  destruct (nftw_rule (search_and_create_tar fuel g) e (tree f)
              (strip_slashes root) rp (archive_state e f tar)
              (λ r s1, r = 1%Z ∧ archive_state e f tar s1)
              top_entry top_dir no_fault)
    with (fuel := fuel) (root := root) (s := s)
    as (r & s' & Hrun & H0 & H1).
  - by intros s1 (? & _).
  - by intros s1 (_ & ? & _).
  - intros rel ftwbuf s1 Hrel Hs1 Hbase.
    destruct (archive_visit rel ftwbuf s1 Hrel Hs1 Hbase)
      as (r & s' & Hrun & Hs' & _ & Hcases).
    exists r, s'. split; [done|]. split; [done|]. intros Hr.
    split; [|done].
    destruct Hcases as [(_ & ? & _)|(_ & _ & _ & [(? & _)|(? & _)])];
      congruence.
  - done.
  - by apply archive_state_start.
  - lia.
  - exists r, s'. split; [done|].
    destruct (decide (r = 0%Z)) as [->|Hr]; [by split; [|apply H0]|].
    destruct (H1 Hr) as [-> ?]. by split.
Qed.

Lemma match_line_grows (m m' : gmap path node) top (φ : string → Prop) o :
  same_skeleton m m' →
  (∀ c i, m !! c = Some (File i) → ∃ i', m' !! c = Some (File i')) →
  match_line m top rp φ o → match_line m' top rp φ o.
Proof.
  intros Hsk Hfiles (rel & i & Hrel & Hfile & Hφ & ->).
  destruct (Hfiles _ _ Hfile) as [i' Hi'].
  exists rel, i'. split_and!; try done. by eapply leads_skel.
Qed.

(** The walk of an archive run whose archive can be opened: it returns 0;
    what it prints are paths of regular files with the pattern in their
    names, one for every such file of [f] that is reached; and once
    something was printed the archive is a file without content. *)
Lemma archive_walk_lists (s : state) :
  fs s = f → sys s = e → out s = [] → hist s = [] →
  can_write e (tree f) (slash_join (storageDir g) "a1.tar") = true →
  ∃ s', nftw fuel root (search_and_create_tar fuel g) s = Some (0%Z, s')
    ∧ archive_state e f (slash_join (storageDir g) "a1.tar") s'
    ∧ Forall (match_line (tree (fs s')) (strip_slashes root) rp
                (contains (extension g))) (out s')
    ∧ (out s' ≠ [] →
       ∃ q, resolve e (tree f) (slash_join (storageDir g) "a1.tar") = Ok q
            ∧ content (fs s') q = Some [])
    ∧ (∀ rel i, leads (tree f) rp rel →
                tree f !! (rp ++ rel) = Some (File i) →
                contains (extension g) (leaf rel) →
                Stdout (spell (strip_slashes root) rel) ∈ out s').
Proof.
  intros Hfs Hsys Hout Hhist Hcw.
  set (tar := slash_join (storageDir g) "a1.tar") in *.
  set (top := strip_slashes root) in *.
  assert (Hopen : ∀ s1, archive_state e f tar s1 →
            can_write e (tree (fs s1)) tar = true).
  { intros s1 (_ & Hskel & _ & Hgrow & _). unfold can_write in *.
    destruct (resolve e (tree f) tar) as [q|] eqn:Hq; [|done].
    rewrite (resolve_skel e (tree f) _ tar q Hskel Hq).
    destruct (Hgrow q) as [->|(_ & j & ->)]; done. }
  set (φ := λ s1, match_line (tree (fs s1)) top rp (contains (extension g))).
  set (I := λ s1, archive_state e f tar s1 ∧ Forall (φ s1) (out s1)
                  ∧ (out s1 ≠ [] →
                     ∃ q, resolve e (tree f) tar = Ok q
                          ∧ content (fs s1) q = Some [])).
  assert (Hstep : ∀ rel ftwbuf s1, leads (tree f) rp rel → I s1 →
    (rel ≠ [] → from_base (spell top rel) ftwbuf = leaf rel) →
    ∃ s', visit (search_and_create_tar fuel g) (spell top rel)
            (flag_at (tree (fs s1)) (rp ++ rel)) ftwbuf s1 = Some (0%Z, s')
      ∧ I s'
      ∧ ((¬ ((∃ i, tree (fs s1) !! (rp ++ rel) = Some (File i))
             ∧ contains (extension g) (leaf rel))
          ∧ out s' = out s1
          ∧ hist s' = hist s1 ++ [Visit (spell top rel)
                                    (flag_at (tree (fs s1)) (rp ++ rel))])
         ∨ (out s' = out s1 ++ [Stdout (spell top rel)]
            ∧ hist s' = hist s1 ++ [Visit (spell top rel) FTW_F]))).
  { intros rel ftwbuf s1 Hrel (Hs1 & Hall & Htar) Hbase.
    destruct (archive_visit rel ftwbuf s1 Hrel Hs1 Hbase)
      as (r & s' & Hrun & Hs' & _ & Hcases).
    destruct Hcases as [(Hmiss & -> & Ho & Hfs' & _ & Hh)
                       |([i Hi] & Hsub & Hh & [(_ & _ & _ & _ & Hno)
                         |(-> & Ho & j & q & Hq & Htree & Hold & Hempty)])].
    - exists s'. split; [done|]. split; [|by left].
      unfold I, φ. rewrite Ho, Hfs'. by split_and!.
    - pose proof (Hopen s1 Hs1) as Hyes. unfold tar in Hyes. congruence.
    - exists s'. split; [done|]. split; [|by right].
      assert (Hfiles : ∀ c k, tree (fs s1) !! c = Some (File k) →
                ∃ k', tree (fs s') !! c = Some (File k')).
      { intros c k Hc. rewrite Htree.
        destruct (decide (q = c)) as [<-|Hqc].
        - rewrite lookup_insert_eq. by eexists.
        - rewrite lookup_insert_ne by done. by eexists. }
      assert (Hsk : same_skeleton (tree (fs s1)) (tree (fs s'))).
      { rewrite Htree. apply same_skeleton_insert_file.
        destruct Hold as [?|?]; [right; by exists j|by left]. }
      unfold I. split; [done|]. rewrite Ho. split.
      + rewrite Forall_app, Forall_singleton. split.
        * eapply Forall_impl; [exact Hall|]. intros o.
          by apply match_line_grows.
        * destruct (Hfiles _ _ Hi) as [i' Hi'].
          exists rel, i'. split_and!; try done.
          destruct Hs' as (_ & Hskel' & _).
          by apply (leads_skel (tree f)).
      + intros _. exists q. split; [done|]. unfold content.
        by rewrite Htree, lookup_insert_eq, Hempty. }
  destruct (nftw_rule (search_and_create_tar fuel g) e (tree f) top rp I
              (λ _ _, False) top_entry top_dir no_fault)
    with (fuel := fuel) (root := root) (s := s)
    as (r & s' & Hrun & H0 & H1).
  - by intros s1 ((? & _) & _).
  - by intros s1 ((_ & ? & _) & _).
  - intros rel ftwbuf s1 Hrel Hs1 Hbase.
    destruct (Hstep rel ftwbuf s1 Hrel Hs1 Hbase) as (s' & Hrun & Hs' & _).
    exists 0%Z, s'. by split.
  - done.
  - unfold I, φ. rewrite Hout. split_and!; try done.
    by apply archive_state_start.
  - lia.
  - destruct (decide (r = 0%Z)) as [->|Hr]; [|by destruct (H1 Hr)].
    destruct (H0 eq_refl) as (Hs' & Hall & Htar).
    exists s'. split_and!; [done..|].
    intros rel i Hrel Hfile Hsub.
    set (J := λ s1, I s1 ∧ (visited (spell top rel) s1 →
                            Stdout (spell top rel) ∈ out s1)).
    destruct (nftw_reaches (search_and_create_tar fuel g) e (tree f) top rp
                rel J top_entry top_dir Hrel)
      with (fuel := fuel) (root := root) (s := s) (s' := s')
      as [(_ & Hseen) Hvisited].
    + by intros s1 (((? & _) & _) & _).
    + by intros s1 (((_ & ? & _) & _) & _).
    + intros s1 (((_ & _ & _ & Hgrow & _) & _) & _) _.
      destruct (Hgrow (rp ++ rel)) as [Hsame|(Hnone & _)];
        [rewrite Hsame; by eexists|congruence].
    + intros rel' ftwbuf s1 s2 (Hs1 & Hseen) Hrel' Hbase Hrun1.
      destruct (Hstep rel' ftwbuf s1 Hrel' Hs1 Hbase)
        as (s2' & Hrun2 & Hs2 & Hcases).
      assert (Heq : Some (0%Z, s2) = Some (0%Z, s2'))
        by (rewrite <- Hrun1; exact Hrun2).
      injection Heq as <-.
      split; [done|]. intros [flag Hin].
      destruct Hcases as [(Hmiss & Ho & Hh)|(Ho & Hh)].
      * rewrite Ho. rewrite Hh in Hin.
        apply elem_of_app in Hin as [Hin|Hin].
        { apply Hseen. by exists flag. }
        apply list_elem_of_singleton in Hin. injection Hin as Heq _.
        apply spell_inj in Heq as <-;
          [|(by destruct Hrel) || (by destruct Hrel')..].
        destruct Hmiss. split; [|done].
        destruct Hs1 as ((_ & _ & _ & Hgrow & _) & _).
        destruct (Hgrow (rp ++ rel)) as [Hsame|(Hnone & _)];
          [rewrite Hsame; by eexists|congruence].
      * rewrite Ho. rewrite Hh in Hin. apply elem_of_app.
        apply elem_of_app in Hin as [Hin|Hin].
        { left. apply Hseen. by exists flag. }
        right. apply list_elem_of_singleton in Hin.
        injection Hin as -> _. by left.
    + intros; apply append_only_search_and_create_tar.
    + done.
    + split.
      * unfold I, φ. rewrite Hout. split_and!; try done.
        by apply archive_state_start.
      * intros [flag Hin]. rewrite Hhist in Hin.
        by apply elem_of_nil in Hin.
    + done.
    + by apply Hseen.
Qed.
End archive.

(** X9.  Whatever the tree, the pattern and the directories given, an
    archive run returns and puts no byte into any file: the entries are
    as they were, but for the one that storageDir/a1.tar leads to, which
    can have become a regular file; and every file holds the bytes it
    held, or none. *)
Theorem archive_run_writes_nothing (fuel : nat)
    (prog root storage ext : string) (f : disk) (space : nat) (e : env) :
  (∀ c, faulty e c = false) →
  deep (tree f) + 1 < fuel →
  ∃ r s', main fuel [prog; root; storage; ext] (boot f space e)
          = Some (r, s')
    ∧ (∀ c, resolve e (tree f) (slash_join storage "a1.tar") ≠ Ok c →
            tree (fs s') !! c = tree f !! c)
    ∧ (∀ c, tree (fs s') !! c = tree f !! c
            ∨ (tree f !! c = None ∧ ∃ j, tree (fs s') !! c = Some (File j)))
    ∧ (∀ k, blob (fs s') k = blob f k ∨ blob (fs s') k = []).
Proof.
  intros Hfault Hfuel.
  set (g := Globals "" root storage None ext).
  assert (Hsame : ∀ s', fs s' = f → sys s' = e →
    (∀ c, resolve e (tree f) (slash_join storage "a1.tar") ≠ Ok c →
          tree (fs s') !! c = tree f !! c)
    ∧ (∀ c, tree (fs s') !! c = tree f !! c
            ∨ (tree f !! c = None ∧ ∃ j, tree (fs s') !! c = Some (File j)))
    ∧ (∀ k, blob (fs s') k = blob f k ∨ blob (fs s') k = [])).
  { intros s' Hfs Hsys.
    by destruct (archive_state_start g e f s' Hfs Hsys) as (_ & _ & ?). }
  unfold main.
  unfold bind at 1. rewrite directory_exists_run.
  unfold bind at 1. rewrite directory_exists_run. simpl.
  destruct (dir_at e (tree f) root) eqn:Hroot; simpl.
  2: { destruct (dir_at e (tree f) storage); simpl;
         unfold bind, eprintf, printf, modify, ret; simpl;
         eexists _, _; (split; [done|]); by apply Hsame. }
  destruct (dir_at e (tree f) storage) eqn:Hst; simpl.
  2: { unfold bind, eprintf, printf, modify, ret; simpl.
       eexists _, _. split; [done|]. by apply Hsame. }
  apply dir_at_true, strip_slashes_entry in Hroot as (rp & Hres & Hrp).
  destruct Hrp as [Hdir|[t Hlink]].
  2: { destruct fuel as [|fuel]; [lia|].
       unfold bind at 1.
       rewrite (nftw_link_root fuel root _ (boot f space e) rp t) by done.
       rewrite visit_skip
         by (intros s1; by apply search_and_create_tar_skip).
       simpl. eexists _, _. split; [done|]. by apply Hsame. }
  destruct (archive_walk_writes_nothing fuel g e f root rp Hres Hdir Hfault
              Hfuel (boot f space e)) as (r & s' & Hrun & Hr & Hs');
    [done..|].
  unfold g in Hrun. unfold bind at 1. rewrite Hrun.
  destruct (Z.eqb_spec r (-1)) as [|_]; [done|].
  eexists _, _. split; [done|]. by destruct Hs' as (_ & _ & ?).
Qed.

Lemma archive_run_writes_nothing_witness :
  ∃ r s', main 8 ["prog"; "r"; "store"; ".log"]
            (boot logs_tree 4096 plain_env) = Some (r, s')
    ∧ (∀ c, resolve plain_env (tree logs_tree) (slash_join "store" "a1.tar")
            ≠ Ok c →
            tree (fs s') !! c = tree logs_tree !! c)
    ∧ (∀ c, tree (fs s') !! c = tree logs_tree !! c
            ∨ (tree logs_tree !! c = None
               ∧ ∃ j, tree (fs s') !! c = Some (File j)))
    ∧ (∀ k, blob (fs s') k = blob logs_tree k ∨ blob (fs s') k = []).
Proof.
  apply archive_run_writes_nothing.
  - reflexivity.
  - vm_compute. lia.
Defined.



(** ** The transfer of the one match *)

(** A transfer run over a tree with one regular file of the target name
    below the root, when the transfer of that file succeeds and leaves no
    new file of that name below the root: the walk ends in a state as the
    transfer left it. *)
Section transfer_unique.
Context (fuel : nat) (g : globals) (e : env) (f : disk).
Context (root : string) (rp : path) (rel : list string) (i : ino).
Context (s0 : state) (done_state : state → Prop).
Hypothesis top_entry : resolve_entry e (tree f) (strip_slashes root) = Ok rp.
Hypothesis top_dir : tree f !! rp = Some Dir.
Hypothesis no_fault : ∀ c, faulty e c = false.
Hypothesis Hfuel : deep (tree f) + 1 < fuel.
Hypothesis s0_fs : fs s0 = f.
Hypothesis s0_sys : sys s0 = e.
Hypothesis s0_hist : hist s0 = [].
Hypothesis Hrel : leads (tree f) rp rel.
Hypothesis Hfile : tree f !! (rp ++ rel) = Some (File i).
Hypothesis Hname : leaf rel = enteredFileName g.
Hypothesis only : only_match (tree f) rp (enteredFileName g) (rp ++ rel).
Hypothesis done_sys : ∀ s, done_state s → sys s = e.
Hypothesis done_skel : ∀ s, done_state s →
  same_skeleton (tree f) (tree (fs s)).
Hypothesis done_kept : ∀ s q j, done_state s →
  rp `prefix_of` q → q ≠ rp ++ rel →
  tree (fs s) !! q = Some (File j) → ∃ j', tree f !! q = Some (File j').
Hypothesis done_hist : ∀ s h, done_state s → done_state (with_hist h s).
Hypothesis hit : ∀ ftwbuf h,
  from_base (spell (strip_slashes root) rel) ftwbuf = enteredFileName g →
  ∃ s', visit (search_and_process fuel g) (spell (strip_slashes root) rel)
          FTW_F ftwbuf (with_hist h s0) = Some (0%Z, s')
    ∧ done_state s'
    ∧ (∀ q flag, Visit q flag ∈ hist s' →
                 Visit q flag ∈ h ∨ q = spell (strip_slashes root) rel).

Lemma rel_not_nil : rel ≠ [].
Proof. intros Heq. rewrite Heq, app_nil_r in Hfile. congruence. Qed.

Lemma transfer_unique_miss (m : gmap path node) rel' ftwbuf :
  leads (tree f) rp rel' → rel' ≠ rel →
  (rel' ≠ [] →
   from_base (spell (strip_slashes root) rel') ftwbuf = leaf rel') →
  (∀ j, m !! (rp ++ rel') = Some (File j) →
        ∃ j', tree f !! (rp ++ rel') = Some (File j')) →
  same_skeleton (tree f) m →
  ¬ (flag_at m (rp ++ rel') = FTW_F
     ∧ from_base (spell (strip_slashes root) rel') ftwbuf
       = enteredFileName g).
Proof.
  intros Hrel' Hne Hbase Hkept Hskel [[j Hj]%flag_at_F Hn].
  assert (Hnil : rel' ≠ []).
  { intros ->. rewrite app_nil_r in Hj. apply Hskel in top_dir. congruence. }
  destruct (Hkept j Hj) as [j' Hj']. apply Hne.
  apply (app_inv_head rp).
  apply (only _ _ Hj'); [by apply prefix_app_r|done|].
  by rewrite leaf_app, <- (Hbase Hnil).
Qed.

Lemma transfer_unique_walk :
  ∃ s', nftw fuel root (search_and_process fuel g) s0 = Some (0%Z, s')
        ∧ done_state s'.
Proof.
  set (top := strip_slashes root) in *.
  set (p := spell top rel).
  set (I := λ s, (¬ visited p s ∧ ∃ h, s = with_hist h s0)
                 ∨ (visited p s ∧ done_state s)).
  assert (Hgrow : ∀ q flag ftwbuf,
            append_only (search_and_process fuel g q flag ftwbuf))
    by (intros; apply append_only_search_and_process).
  assert (Hs0 : s0 = with_hist [] s0).
  { destruct s0; simpl in *. by rewrite s0_hist. }
  destruct (nftw_fresh_rule (search_and_process fuel g) e (tree f) top rp rel
              I (λ _ _, False) top_entry top_dir Hrel no_fault Hgrow)
    with (fuel := fuel) (root := root) (s := s0)
    as (r & s' & Hrun & H0 & H1).
  - intros s [[_ [h ->]]|[_ Hs]]; [done|by apply done_sys].
  - intros s [[_ [h ->]]|[_ Hs]]; [|by apply done_skel].
    simpl. rewrite s0_fs. apply same_skeleton_refl.
  - intros s [[_ [h ->]]|[Hv _]] Hnot; [|done].
    simpl. rewrite s0_fs. by eexists.
  - intros rel' ftwbuf s Hrel' [[Hnot [h ->]]|[Hseen Hdone]] Hbase Hfresh.
    + simpl. rewrite s0_fs. destruct (decide (rel' = rel)) as [->|Hne].
      * destruct (hit ftwbuf h) as (s' & Hvisit & Hdone & Hin).
        { rewrite Hbase by apply rel_not_nil. done. }
        unfold flag_at. rewrite Hfile. simpl.
        exists 0%Z, s'. split; [done|]. split; [|by split].
        intros _. right. split; [|done].
        by apply (visit_is_recorded (search_and_process fuel g) _ _ _ _ _ _
                    Hgrow Hvisit).
      * rewrite locate_visit_miss.
        2: { apply transfer_unique_miss;
               [done|done|done|by eauto|apply same_skeleton_refl]. }
        eexists _, _. split; [done|]. split; [|split; [done|]].
        -- intros _. left. split; [|by eexists].
           intros [flag Hin]. simpl in Hin.
           apply elem_of_app in Hin as [Hin|Hin].
           { apply Hnot. by exists flag. }
           apply list_elem_of_singleton in Hin. injection Hin as Heq _.
           apply spell_inj in Heq;
             [done|(by destruct Hrel) || (by destruct Hrel')..].
        -- intros q flag Hin. simpl in *.
           apply elem_of_app in Hin as [Hin|Hin]; [by left|].
           apply list_elem_of_singleton in Hin. injection Hin as -> _.
           by right.
    + assert (rel' ≠ rel) as Hne.
      { intros ->. destruct Hseen as [flag Hin]. by apply (Hfresh flag). }
      rewrite locate_visit_miss.
      2: { apply transfer_unique_miss;
             [done|done|done| |by apply done_skel].
           intros j Hj. apply (done_kept s _ j); try done.
           - by apply prefix_app_r.
           - intros Heq. by apply app_inv_head in Heq. }
      eexists _, _. split; [done|]. split; [|split; [done|]].
      * intros _. right. simpl. split; [|by apply done_hist].
        destruct Hseen as [flag Hin]. exists flag. simpl.
        apply elem_of_app. by left.
      * intros q flag Hin. simpl in *.
        apply elem_of_app in Hin as [Hin|Hin]; [by left|].
        apply list_elem_of_singleton in Hin. injection Hin as -> _.
        by right.
  - done.
  - left. split; [|by exists []].
    intros [flag Hin]. rewrite s0_hist in Hin. by apply elem_of_nil in Hin.
  - intros q flag _ _. rewrite s0_hist. apply not_elem_of_nil.
  - lia.
  - destruct (decide (r = 0%Z)) as [->|Hr]; [|by destruct (H1 Hr)].
    exists s'. split; [done|].
    destruct (H0 eq_refl) as [[[Hnot _]|[_ Hdone]] Hseen]; done.
Qed.
End transfer_unique.

(** The callback at a regular file of the target name, when a transfer is
    asked for and the storage path leads to a directory: the path is
    recorded and the transfer made. *)
Lemma transfer_visit fuel g fpath ftwbuf s op :
  operation g = Some op →
  from_base fpath ftwbuf = enteredFileName g →
  dir_at (sys s) (tree (fs s)) (storageDir g) = true →
  visit (search_and_process fuel g) fpath FTW_F ftwbuf s
  = (run copy_or_move_file fuel g fpath
           (slash_join (storageDir g) (enteredFileName g));
     ret 0%Z)
      (with_hist (hist s ++ [Visit fpath FTW_F; Found fpath])
         (with_found (Some fpath) s)).
Proof.
  intros Hop Hname Hdir. unfold visit, bind at 1, note, modify.
  unfold search_and_process.
  rewrite bool_decide_eq_true_2, Hname, strcmp_refl by done. simpl.
  unfold bind at 1, modify. unfold bind at 1, note, modify. rewrite Hop.
  unfold bind at 1. rewrite directory_exists_run. simpl. rewrite Hdir. simpl.
  by rewrite <- app_assoc.
Qed.




